(** * ccsim.neighborhood: pairwise interaction graphs and their generators

    A shallow embedding of [src/ccsim/neighborhood.py].

    - Python [int] is [Z]; node identifiers are integers, as in every
      generator of the module.
    - A [dict] is a [gmap], a [set] a [gset]; the adjacency structure
      [neighborhood] is a [gmap Z (gset Z)].
    - An object of the class is the content of its three dicts at one
      moment; a method takes that content and returns the content after
      the call.
    - A raised exception is the [Raise] case of [result]; a call that
      raises yields no value.  Everything proved below is about calls
      that return, so the partially mutated object a raising call leaves
      behind is not modelled.
    - [for] loops are monadic folds over the list the loop ranges over. *)

From Stdlib Require Import String.
From stdpp Require Import gmap list fin_maps fin_sets numbers.

Local Open Scope Z_scope.
Set Warnings "-clear-no-such-hyp".

(** ** Python values and exceptions *)

(** Metadata values: the Python objects a caller may attach.  Only their
    truth value is observed by the code ([if meta:]). *)
#[warnings="-register-all"]
Inductive pyobj :=
| PyNone
| PyBool (b : bool)
| PyInt (z : Z)
| PyStr (s : string)
| PyList (l : list pyobj).

(** [bool(x)] *)
Definition truthy (x : pyobj) : bool :=
  match x with
  | PyNone => false
  | PyBool b => b
  | PyInt z => negb (z =? 0)
  | PyStr s => match s with EmptyString => false | _ => true end
  | PyList l => match l with [] => false | _ => true end
  end.

(** The f-string messages of the module, with the value they format. *)
Inductive message :=
| Node_already_exists (nid : Z)
| Node_does_not_exist (nid : Z)
| Odd_number_of_rows (rows : Z).

Inductive exn :=
| Exception (msg : message)
| KeyError (key : Z)      (* explicit raise, missing dict key, set.remove of an absent element *)
| IndexError              (* list index out of range *)
| RuntimeError.           (* Set changed size during iteration *)

Inductive result (A : Type) :=
| Ok (a : A)
| Raise (e : exn).
Arguments Ok {A} a.
Arguments Raise {A} e.

#[global] Instance result_ret : MRet result := λ A a, Ok a.
#[global] Instance result_bind : MBind result := λ A B f r,
  match r with
  | Ok a => f a
  | Raise e => Raise e
  end.

(** [for x in l: s = body(x, s)] *)
Fixpoint foldM {A St : Type} (body : A → St → result St) (l : list A) (s : St) : result St :=
  match l with
  | [] => Ok s
  | x :: l => s' ← body x s; foldM body l s'
  end.

(** [range(a, b)] and [range(b)] *)
Definition range (a b : Z) : list Z := seqZ a (b - a).

(** [l[k]] on a Python list: negative indices count from the end. *)
Definition list_getitem (l : list Z) (k : Z) : result Z :=
  let k' := if decide (k < 0) then k + Z.of_nat (length l) else k in
  if decide (k' < 0) then Raise IndexError
  else match l !! Z.to_nat k' with
       | Some x => Ok x
       | None => Raise IndexError
       end.

(** [enumerate(l)] *)
Definition enumerate (l : list Z) : list (Z * Z) := zip (seqZ 0 (Z.of_nat (length l))) l.

(** ** Operations on the adjacency dict *)

Abbreviation dict := (gmap Z (gset Z)).

(** [d[k].add(x)] *)
Definition dict_add (d : dict) (k x : Z) : result dict :=
  match d !! k with
  | Some s => Ok (<[k := s ∪ {[x]}]> d)
  | None => Raise (KeyError k)
  end.

(** [d[k].remove(x)] *)
Definition dict_remove (d : dict) (k x : Z) : result dict :=
  match d !! k with
  | Some s => if decide (x ∈ s) then Ok (<[k := s ∖ {[x]}]> d) else Raise (KeyError x)
  | None => Raise (KeyError k)
  end.

(** The recurring pair of statements [d[a].add(b); d[b].add(a)]. *)
Definition add_both (d : dict) (a b : Z) : result dict :=
  d ← dict_add d a b; dict_add d b a.

(** The recurring pair [d[i].add(i+1); d[i+1] = set([i])]. *)
Definition add_right (d : dict) (i : Z) : result dict :=
  d ← dict_add d i (i + 1); Ok (<[i + 1 := {[i]}]> d).

(** ** class PairwiseNeighborhood *)

Record PairwiseNeighborhood := {
  neighborhood : dict;                        (* node_id_a: set of node_id_b *)
  node_metadata : gmap Z pyobj;               (* node_id: metadata *)
  interaction_metadata : gmap (Z * Z) pyobj;  (* (node_id_a, node_id_b): metadata *)
}.

(** [__init__] has three mutable default arguments, evaluated once: every
    object built without explicit metadata dicts holds the same two
    dicts.  [init_defaults] is the content of those shared dicts at the
    time of the call. *)
Record init_defaults := {
  default_node_metadata : gmap Z pyobj;
  default_interaction_metadata : gmap (Z * Z) pyobj;
}.

Definition PairwiseNeighborhood_init (dflt : init_defaults) (nb : dict) : PairwiseNeighborhood :=
  {| neighborhood := nb;
     node_metadata := default_node_metadata dflt;
     interaction_metadata := default_interaction_metadata dflt |}.

Definition with_neighborhood (self : PairwiseNeighborhood) (nb : dict) : PairwiseNeighborhood :=
  {| neighborhood := nb;
     node_metadata := node_metadata self;
     interaction_metadata := interaction_metadata self |}.

Definition with_node_metadata (self : PairwiseNeighborhood) (nm : gmap Z pyobj) : PairwiseNeighborhood :=
  {| neighborhood := neighborhood self;
     node_metadata := nm;
     interaction_metadata := interaction_metadata self |}.

Definition with_interaction_metadata (self : PairwiseNeighborhood) (im : gmap (Z * Z) pyobj)
  : PairwiseNeighborhood :=
  {| neighborhood := neighborhood self;
     node_metadata := node_metadata self;
     interaction_metadata := im |}.

(** [meta=None] is passed as [PyNone].  In the two functions that store
    edge metadata, the second assignment reads back the value the first
    one has just stored under [(nid1, nid2)], which is [meta]. *)
Definition add_node (self : PairwiseNeighborhood) (nid : Z) (meta : pyobj)
  : result PairwiseNeighborhood :=
  if decide (nid ∈ dom (neighborhood self)) then Raise (Exception (Node_already_exists nid))
  else
    let self := with_neighborhood self (<[nid := ∅]> (neighborhood self)) in
    if truthy meta then Ok (with_node_metadata self (<[nid := meta]> (node_metadata self)))
    else Ok self.

Definition add_node_metadata (self : PairwiseNeighborhood) (nid : Z) (meta : pyobj)
  : result PairwiseNeighborhood :=
  if decide (nid ∉ dom (neighborhood self)) then Raise (Exception (Node_does_not_exist nid))
  else Ok (with_node_metadata self (<[nid := meta]> (node_metadata self))).

Definition add_interaction (self : PairwiseNeighborhood) (nid1 nid2 : Z) (meta : pyobj)
  : result PairwiseNeighborhood :=
  self ← (if decide (nid1 ∉ dom (neighborhood self)) then add_node self nid1 PyNone else Ok self);
  self ← (if decide (nid2 ∉ dom (neighborhood self)) then add_node self nid2 PyNone else Ok self);
  nb ← dict_add (neighborhood self) nid1 nid2;
  nb ← dict_add nb nid2 nid1;
  let self := with_neighborhood self nb in
  if truthy meta then
    Ok (with_interaction_metadata self
          (<[(nid2, nid1) := meta]> (<[(nid1, nid2) := meta]> (interaction_metadata self))))
  else Ok self.

Definition add_interaction_metadata (self : PairwiseNeighborhood) (nid1 nid2 : Z) (meta : pyobj)
  : result PairwiseNeighborhood :=
  if decide (nid1 ∉ dom (neighborhood self)) then Raise (KeyError nid1)
  else if decide (nid2 ∉ dom (neighborhood self)) then Raise (KeyError nid2)
  else
    Ok (with_interaction_metadata self
          (<[(nid2, nid1) := meta]> (<[(nid1, nid2) := meta]> (interaction_metadata self)))).

(** [if k in d.keys(): del d[k]] is [delete k d]. *)
Definition remove_interaction (self : PairwiseNeighborhood) (nid1 nid2 : Z)
  : result PairwiseNeighborhood :=
  if decide (nid1 ∉ dom (neighborhood self)) then Raise (KeyError nid1)
  else if decide (nid2 ∉ dom (neighborhood self)) then Raise (KeyError nid2)
  else
    nb ← dict_remove (neighborhood self) nid1 nid2;
    nb ← dict_remove nb nid2 nid1;
    let self := with_neighborhood self nb in
    Ok (with_interaction_metadata self
          (delete (nid2, nid1) (delete (nid1, nid2) (interaction_metadata self)))).

(** The loop of [remove_node] iterates over the set object
    [self.neighborhood[nid]] itself.  When [nid] is its own neighbor the
    body removes [nid] from that very set and the iterator's next step
    raises [RuntimeError].  For any other neighbor the iterated set is
    untouched.  Python does not fix the iteration order; [elements] is one
    order, and whether the loop completes, and with what, is the same for
    all of them. *)
Definition remove_node_step (nid other_nid : Z) (st : dict * gmap (Z * Z) pyobj)
  : result (dict * gmap (Z * Z) pyobj) :=
  let '(nb, im) := st in
  nb ← dict_remove nb other_nid nid;
  let im := delete (other_nid, nid) (delete (nid, other_nid) im) in
  if decide (other_nid = nid) then Raise RuntimeError else Ok (nb, im).

Definition remove_node (self : PairwiseNeighborhood) (nid : Z) : result PairwiseNeighborhood :=
  match neighborhood self !! nid with
  | None => Raise (KeyError nid)
  | Some s =>
    '(nb, im) ← foldM (remove_node_step nid) (elements s)
                      (neighborhood self, interaction_metadata self);
    Ok {| neighborhood := delete nid nb;
          node_metadata := delete nid (node_metadata self);
          interaction_metadata := im |}
  end.

(** *** The object after a call that raised

    The methods change [self] in place, so a call that raises leaves in
    the caller's object whatever its statements stored before the
    [raise].  [remove_node] is the one method that can raise after it has
    changed a neighbor set of another node.  [remove_node_in_place] is the
    same method as [remove_node] above, keeping the object: it gives the
    object as it is when the call ends, and the exception that ended it,
    if any.  [order] is the order in which the [for] loop visits the
    neighbor set. *)
Fixpoint remove_node_loop (nid : Z) (order : list Z) (self : PairwiseNeighborhood)
  : PairwiseNeighborhood * option exn :=
  match order with
  | [] => (self, None)
  | other_nid :: order =>
    match dict_remove (neighborhood self) other_nid nid with
    | Raise e => (self, Some e)
    | Ok nb =>
      let self := with_neighborhood self nb in
      let self := with_interaction_metadata self
                    (delete (other_nid, nid) (delete (nid, other_nid) (interaction_metadata self))) in
      (* the set under iteration has changed size: the next step of the
         iterator raises *)
      if decide (other_nid = nid) then (self, Some RuntimeError)
      else remove_node_loop nid order self
    end
  end.

Definition remove_node_in_place (order : list Z) (self : PairwiseNeighborhood) (nid : Z)
  : PairwiseNeighborhood * option exn :=
  match neighborhood self !! nid with
  | None => (self, Some (KeyError nid))
  | Some _ =>
    match remove_node_loop nid order self with
    | (self, Some e) => (self, Some e)
    | (self, None) =>
      ({| neighborhood := delete nid (neighborhood self);
          node_metadata := delete nid (node_metadata self);
          interaction_metadata := interaction_metadata self |}, None)
    end
  end.

Definition get_neighbors (self : PairwiseNeighborhood) (nid : Z) : gset Z :=
  match neighborhood self !! nid with
  | Some neighbors => neighbors
  | None => ∅
  end.

(** [dict.get] returns [None] for a missing key. *)
Definition get_node_metadata (self : PairwiseNeighborhood) (nid : Z) : pyobj :=
  default PyNone (node_metadata self !! nid).

Definition get_interaction_metadata (self : PairwiseNeighborhood) (nid1 nid2 : Z) : pyobj :=
  default PyNone (interaction_metadata self !! (nid1, nid2)).

(** ** Generators *)

(** Each generator builds a local dict [neighborhood] and returns
    [PairwiseNeighborhood(neighborhood)].  The [_neighborhood] functions
    are the dict at the [return] statement. *)

Definition linear_neighborhood (Np : Z) (boundary_adjustment : bool) : result dict :=
  let neighborhood : dict := ∅ in
  (* Special case if only 1 node *)
  if decide (Np = 1) then
    Ok (<[0 := ∅]> neighborhood)
  else
    let neighborhood := <[0 := ∅]> neighborhood in
    neighborhood ← foldM (λ nid neighborhood, add_right neighborhood nid)
                         (range 0 (Np - 1)) neighborhood;
    if boundary_adjustment then add_both neighborhood 0 (Np - 1)
    else Ok neighborhood.

Definition linear_to_pairwise_neighborhood (dflt : init_defaults)
    (Np : Z) (boundary_adjustment : bool) : result PairwiseNeighborhood :=
  neighborhood ← linear_neighborhood Np boundary_adjustment;
  Ok (PairwiseNeighborhood_init dflt neighborhood).

(** The first-row loop, shared verbatim by the rectangular and the
    hexagonal generator; the state is [(neighborhood, i)]. *)
Definition first_row (cols : Z) : result (dict * Z) :=
  foldM (λ _ '(neighborhood, i),
           neighborhood ← add_right neighborhood i;
           Ok (neighborhood, i + 1))
        (range 0 (cols - 1)) (<[0 := ∅]> ∅, 0).

Definition rect2d_row (cols : Z) (m : Z) (st : dict * Z) : result (dict * Z) :=
  let '(neighborhood, i) := st in
  let i := i + 1 in
  let neighborhood := <[i := ∅]> neighborhood in
  '(neighborhood, i) ←
    foldM (λ _ '(neighborhood, i),
             (* top *)
             neighborhood ← add_both neighborhood i (i - cols);
             (* right *)
             neighborhood ← add_right neighborhood i;
             Ok (neighborhood, i + 1))
          (range 0 (cols - 1)) (neighborhood, i);
  (* last on row: top *)
  neighborhood ← add_both neighborhood i (i - cols);
  Ok (neighborhood, i).

Definition rect2d_boundary (rows cols : Z) (neighborhood : dict) : result dict :=
  (* connect top and bottom *)
  let top_row_ids := range 0 cols in
  let bottom_row_ids := range ((rows - 1) * cols) (rows * cols) in
  neighborhood ← foldM (λ '(nid1, nid2) neighborhood, add_both neighborhood nid1 nid2)
                       (zip top_row_ids bottom_row_ids) neighborhood;
  (* connect sides *)
  foldM (λ m neighborhood,
           let left_nid := m * cols in
           let right_nid := (m * cols) + (cols - 1) in
           add_both neighborhood left_nid right_nid)
        (range 0 rows) neighborhood.

Definition rect2d_von_neumann_neighborhood (rows cols : Z) (boundary_adjustment : bool)
  : result dict :=
  (* first row *)
  st ← first_row cols;
  (* second row onward *)
  '(neighborhood, _) ← foldM (rect2d_row cols) (range 1 rows) st;
  if boundary_adjustment then rect2d_boundary rows cols neighborhood
  else Ok neighborhood.

Definition rect2d_to_pairwise_von_neumann_neighborhood (dflt : init_defaults)
    (rows cols : Z) (boundary_adjustment : bool) : result PairwiseNeighborhood :=
  neighborhood ← rect2d_von_neumann_neighborhood rows cols boundary_adjustment;
  Ok (PairwiseNeighborhood_init dflt neighborhood).

Definition hex2d_row (cols : Z) (m : Z) (st : dict * Z) : result (dict * Z) :=
  let '(neighborhood, i) := st in
  let i := i + 1 in
  let neighborhood := <[i := ∅]> neighborhood in
  let top_left_offset := if decide (m mod 2 = 1) then cols else cols + 1 in
  (* even row 2, 4, 6, ... *)
  '(neighborhood, i) ←
    (if decide (m mod 2 = 0) then
       (* top-right *)
       neighborhood ← add_both neighborhood i (i - top_left_offset + 1);
       (* right *)
       neighborhood ← add_right neighborhood i;
       Ok (neighborhood, i + 1)
     else Ok (neighborhood, i));
  let start_pos := if decide (m mod 2 = 1) then 0 else 1 in
  let end_pos := cols - 1 in
  '(neighborhood, i) ←
    foldM (λ _ '(neighborhood, i),
             (* top-left *)
             neighborhood ← add_both neighborhood i (i - top_left_offset);
             (* top-right *)
             neighborhood ← add_both neighborhood i (i - top_left_offset + 1);
             (* right *)
             neighborhood ← add_right neighborhood i;
             Ok (neighborhood, i + 1))
          (range start_pos end_pos) (neighborhood, i);
  (* top-left *)
  neighborhood ← add_both neighborhood i (i - top_left_offset);
  (* even row 2, 4, 6, ... *)
  if decide (m mod 2 = 0) then
    (* top-right *)
    neighborhood ← add_both neighborhood i (i - top_left_offset + 1);
    Ok (neighborhood, i)
  else Ok (neighborhood, i).

Definition hex2d_boundary (rows cols : Z) (neighborhood : dict) : result dict :=
  if decide (rows mod 2 ≠ 0) then Raise (Exception (Odd_number_of_rows rows))
  else
    let top_row_ids := range 0 cols in
    let bottom_row_ids := range ((rows - 1) * cols) (rows * cols) in
    (* Top to bottom *)
    neighborhood ←
      foldM (λ '(i, nid) neighborhood,
               (* top-left *)
               top_left_nid ← list_getitem bottom_row_ids (i - 1);
               neighborhood ← add_both neighborhood nid top_left_nid;
               (* top-right *)
               top_right_nid ← list_getitem bottom_row_ids i;
               add_both neighborhood nid top_right_nid)
            (enumerate top_row_ids) neighborhood;
    (* Top row sides *)
    neighborhood ← add_both neighborhood 0 (cols - 1);
    (* rows *)
    foldM (λ r neighborhood,
             let left_nid := r * cols in
             let right_nid := (r * cols) + (cols - 1) in
             (* sides *)
             neighborhood ← add_both neighborhood left_nid right_nid;
             (* offsets *)
             if decide (r mod 2 = 1) then
               let top_right_nid := (r - 1) * cols in
               add_both neighborhood right_nid top_right_nid
             else
               let top_left_nid := left_nid - 1 in
               add_both neighborhood left_nid top_left_nid)
          (range 1 rows) neighborhood.

Definition hex2d_neighborhood (rows cols : Z) (boundary_adjustment : bool) : result dict :=
  (* first row *)
  st ← first_row cols;
  (* second row onwards *)
  '(neighborhood, _) ← foldM (hex2d_row cols) (range 1 rows) st;
  if boundary_adjustment then hex2d_boundary rows cols neighborhood
  else Ok neighborhood.

Definition hex2d_to_pairwise_neighborhood (dflt : init_defaults)
    (rows cols : Z) (boundary_adjustment : bool) : result PairwiseNeighborhood :=
  neighborhood ← hex2d_neighborhood rows cols boundary_adjustment;
  Ok (PairwiseNeighborhood_init dflt neighborhood).

(** The three remaining generators consist of the single statement
    [return NotImplementedError()]: the call returns, and what it returns
    is a freshly built exception object. *)
Inductive stub_value := NotImplementedError_instance.

Definition rect2d_to_pairwise_moore_neighborhood (rows cols : Z) (boundary_adjustment : bool)
  : result stub_value := Ok NotImplementedError_instance.

Definition rect3d_to_pairwise_neighborhood (Np : Z) (boundary_adjustment : bool)
  : result stub_value := Ok NotImplementedError_instance.

Definition hex3d_to_pairwise_neighborhood (Np : Z) (boundary_adjustment : bool)
  : result stub_value := Ok NotImplementedError_instance.

(** ** Observations on a graph *)

(** [b ∈ neighbors(a)] *)
Definition adj (nb : dict) (a b : Z) : Prop := ∃ s, nb !! a = Some s ∧ b ∈ s.

Definition symmetric (nb : dict) : Prop := ∀ a b, adj nb a b → adj nb b a.

Definition loop_free (nb : dict) : Prop := ∀ a, ¬ adj nb a a.

(** All ordered pairs [(a, b)] with [b ∈ nb[a]]. *)
Definition arcs (nb : dict) : gset (Z * Z) :=
  ⋃ ((λ p : Z * gset Z, set_map (pair p.1) p.2) <$> map_to_list nb).

(** Undirected edges, each unordered pair once: the arcs [(a, b)] with [a ≤ b]. *)
Definition edges (nb : dict) : gset (Z * Z) := filter (λ p, p.1 ≤ p.2) (arcs nb).

Definition edge_count (nb : dict) : nat := size (edges nb).

(** The identifier set [{0, ..., n-1}]. *)
Definition ids (n : Z) : gset Z := list_to_set (seqZ 0 n).

(** [symmetric], as a check that evaluates on a concrete graph. *)
Definition symmetricb (nb : dict) : bool :=
  bool_decide (set_Forall (λ p : Z * Z, (p.2, p.1) ∈ arcs nb) (arcs nb)).

(** Dict and list accesses raise [KeyError] and [IndexError]; an
    [Exception] comes from an explicit [raise] only. *)
Definition not_Exception {A} (r : result A) : Prop := ∀ msg, r ≠ Raise (Exception msg).

(** ** Predicates for the proofs about the generators *)

(** [d'] is [d] with the edge between [a] and [b] added. *)
Definition plus_edge (d d' : dict) (a b : Z) : Prop :=
  ∀ x y, adj d' x y ↔ adj d x y ∨ (x = a ∧ y = b) ∨ (x = b ∧ y = a).

(** [upto d i P]: [d] is a symmetric graph on the nodes [0..i], and every
    arc [(a, b)] of it satisfies [P a b]. *)
Record upto (d : dict) (i : Z) (P : Z → Z → Prop) : Prop := {
  upto_dom : ∀ k, k ∈ dom d ↔ 0 ≤ k ≤ i;
  upto_sym : symmetric d;
  upto_shape : ∀ a b, adj d a b → P a b;
}.

(** The arcs present while row-major node [t] is the next one to receive
    its upward edge: vertical edges end strictly before [t], horizontal
    edges need at least two columns. *)
Definition rect_shape (cols t : Z) (x y : Z) : Prop :=
  (Z.abs (x - y) = cols ∧ Z.max x y < t) ∨ (Z.abs (x - y) = 1 ∧ 2 ≤ cols).

(** Arcs that are there at that point: the vertical edges that end
    before [t], and the first horizontal edge of every row begun up to
    node [i]. *)
Definition rect_has (cols : Z) (d : dict) (i t : Z) : Prop :=
  (∀ x, 0 ≤ x → x + cols < t → adj d x (x + cols)) ∧
  (∀ q, 0 ≤ q → 2 ≤ cols → q * cols + 1 ≤ i → adj d (q * cols) (q * cols + 1)).

(** Arcs of the wrapped grid: grid arcs, vertical wraps and side wraps. *)
Definition torus_shape (rows cols : Z) (x y : Z) : Prop :=
  Z.abs (x - y) = cols ∨ (Z.abs (x - y) = 1 ∧ 2 ≤ cols) ∨
  Z.abs (x - y) = (rows - 1) * cols ∨ Z.abs (x - y) = cols - 1.

(** [nid] is made a node if it is not one yet. *)
Definition ensure_node (d : dict) (nid : Z) : dict :=
  if decide (nid ∉ dom d) then <[nid := ∅]> d else d.

(** ** Graphs a caller can hold *)

(** The content of the constructor's default dicts in a fresh interpreter. *)
Definition fresh_defaults : init_defaults :=
  {| default_node_metadata := ∅; default_interaction_metadata := ∅ |}.

(** Returned by one of the three implemented generators on valid
    parameters. *)
Inductive generated : PairwiseNeighborhood → Prop :=
| generated_linear dflt Np b g :
    1 ≤ Np → linear_to_pairwise_neighborhood dflt Np b = Ok g → generated g
| generated_rect2d dflt rows cols b g :
    1 ≤ rows → 1 ≤ cols →
    rect2d_to_pairwise_von_neumann_neighborhood dflt rows cols b = Ok g → generated g
| generated_hex2d dflt rows cols b g :
    1 ≤ rows → 1 ≤ cols →
    hex2d_to_pairwise_neighborhood dflt rows cols b = Ok g → generated g.

(** Obtained from a generated graph by calls that returned. *)
Inductive evolved : PairwiseNeighborhood → Prop :=
| evolved_generated g : generated g → evolved g
| evolved_add_node g g' nid meta :
    evolved g → add_node g nid meta = Ok g' → evolved g'
| evolved_add_node_metadata g g' nid meta :
    evolved g → add_node_metadata g nid meta = Ok g' → evolved g'
| evolved_add_interaction g g' nid1 nid2 meta :
    evolved g → add_interaction g nid1 nid2 meta = Ok g' → evolved g'
| evolved_add_interaction_metadata g g' nid1 nid2 meta :
    evolved g → add_interaction_metadata g nid1 nid2 meta = Ok g' → evolved g'
| evolved_remove_interaction g g' nid1 nid2 :
    evolved g → remove_interaction g nid1 nid2 = Ok g' → evolved g'
| evolved_remove_node g g' nid :
    evolved g → remove_node g nid = Ok g' → evolved g'.

(** ** Concrete graphs *)

(** The ring of the class docstring. *)
Definition ring5 : dict :=
  list_to_map [(0, {[1; 4]}); (1, {[0; 2]}); (2, {[1; 3]}); (3, {[2; 4]}); (4, {[3; 0]})].

(** A ring of three nodes from which node 1 was removed and to which the
    edge between 0 and 7 was added. *)
Definition ring3_evolved : PairwiseNeighborhood :=
  {| neighborhood := list_to_map [(0, {[2; 7]}); (2, {[0]}); (7, {[0]})];
     node_metadata := ∅;
     interaction_metadata := list_to_map [((0, 7), PyInt 5); ((7, 0), PyInt 5)] |}.

(** The path 0 - 1 - 2 with node metadata on 0 and edge metadata on 0 - 1. *)
Definition path3_meta : PairwiseNeighborhood :=
  {| neighborhood := list_to_map [(0, {[1]}); (1, {[0; 2]}); (2, {[1]})];
     node_metadata := {[0 := PyInt 3]};
     interaction_metadata := list_to_map [((0, 1), PyInt 4); ((1, 0), PyInt 4)] |}.

(** [path3_meta] after [add_node(5, 6)], [add_node_metadata(1, 0)] and
    [remove_node(0)]. *)
Definition path3_meta_later : PairwiseNeighborhood :=
  {| neighborhood := list_to_map [(1, {[2]}); (2, {[1]}); (5, ∅)];
     node_metadata := list_to_map [(1, PyInt 0); (5, PyInt 6)];
     interaction_metadata := ∅ |}.

(** The grid of one row and two columns with boundary adjustment, as the
    rectangular generator returns it, and the same object after a call
    [remove_node(1)] whose loop visited the neighbors of node 1 in the
    order 0, 1 (the order in which CPython iterates the set [{0, 1}]). *)
Definition row2_wrapped : PairwiseNeighborhood :=
  {| neighborhood := list_to_map [(0, {[0; 1]}); (1, {[0; 1]})];
     node_metadata := ∅;
     interaction_metadata := ∅ |}.

Definition row2_half_removed : PairwiseNeighborhood :=
  {| neighborhood := list_to_map [(0, {[0]}); (1, {[0]})];
     node_metadata := ∅;
     interaction_metadata := ∅ |}.

(** The claim as the specification words it: after the call, no edge
    metadata mentions [x] at all. *)
Definition no_metadata_mentions (g : PairwiseNeighborhood) (x : Z) : Prop :=
  ∀ a b, is_Some (interaction_metadata g !! (a, b)) → a ≠ x ∧ b ≠ x.

(** ** Calls and what they keep *)

(** One call of a mutating method that returned. *)
Inductive call : PairwiseNeighborhood → PairwiseNeighborhood → Prop :=
| call_add_node g g' nid meta : add_node g nid meta = Ok g' → call g g'
| call_add_node_metadata g g' nid meta : add_node_metadata g nid meta = Ok g' → call g g'
| call_add_interaction g g' nid1 nid2 meta :
    add_interaction g nid1 nid2 meta = Ok g' → call g g'
| call_add_interaction_metadata g g' nid1 nid2 meta :
    add_interaction_metadata g nid1 nid2 meta = Ok g' → call g g'
| call_remove_interaction g g' nid1 nid2 : remove_interaction g nid1 nid2 = Ok g' → call g g'
| call_remove_node g g' nid : remove_node g nid = Ok g' → call g g'.

(** The same, without [add_interaction_metadata]. *)
Inductive edge_call : PairwiseNeighborhood → PairwiseNeighborhood → Prop :=
| edge_call_add_node g g' nid meta : add_node g nid meta = Ok g' → edge_call g g'
| edge_call_add_node_metadata g g' nid meta :
    add_node_metadata g nid meta = Ok g' → edge_call g g'
| edge_call_add_interaction g g' nid1 nid2 meta :
    add_interaction g nid1 nid2 meta = Ok g' → edge_call g g'
| edge_call_remove_interaction g g' nid1 nid2 :
    remove_interaction g nid1 nid2 = Ok g' → edge_call g g'
| edge_call_remove_node g g' nid : remove_node g nid = Ok g' → edge_call g g'.

(** Edge metadata reads the same in both directions. *)
Definition mirrored (g : PairwiseNeighborhood) : Prop :=
  ∀ a b, interaction_metadata g !! (a, b) = interaction_metadata g !! (b, a).

(** Only nodes carry node metadata. *)
Definition node_metadata_on_nodes (g : PairwiseNeighborhood) : Prop :=
  dom (node_metadata g) ⊆ dom (neighborhood g).

(** Only edges carry edge metadata. *)
Definition metadata_on_edges (g : PairwiseNeighborhood) : Prop :=
  ∀ a b, is_Some (interaction_metadata g !! (a, b)) → adj (neighborhood g) a b.

(** Every member of a neighbor set is a node. *)
Definition closed (nb : dict) : Prop := ∀ a b, adj nb a b → b ∈ dom nb.

(** The empty graph [PairwiseNeighborhood({}, {}, {})]. *)
Definition empty_graph : PairwiseNeighborhood :=
  {| neighborhood := ∅; node_metadata := ∅; interaction_metadata := ∅ |}.

(** Built by three calls from the empty graph: two edges with metadata,
    then node 2 removed. *)
Definition built_graph : PairwiseNeighborhood :=
  {| neighborhood := list_to_map [(0, {[1]}); (1, {[0]})];
     node_metadata := ∅;
     interaction_metadata := list_to_map [((0, 1), PyInt 2); ((1, 0), PyInt 2)] |}.

(** ** The graphs the generators build, arc by arc *)

(** [exactly d i E]: the nodes of [d] are [0..i] and its arcs are exactly
    the pairs in [E]. *)
Record exactly (d : dict) (i : Z) (E : Z → Z → Prop) : Prop := {
  exactly_dom : ∀ k, k ∈ dom d ↔ 0 ≤ k ≤ i;
  exactly_adj : ∀ a b, adj d a b ↔ E a b;
}.

(** Arcs of the chain on [0..n-1]. *)
Definition path_arc (n x y : Z) : Prop :=
  0 ≤ x < n ∧ 0 ≤ y < n ∧ Z.abs (x - y) = 1.

(** Arcs of the rectangular grid under construction: vertical arcs whose
    lower end is before [t], horizontal arcs whose right end is at most
    [i] and not the first node of a row. *)
Definition grid_arc (cols t i x y : Z) : Prop :=
  0 ≤ x ∧ 0 ≤ y ∧
  ((y = x + cols ∧ y < t) ∨ (x = y + cols ∧ x < t) ∨
   (y = x + 1 ∧ y ≤ i ∧ y mod cols ≠ 0) ∨ (x = y + 1 ∧ x ≤ i ∧ x mod cols ≠ 0)).

(** The first [k] vertical wrap edges, and the first [k] side wrap edges. *)
Definition wrap_vertical (rows cols k x y : Z) : Prop :=
  ∃ j, 0 ≤ j < k ∧
       ((x = j ∧ y = (rows - 1) * cols + j) ∨ (y = j ∧ x = (rows - 1) * cols + j)).

Definition wrap_side (cols k x y : Z) : Prop :=
  ∃ m, 0 ≤ m < k ∧
       ((x = m * cols ∧ y = m * cols + (cols - 1)) ∨
        (y = m * cols ∧ x = m * cols + (cols - 1))).

(** Grid positions [(r, c)] and [(r', c')] are neighbors in the 4-neighbor
    grid; and in the grid wrapped to a torus. *)
Definition von_neumann (r c r' c' : Z) : Prop :=
  (r = r' ∧ Z.abs (c - c') = 1) ∨ (c = c' ∧ Z.abs (r - r') = 1).

Definition von_neumann_torus (rows cols r c r' c' : Z) : Prop :=
  von_neumann r c r' c' ∨
  (c = c' ∧ ((r = 0 ∧ r' = rows - 1) ∨ (r' = 0 ∧ r = rows - 1))) ∨
  (r = r' ∧ ((c = 0 ∧ c' = cols - 1) ∨ (c' = 0 ∧ c = cols - 1))).

(** [y] is an upward neighbor of node [x] of the hexagonal grid: in an
    odd row the node above-left is [x - cols] and the one above-right
    [x - cols + 1] (none for the last node of the row); in an even row
    they are [x - cols - 1] (none for the first node of the row) and
    [x - cols]. *)
Definition hex_up (cols x y : Z) : Prop :=
  cols ≤ x ∧
  (((x / cols) mod 2 = 1 ∧ (y = x - cols ∨ (y = x - cols + 1 ∧ x mod cols ≠ cols - 1))) ∨
   ((x / cols) mod 2 = 0 ∧ (y = x - cols ∨ (y = x - cols - 1 ∧ x mod cols ≠ 0)))).

(** Arcs of the hexagonal grid under construction: the upward arcs of the
    nodes before [t], and the horizontal arcs up to node [i]. *)
Definition hex_arc (cols t i x y : Z) : Prop :=
  0 ≤ x ∧ 0 ≤ y ∧
  ((hex_up cols x y ∧ x < t) ∨ (hex_up cols y x ∧ y < t) ∨
   (y = x + 1 ∧ y ≤ i ∧ y mod cols ≠ 0) ∨ (x = y + 1 ∧ x ≤ i ∧ x mod cols ≠ 0)).

(** Position [(r', c')] is directly above position [(r, c)] in the offset
    layout, where odd rows are shifted half a cell to the right. *)
Definition hex_upward (r c r' c' : Z) : Prop :=
  r' = r - 1 ∧
  ((r mod 2 = 1 ∧ (c' = c ∨ c' = c + 1)) ∨ (r mod 2 = 0 ∧ (c' = c ∨ c' = c - 1))).

Definition hex_neighbors (r c r' c' : Z) : Prop :=
  (r = r' ∧ Z.abs (c - c') = 1) ∨ hex_upward r c r' c' ∨ hex_upward r' c' r c.

(** [{x, y} = {a, b}] *)
Definition pair_is (x y a b : Z) : Prop := (x = a ∧ y = b) ∨ (x = b ∧ y = a).

(** The wrap edges of the hexagonal generator: those of the first [k]
    nodes of the top row, each to the bottom-row node of the column to its
    left (cyclically) and of its own column; and those of the rows
    [1..k-1], each its two ends, and its last node to the first of the
    row above (odd rows) or its first node to the last of the row above
    (even rows). *)
Definition hex_wrap_top (rows cols k x y : Z) : Prop :=
  ∃ j, 0 ≤ j < k ∧
       (pair_is x y j ((rows - 1) * cols + (if decide (j = 0) then cols - 1 else j - 1)) ∨
        pair_is x y j ((rows - 1) * cols + j)).

Definition hex_wrap_rows (cols k x y : Z) : Prop :=
  ∃ m, 1 ≤ m < k ∧
       (pair_is x y (m * cols) (m * cols + (cols - 1)) ∨
        (m mod 2 = 1 ∧ pair_is x y (m * cols + (cols - 1)) ((m - 1) * cols)) ∨
        (m mod 2 ≠ 1 ∧ pair_is x y (m * cols) (m * cols - 1))).

(** The same in grid positions: [(r, c)] is joined to [(r', c')] by a
    wrap edge. *)
Definition hex_wrap (rows cols r c r' c' : Z) : Prop :=
  (r = 0 ∧ r' = rows - 1 ∧ (c' = c ∨ c' = c - 1 ∨ (c = 0 ∧ c' = cols - 1))) ∨
  (r = r' ∧ c = 0 ∧ c' = cols - 1) ∨
  (r' = r - 1 ∧ r mod 2 = 1 ∧ c = cols - 1 ∧ c' = 0) ∨
  (r' = r - 1 ∧ r mod 2 = 0 ∧ c = 0 ∧ c' = cols - 1).

(** ** The error monad and loops *)

Lemma bind_Ok {A B} (r : result A) (f : A → result B) (b : B) :
  r ≫= f = Ok b ↔ ∃ a, r = Ok a ∧ f a = Ok b.
Proof.
  destruct r as [a|e]; simpl; split.
  - eauto.
  - by intros (? & [= <-] & ?).
  - done.
  - by intros (? & ? & ?).
Qed.

(** A loop that keeps an invariant indexed by the number of completed
    iterations runs to completion, without raising. *)
Lemma foldM_inv {A St} (I : nat → St → Prop) (body : A → St → result St) (l : list A) (s : St) :
  I 0%nat s →
  (∀ k x s, l !! k = Some x → I k s → ∃ s', body x s = Ok s' ∧ I (S k) s') →
  ∃ s', foldM body l s = Ok s' ∧ I (length l) s'.
Proof.
  revert I s. induction l as [|x l IH]; intros I s H0 Hstep; simpl.
  - eauto.
  - destruct (Hstep 0%nat x s eq_refl H0) as (s1 & -> & H1). simpl.
    apply (IH (λ k, I (S k))); [done|].
    intros k y t Hk. apply (Hstep (S k)). done.
Qed.

Lemma range_lookup (a b : Z) (k : nat) (x : Z) :
  range a b !! k = Some x ↔ x = a + Z.of_nat k ∧ Z.of_nat k < b - a.
Proof. unfold range. rewrite lookup_seqZ. lia. Qed.

Lemma range_length (a b : Z) : length (range a b) = Z.to_nat (b - a).
Proof. unfold range. by rewrite length_seqZ. Qed.

(** ** Adjacency after the primitive steps *)

Lemma adj_dom (d : dict) (a b : Z) : adj d a b → a ∈ dom d.
Proof. intros (s & Hs & _). apply elem_of_dom. eauto. Qed.

Lemma adj_insert (d : dict) (k : Z) (s : gset Z) (a b : Z) :
  adj (<[k := s]> d) a b ↔ (a = k ∧ b ∈ s) ∨ (a ≠ k ∧ adj d a b).
Proof.
  unfold adj. destruct (decide (a = k)) as [->|Hne].
  - rewrite lookup_insert_eq. naive_solver.
  - rewrite lookup_insert_ne; [|done]. naive_solver.
Qed.

Lemma dict_add_spec (d : dict) (k x : Z) :
  k ∈ dom d →
  ∃ d', dict_add d k x = Ok d' ∧ dom d' = dom d ∧
        ∀ a b, adj d' a b ↔ adj d a b ∨ (a = k ∧ b = x).
Proof.
  intros [s Hs]%elem_of_dom. unfold dict_add. rewrite Hs.
  eexists; split; [done|]. split.
  - rewrite dom_insert_L. apply elem_of_dom_2 in Hs. set_solver.
  - intros a b. rewrite adj_insert. unfold adj.
    destruct (decide (a = k)) as [->|]; [|naive_solver].
    rewrite Hs. set_solver.
Qed.

Lemma add_both_spec (d : dict) (a b : Z) :
  a ∈ dom d → b ∈ dom d →
  ∃ d', add_both d a b = Ok d' ∧ dom d' = dom d ∧ plus_edge d d' a b.
Proof.
  intros Ha Hb. unfold add_both.
  destruct (dict_add_spec d a b Ha) as (d1 & -> & Hd1 & H1). simpl.
  destruct (dict_add_spec d1 b a) as (d2 & -> & Hd2 & H2); [by rewrite Hd1|].
  eexists; split; [done|]. split; [congruence|].
  intros x y. rewrite H2, H1. tauto.
Qed.

Lemma add_right_spec (d : dict) (i : Z) :
  i ∈ dom d → i + 1 ∉ dom d →
  ∃ d', add_right d i = Ok d' ∧ dom d' = dom d ∪ {[i + 1]} ∧ plus_edge d d' i (i + 1).
Proof.
  intros Hi Hn. unfold add_right.
  destruct (dict_add_spec d i (i + 1) Hi) as (d1 & -> & Hd1 & H1). simpl.
  eexists; split; [done|]. split.
  - rewrite dom_insert_L, Hd1. set_solver.
  - intros x y. rewrite adj_insert, H1.
    split.
    + intros [[-> ->%elem_of_singleton]|[Hx [H|[-> ->]]]]; auto.
    + intros [H|[[-> ->]|[-> ->]]].
      * right. split; [|auto]. intros ->. apply adj_dom in H. done.
      * right. split; [lia|auto].
      * left. split; [done|set_solver].
Qed.

Lemma new_node_spec (d : dict) (k : Z) :
  k ∉ dom d →
  dom (<[k := ∅]> d) = dom d ∪ {[k]} ∧ ∀ x y, adj (<[k := ∅]> d) x y ↔ adj d x y.
Proof.
  intros Hk. split.
  - rewrite dom_insert_L. set_solver.
  - intros x y. rewrite adj_insert. split.
    + intros [[_ ?]|[_ ?]]; [set_solver|done].
    + intros H. right. split; [|done]. intros ->. by apply adj_dom in H.
Qed.

Lemma plus_edge_symmetric (d d' : dict) (a b : Z) :
  plus_edge d d' a b → symmetric d → symmetric d'.
Proof.
  intros Hp Hs x y. unfold plus_edge in Hp. rewrite !Hp. intros [H|[[-> ->]|[-> ->]]]; auto.
Qed.

Lemma plus_edge_loop_free (d d' : dict) (a b : Z) :
  plus_edge d d' a b → a ≠ b → loop_free d → loop_free d'.
Proof.
  intros Hp Hab Hl x. unfold plus_edge in Hp. rewrite Hp. intros [H|[[-> ->]|[-> ->]]]; [by apply Hl in H|done..].
Qed.

(** ** Counting edges *)

Lemma elem_of_arcs (d : dict) (a b : Z) : (a, b) ∈ arcs d ↔ adj d a b.
Proof.
  unfold arcs, adj. rewrite elem_of_union_list. split.
  - intros (X & HX & Hab). apply list_elem_of_fmap in HX as ([k s] & -> & Hks).
    apply elem_of_map_to_list in Hks. simpl in Hab.
    apply elem_of_map in Hab as (y & Heq & Hy). simplify_eq. eauto.
  - intros (s & Hs & Hb). exists (set_map (pair a) s). split.
    + apply list_elem_of_fmap. exists (a, s). split; [done|]. by apply elem_of_map_to_list.
    + apply elem_of_map. eauto.
Qed.

Lemma elem_of_edges (d : dict) (a b : Z) : (a, b) ∈ edges d ↔ a ≤ b ∧ adj d a b.
Proof. unfold edges. rewrite elem_of_filter, elem_of_arcs. done. Qed.

Lemma edge_count_same (d d' : dict) :
  (∀ x y, adj d' x y ↔ adj d x y) → edge_count d' = edge_count d.
Proof.
  intros H. unfold edge_count. f_equal. apply set_eq. intros [x y].
  rewrite !elem_of_edges, H. done.
Qed.

Lemma edge_count_plus (d d' : dict) (a b : Z) :
  plus_edge d d' a b → ¬ adj d a b → ¬ adj d b a →
  edge_count d' = S (edge_count d).
Proof.
  intros Hp Hab Hba. unfold edge_count. unfold plus_edge in Hp.
  assert (edges d' = {[ (Z.min a b, Z.max a b) ]} ∪ edges d) as ->.
  { apply set_eq. intros [x y].
    rewrite elem_of_union, elem_of_singleton, !elem_of_edges, Hp.
    split.
    - intros [Hle [H|[[-> ->]|[-> ->]]]]; [by right|left; f_equal; lia..].
    - intros [[= -> ->]|[? ?]]; [|tauto]. split; [lia|].
      destruct (decide (a ≤ b)).
      + rewrite Z.min_l, Z.max_r by lia. auto.
      + rewrite Z.min_r, Z.max_l by lia. auto. }
  rewrite size_union, size_singleton; [done|].
  apply disjoint_singleton_l. rewrite elem_of_edges. intros [_ H].
  destruct (decide (a ≤ b)).
  - rewrite Z.min_l, Z.max_r in H by lia. done.
  - rewrite Z.min_r, Z.max_l in H by lia. done.
Qed.

Lemma edge_count_present (d d' : dict) (a b : Z) :
  plus_edge d d' a b → adj d a b → adj d b a → edge_count d' = edge_count d.
Proof.
  intros Hp Hab Hba. apply edge_count_same. intros x y. unfold plus_edge in Hp. rewrite Hp.
  split; [|auto]. intros [H|[[-> ->]|[-> ->]]]; done.
Qed.

(** ** Steps on a graph under construction *)

Lemma upto_adj_range (d : dict) (i : Z) (P : Z → Z → Prop) (a b : Z) :
  upto d i P → adj d a b → 0 ≤ a ≤ i ∧ 0 ≤ b ≤ i.
Proof.
  intros [Hd Hs _] H. split; apply Hd.
  - by apply adj_dom in H.
  - by apply Hs, adj_dom in H.
Qed.

Lemma upto_weaken (d : dict) (i : Z) (P Q : Z → Z → Prop) :
  (∀ a b, 0 ≤ a ≤ i → 0 ≤ b ≤ i → P a b → Q a b) → upto d i P → upto d i Q.
Proof.
  intros HPQ H. destruct H as [Hd Hs Hp]. split; [done..|].
  intros a b Hab.
  destruct (upto_adj_range d i P a b) as [? ?]; [by split|done|]. auto.
Qed.

Lemma upto_init (P : Z → Z → Prop) :
  upto (<[0 := ∅]> ∅) 0 P ∧ edge_count (<[0 := ∅]> ∅) = 0%nat.
Proof.
  assert (∀ a b, ¬ adj (<[0 := ∅]> ∅) a b) as Hno.
  { intros a b. rewrite adj_insert. intros [[_ ?]|[_ (s & Hs & _)]]; [set_solver|].
    by rewrite lookup_empty in Hs. }
  split; [split|].
  - intros k. rewrite dom_insert_L, dom_empty_L. set_solver by lia.
  - intros a b H. by apply Hno in H.
  - intros a b H. by apply Hno in H.
  - unfold edge_count. apply size_empty_iff. intros [a b].
    rewrite elem_of_edges. split; [|set_solver]. intros [_ H]. by apply Hno in H.
Qed.

Lemma upto_add_both (d : dict) (i : Z) (P : Z → Z → Prop) (a b : Z) :
  upto d i P → 0 ≤ a ≤ i → 0 ≤ b ≤ i →
  ∃ d', add_both d a b = Ok d' ∧ plus_edge d d' a b ∧
        upto d' i (λ x y, P x y ∨ (x = a ∧ y = b) ∨ (x = b ∧ y = a)) ∧
        (¬ P a b → ¬ P b a → edge_count d' = S (edge_count d)).
Proof.
  intros [Hd Hs Hp] Ha Hb.
  destruct (add_both_spec d a b) as (d' & Hd' & Hdom & Hplus); [by apply Hd..|].
  exists d'. split; [done|]. split; [done|]. split; [split|].
  - intros k. rewrite Hdom. apply Hd.
  - by eapply plus_edge_symmetric.
  - intros x y [H|H]%Hplus; auto.
  - intros Hab Hba. eapply edge_count_plus; [done|..]; intros H%Hp; done.
Qed.

Lemma upto_add_right (d : dict) (i : Z) (P : Z → Z → Prop) :
  upto d i P → 0 ≤ i →
  ∃ d', add_right d i = Ok d' ∧ plus_edge d d' i (i + 1) ∧
        upto d' (i + 1) (λ x y, P x y ∨ (x = i ∧ y = i + 1) ∨ (x = i + 1 ∧ y = i)) ∧
        edge_count d' = S (edge_count d).
Proof.
  intros Hu Hi. pose proof Hu as [Hd Hs Hp].
  assert (i + 1 ∉ dom d) as Hn by (rewrite Hd; lia).
  destruct (add_right_spec d i) as (d' & Hd' & Hdom & Hplus); [apply Hd; lia|done|].
  exists d'. split; [done|]. split; [done|]. split; [split|].
  - intros k. rewrite Hdom, elem_of_union, elem_of_singleton, Hd. lia.
  - by eapply plus_edge_symmetric.
  - intros x y [H|H]%Hplus; auto.
  - eapply edge_count_plus; [done|..]; intros H.
    + by apply Hs, adj_dom in H.
    + by apply adj_dom in H.
Qed.

Lemma upto_new_node (d : dict) (i : Z) (P : Z → Z → Prop) :
  upto d i P → 0 ≤ i →
  upto (<[i + 1 := ∅]> d) (i + 1) P ∧
  (∀ y, ¬ adj (<[i + 1 := ∅]> d) (i + 1) y) ∧
  edge_count (<[i + 1 := ∅]> d) = edge_count d.
Proof.
  intros [Hd Hs Hp] Hi.
  assert (i + 1 ∉ dom d) as Hn by (rewrite Hd; lia).
  destruct (new_node_spec d (i + 1) Hn) as [Hdom Hadj].
  split; [split|split].
  - intros k. rewrite Hdom, elem_of_union, elem_of_singleton, Hd. lia.
  - intros a b. rewrite !Hadj. apply Hs.
  - intros a b. rewrite Hadj. apply Hp.
  - intros y. rewrite Hadj. intros H. by apply adj_dom in H.
  - by apply edge_count_same.
Qed.

Lemma elem_of_ids (n : Z) (k : Z) : k ∈ ids n ↔ 0 ≤ k < n.
Proof. unfold ids. rewrite elem_of_list_to_set, elem_of_seqZ. lia. Qed.

Lemma upto_dom_ids (d : dict) (i : Z) (P : Z → Z → Prop) : upto d i P → dom d = ids (i + 1).
Proof. intros [Hd _ _]. apply set_eq. intros k. rewrite Hd, elem_of_ids. lia. Qed.

Lemma upto_loop_free (d : dict) (i : Z) (P : Z → Z → Prop) :
  upto d i P → (∀ a, ¬ P a a) → loop_free d.
Proof. intros [_ _ Hp] HP a H%Hp. by apply HP in H. Qed.

Lemma size_ids (n : Z) : size (ids n) = Z.to_nat n.
Proof.
  unfold ids. rewrite size_list_to_set by apply NoDup_seqZ. apply length_seqZ.
Qed.

(** ** The linear generator *)

Lemma linear_neighborhood_spec (Np : Z) (b : bool) :
  1 ≤ Np →
  ∃ d, linear_neighborhood Np b = Ok d ∧
       upto d (Np - 1) (λ x y, x ≠ y) ∧
       Z.of_nat (edge_count d) = if b && bool_decide (3 ≤ Np) then Np else Np - 1.
Proof.
  intros HN. unfold linear_neighborhood.
  destruct (upto_init (λ x y, Z.abs (x - y) = 1)) as [Hu0 Hc0].
  case_decide as H1.
  { subst Np. eexists; split; [done|]. split.
    - eapply upto_weaken; [|exact Hu0]. simpl. lia.
    - rewrite Hc0. rewrite bool_decide_eq_false_2 by lia. by rewrite andb_false_r. }
  destruct (foldM_inv
    (λ k d, upto d (Z.of_nat k) (λ x y, Z.abs (x - y) = 1) ∧
            Z.of_nat (edge_count d) = Z.of_nat k ∧
            ((1 ≤ k)%nat → adj d 0 1))
    (λ nid neighborhood, add_right neighborhood nid)
    (range 0 (Np - 1)) (<[0 := ∅]> ∅)) as (d & -> & Hu & Hc & H01).
  { split; [done|]. split; [by rewrite Hc0|lia]. }
  { intros k x s [-> Hk]%range_lookup (Hu & Hc & H01).
    destruct (upto_add_right s (Z.of_nat k) _ Hu) as (s' & Hs' & Hp & Hu' & Hc'); [lia|].
    exists s'. rewrite Z.add_0_l. split; [done|]. split; [|split].
    - rewrite Nat2Z.inj_succ. unfold Z.succ.
      eapply upto_weaken; [|exact Hu']. simpl. lia.
    - lia.
    - intros _. apply Hp. destruct k as [|k]; [by right; left|]. left. apply H01. lia. }
  rewrite range_length in *. simpl.
  replace (Z.of_nat (Z.to_nat (Np - 1 - 0))) with (Np - 1) in * by lia.
  destruct b; simpl.
  - destruct (upto_add_both d (Np - 1) _ 0 (Np - 1) Hu) as (d' & -> & Hp & Hu' & Hc'); [lia..|].
    exists d'. split; [done|]. split.
    + eapply upto_weaken; [|exact Hu']. simpl. lia.
    + case_bool_decide as H3.
      * rewrite Hc' by lia. lia.
      * assert (Np = 2) as -> by lia. simpl in *.
        assert (adj d 0 1) as Ha by (apply H01; lia).
        rewrite (edge_count_present d d' 0 1); [lia|done|done|]. by apply Hu.
  - exists d. split; [done|]. split; [|done].
    eapply upto_weaken; [|exact Hu]. simpl. lia.
Qed.

(** ** The first row, common to both grid generators *)

Lemma plus_edge_mono (d d' : dict) (a b x y : Z) :
  plus_edge d d' a b → adj d x y → adj d' x y.
Proof. intros Hp H. apply Hp. by left. Qed.

Lemma first_row_spec (cols : Z) :
  1 ≤ cols →
  ∃ d, first_row cols = Ok (d, cols - 1) ∧
       upto d (cols - 1) (λ x y, Z.abs (x - y) = 1 ∧ 2 ≤ cols) ∧
       Z.of_nat (edge_count d) = cols - 1 ∧
       (2 ≤ cols → adj d 0 1).
Proof.
  intros Hc. unfold first_row.
  destruct (upto_init (λ x y, Z.abs (x - y) = 1 ∧ 2 ≤ cols)) as [Hu0 Hc0].
  match goal with |- ∃ d, foldM ?body ?l ?s = _ ∧ _ =>
    destruct (foldM_inv
      (λ k st, st.2 = Z.of_nat k ∧
               upto st.1 (Z.of_nat k) (λ x y, Z.abs (x - y) = 1 ∧ 2 ≤ cols) ∧
               Z.of_nat (edge_count st.1) = Z.of_nat k ∧
               ((1 ≤ k)%nat → adj st.1 0 1))
      body l s) as ([d i] & -> & Hi & Hu & Hn & H01)
  end.
  { simpl. split; [done|]. split; [done|]. split; [by rewrite Hc0|lia]. }
  { intros k x [d i] [-> Hk]%range_lookup (Hi & Hu & Hn & H01). simpl in *. subst i.
    destruct (upto_add_right d (Z.of_nat k) _ Hu) as (d' & -> & Hp & Hu' & Hn'); [lia|].
    simpl. eexists; split; [done|]. simpl. split; [lia|]. split; [|split; [lia|]].
    - rewrite Nat2Z.inj_succ. unfold Z.succ.
      eapply upto_weaken; [|exact Hu']. simpl. lia.
    - intros _. apply Hp. destruct k as [|k]; [by right; left|]. left. apply H01. lia. }
  rewrite range_length in *. simpl in *.
  replace (Z.of_nat (Z.to_nat (cols - 1 - 0))) with (cols - 1) in * by lia.
  subst i. exists d. split; [done|]. split; [done|]. split; [done|].
  intros H2. apply H01. lia.
Qed.

(** ** The rectangular generator *)

Lemma rect2d_row_spec (cols m : Z) (d : dict) (i q0 : Z) :
  1 ≤ cols → 1 ≤ q0 → i + 1 = q0 * cols →
  upto d i (rect_shape cols (i + 1)) → rect_has cols d i (i + 1) →
  ∃ d', rect2d_row cols m (d, i) = Ok (d', i + cols) ∧
        upto d' (i + cols) (rect_shape cols (i + cols + 1)) ∧
        rect_has cols d' (i + cols) (i + cols + 1) ∧
        Z.of_nat (edge_count d') = Z.of_nat (edge_count d) + 2 * cols - 1.
Proof.
  intros Hc Hq0 Hi0 Hu [HV HH]. unfold rect2d_row.
  assert (cols - 1 ≤ i) as Hi by nia.
  destruct (upto_new_node d i _ Hu) as (Hu1 & _ & Hn1); [lia|].
  assert (∀ x y, adj d x y → adj (<[i + 1 := ∅]> d) x y) as Hmono1.
  { intros x y H. apply new_node_spec; [|done]. rewrite (upto_dom _ _ _ Hu). lia. }
  match goal with |- ∃ d', foldM ?body ?l ?s ≫= _ = _ ∧ _ =>
    destruct (foldM_inv
      (λ k st, st.2 = i + 1 + Z.of_nat k ∧
               upto st.1 st.2 (rect_shape cols st.2) ∧
               rect_has cols st.1 st.2 st.2 ∧
               Z.of_nat (edge_count st.1) = Z.of_nat (edge_count d) + 2 * Z.of_nat k)
      body l s) as ([d2 j] & -> & Hj & Hu2 & [HV2 HH2] & Hn2)
  end.
  { simpl. split; [lia|]. split; [done|]. split; [|lia]. split.
    - intros x Hx Hlt. by apply Hmono1, HV.
    - intros q Hq H2 Hle. apply Hmono1, HH; [done..|].
      simpl in Hle. destruct (decide (q < q0)); nia. }
  { intros k x [e j] [_ Hk]%range_lookup (Hj & Hu2 & [HV2 HH2] & Hn2). simpl in *.
    destruct (upto_add_both e j _ j (j - cols) Hu2) as (e1 & -> & Hp1 & Hu3 & Hn3); [lia..|].
    simpl.
    destruct (upto_add_right e1 j _ Hu3) as (e2 & -> & Hp2 & Hu4 & Hn4); [lia|].
    simpl. eexists; split; [done|]. simpl. split; [lia|]. split; [|split].
    - eapply upto_weaken; [|exact Hu4]. unfold rect_shape. simpl. lia.
    - split.
      + intros x0 Hx0 Hlt. apply (plus_edge_mono _ _ _ _ _ _ Hp2).
        destruct (decide (x0 + cols = j)) as [<-|].
        * apply Hp1. right. right. split; [lia|done].
        * apply (plus_edge_mono _ _ _ _ _ _ Hp1). apply HV2; lia.
      + intros q Hq H2 Hle.
        destruct (decide (q * cols = j)) as [->|].
        * apply Hp2. right. left. done.
        * apply (plus_edge_mono _ _ _ _ _ _ Hp2), (plus_edge_mono _ _ _ _ _ _ Hp1).
          apply HH2; lia.
    - rewrite Hn4, Hn3; [lia|unfold rect_shape; lia..]. }
  rewrite range_length in *. simpl in *.
  replace (Z.of_nat (Z.to_nat (cols - 1 - 0))) with (cols - 1) in * by lia.
  destruct (upto_add_both d2 j _ j (j - cols) Hu2) as (d3 & -> & Hp3 & Hu3 & Hn3); [lia..|].
  simpl. replace (i + cols) with j by lia.
  eexists; split; [done|]. split; [|split].
  - eapply upto_weaken; [|exact Hu3]. unfold rect_shape. simpl. lia.
  - split.
    + intros x0 Hx0 Hlt.
      destruct (decide (x0 + cols = j)) as [<-|].
      * apply Hp3. right. right. split; [lia|done].
      * apply (plus_edge_mono _ _ _ _ _ _ Hp3). apply HV2; lia.
    + intros q Hq H2 Hle. apply (plus_edge_mono _ _ _ _ _ _ Hp3). by apply HH2.
  - rewrite Hn3; [lia|unfold rect_shape; lia..].
Qed.

Lemma rect2d_grid_spec (rows cols : Z) :
  1 ≤ rows → 1 ≤ cols →
  ∃ d i, first_row cols ≫= foldM (rect2d_row cols) (range 1 rows) = Ok (d, i) ∧
         upto d (rows * cols - 1) (rect_shape cols (rows * cols)) ∧
         rect_has cols d (rows * cols - 1) (rows * cols) ∧
         Z.of_nat (edge_count d) = rows * (cols - 1) + cols * (rows - 1).
Proof.
  intros Hr Hc.
  destruct (first_row_spec cols Hc) as (d0 & -> & Hu0 & Hn0 & H01). simpl.
  destruct (foldM_inv
    (λ k st, st.2 = (Z.of_nat k + 1) * cols - 1 ∧
             upto st.1 st.2 (rect_shape cols (st.2 + 1)) ∧
             rect_has cols st.1 st.2 (st.2 + 1) ∧
             Z.of_nat (edge_count st.1) = (cols - 1) + Z.of_nat k * (2 * cols - 1))
    (rect2d_row cols) (range 1 rows) (d0, cols - 1)) as ([d i] & -> & Hi & Hu & Hh & Hn).
  { simpl. split; [lia|]. split; [|split; [|lia]].
    - eapply upto_weaken; [|exact Hu0]. unfold rect_shape. simpl. lia.
    - split.
      + intros x Hx Hlt. lia.
      + intros q Hq H2 Hle. assert (q = 0) as -> by nia. by apply H01. }
  { intros k x [e j] _ (Hj & Hu & Hh & Hn). simpl in Hj, Hu, Hh, Hn.
    destruct (rect2d_row_spec cols x e j (Z.of_nat k + 1))
      as (e' & -> & Hu' & Hh' & Hn'); [lia|lia|lia|done|done|].
    eexists; split; [done|]. simpl. split; [lia|]. split; [done|]. split; [done|]. lia. }
  rewrite range_length in *. simpl in *.
  replace (Z.of_nat (Z.to_nat (rows - 1))) with (rows - 1) in * by lia.
  exists d, i. split; [done|].
  replace (rows * cols - 1) with i by lia.
  replace (rows * cols) with (i + 1) by lia. split; [done|]. split; [done|]. lia.
Qed.

Lemma zip_range_lookup (a b c e : Z) (k : nat) (p : Z * Z) :
  zip (range a b) (range c e) !! k = Some p →
  p = (a + Z.of_nat k, c + Z.of_nat k) ∧ Z.of_nat k < b - a ∧ Z.of_nat k < e - c.
Proof.
  intros (x & y & -> & [-> ?]%range_lookup & [-> ?]%range_lookup)%lookup_zip_with_Some.
  done.
Qed.

(** The wrap adds [cols] vertical edges unless there are only two rows,
    and [rows] side edges unless there are only two columns: an edge
    between two nodes that are grid neighbors already adds nothing. *)
Lemma rect2d_boundary_spec (rows cols : Z) (d : dict) :
  1 ≤ rows → 1 ≤ cols →
  upto d (rows * cols - 1) (rect_shape cols (rows * cols)) →
  rect_has cols d (rows * cols - 1) (rows * cols) →
  ∃ d', rect2d_boundary rows cols d = Ok d' ∧
        upto d' (rows * cols - 1) (torus_shape rows cols) ∧
        (2 ≤ rows → 2 ≤ cols →
         Z.of_nat (edge_count d') =
           Z.of_nat (edge_count d) + (if decide (rows = 2) then 0 else cols)
                                   + (if decide (cols = 2) then 0 else rows)).
Proof.
  intros Hr Hc Hu [HV HH]. unfold rect2d_boundary.
  assert (cols ≤ rows * cols) as Hrc by nia.
  assert (3 ≤ rows → 3 * cols ≤ rows * cols) as Hrc3 by nia.
  assert (2 ≤ rows → 2 * cols ≤ rows * cols) as Hrc2 by nia.
  set (n := rows * cols - 1) in *.
  match goal with |- ∃ d', foldM ?body ?l ?s ≫= _ = _ ∧ _ =>
    destruct (foldM_inv
      (λ k e, upto e n (λ x y, rect_shape cols (rows * cols) x y ∨
                               (Z.abs (x - y) = (rows - 1) * cols ∧ Z.min x y < Z.of_nat k)) ∧
              (∀ x y, adj d x y → adj e x y) ∧
              (2 ≤ rows →
               Z.of_nat (edge_count e) =
                 Z.of_nat (edge_count d) + (if decide (rows = 2) then 0 else Z.of_nat k)))
      body l s) as (d1 & -> & Hu1 & Hm1 & Hn1)
  end.
  { split; [|split; [done|]].
    - eapply upto_weaken; [|exact Hu]. auto.
    - intros _. destruct (decide (rows = 2)); lia. }
  { intros k p e [-> [Hk _]]%zip_range_lookup (Hu1 & Hm1 & Hn1).
    destruct (upto_add_both e n _ (0 + Z.of_nat k) ((rows - 1) * cols + Z.of_nat k) Hu1)
      as (e' & -> & Hp & Hu2 & Hn2); [lia..|].
    eexists; split; [done|]. split; [|split].
    - eapply upto_weaken; [|exact Hu2]. unfold rect_shape. simpl. lia.
    - intros x y H. by apply (plus_edge_mono _ _ _ _ _ _ Hp), Hm1.
    - intros H2. specialize (Hn1 H2).
      destruct (decide (rows = 2)) as [Hr2|Hr2].
      + subst rows.
        assert (adj e (0 + Z.of_nat k) ((2 - 1) * cols + Z.of_nat k)) as Hadj.
        { apply Hm1. replace ((2 - 1) * cols + Z.of_nat k) with (0 + Z.of_nat k + cols) by lia.
          apply HV; lia. }
        rewrite (edge_count_present _ _ _ _ Hp Hadj); [lia|]. by apply Hu1.
      + rewrite Hn2; [lia|unfold rect_shape; lia..]. }
  simpl.
  assert (length (zip (range 0 cols) (range ((rows - 1) * cols) (rows * cols))) = Z.to_nat cols)
    as Hlen.
  { rewrite length_zip_with, !range_length. lia. }
  rewrite Hlen in *. clear Hlen.
  match goal with |- ∃ d', foldM ?body ?l ?s = _ ∧ _ =>
    destruct (foldM_inv
      (λ k e, upto e n (λ x y, (rect_shape cols (rows * cols) x y ∨
                                Z.abs (x - y) = (rows - 1) * cols) ∨
                               (Z.abs (x - y) = cols - 1 ∧ Z.min x y < Z.of_nat k * cols)) ∧
              (∀ x y, adj d x y → adj e x y) ∧
              (2 ≤ rows → 2 ≤ cols →
               Z.of_nat (edge_count e) =
                 Z.of_nat (edge_count d1) + (if decide (cols = 2) then 0 else Z.of_nat k)))
      body l s) as (d2 & -> & Hu2 & Hm2 & Hn2)
  end.
  { split; [|split; [done|]].
    - eapply upto_weaken; [|exact Hu1]. simpl. tauto.
    - intros _ _. destruct (decide (cols = 2)); lia. }
  { intros k m e [-> Hk]%range_lookup (Hu2 & Hm2 & Hn2).
    assert (0 ≤ Z.of_nat k * cols) by nia.
    assert ((Z.of_nat k + 1) * cols ≤ rows * cols) by nia.
    destruct (upto_add_both e n _ ((0 + Z.of_nat k) * cols)
                ((0 + Z.of_nat k) * cols + (cols - 1)) Hu2)
      as (e' & -> & Hp & Hu3 & Hn3); [lia..|].
    eexists; split; [done|]. rewrite Nat2Z.inj_succ. unfold Z.succ. split; [|split].
    - eapply upto_weaken; [|exact Hu3]. unfold rect_shape. cbv beta. lia.
    - intros x y Hxy. by apply (plus_edge_mono _ _ _ _ _ _ Hp), Hm2.
    - intros H2 H2'. specialize (Hn2 H2 H2').
      destruct (decide (cols = 2)) as [Hc2|Hc2].
      + subst cols.
        assert (adj e ((0 + Z.of_nat k) * 2) ((0 + Z.of_nat k) * 2 + (2 - 1))) as Hadj.
        { apply Hm2. replace ((0 + Z.of_nat k) * 2 + (2 - 1)) with (Z.of_nat k * 2 + 1) by lia.
          replace ((0 + Z.of_nat k) * 2) with (Z.of_nat k * 2) by lia.
          apply HH; lia. }
        rewrite (edge_count_present _ _ _ _ Hp Hadj); [lia|]. by apply Hu2.
      + rewrite Hn3; [lia|unfold rect_shape; lia..]. }
  rewrite range_length in *.
  exists d2. split; [done|]. split.
  - eapply upto_weaken; [|exact Hu2]. unfold rect_shape, torus_shape. simpl. lia.
  - intros H2 H2'. rewrite Hn2, Hn1 by done. repeat case_decide; lia.
Qed.

Lemma rect2d_von_neumann_neighborhood_spec (rows cols : Z) (b : bool) :
  1 ≤ rows → 1 ≤ cols →
  ∃ d, rect2d_von_neumann_neighborhood rows cols b = Ok d ∧
       dom d = ids (rows * cols) ∧ symmetric d ∧
       (b = false →
        loop_free d ∧ Z.of_nat (edge_count d) = rows * (cols - 1) + cols * (rows - 1)) ∧
       (b = true → 2 ≤ rows → 2 ≤ cols →
        loop_free d ∧
        Z.of_nat (edge_count d) = (if decide (rows = 2) then cols else rows * cols)
                                  + (if decide (cols = 2) then rows else rows * cols)).
Proof.
  intros Hr Hc. unfold rect2d_von_neumann_neighborhood.
  destruct (rect2d_grid_spec rows cols Hr Hc) as (d & i & Hd & Hu & Hh & Hn).
  apply bind_Ok in Hd as (st & -> & Hd). simpl. rewrite Hd. simpl.
  destruct b.
  - destruct (rect2d_boundary_spec rows cols d Hr Hc Hu Hh) as (d' & -> & Hu' & Hn').
    exists d'. split; [done|]. split; [|split; [apply Hu'|]].
    { rewrite (upto_dom_ids _ _ _ Hu'). f_equal. lia. }
    split; [done|]. intros _ H2 H2'. split.
    + eapply upto_loop_free; [exact Hu'|].
      intros a. unfold torus_shape. nia.
    + rewrite Hn' by done. repeat case_decide; lia.
  - exists d. split; [done|]. split; [|split; [apply Hu|]].
    { rewrite (upto_dom_ids _ _ _ Hu). f_equal. lia. }
    split; [|done]. intros _. split; [|done].
    eapply upto_loop_free; [exact Hu|]. intros a. unfold rect_shape. lia.
Qed.

(** ** The hexagonal generator *)

Lemma upto_add_both_keep (d : dict) (i : Z) (P : Z → Z → Prop) (a b : Z) :
  upto d i P → 0 ≤ a ≤ i → 0 ≤ b ≤ i → P a b → P b a →
  ∃ d', add_both d a b = Ok d' ∧ upto d' i P.
Proof.
  intros Hu Ha Hb Hab Hba.
  destruct (upto_add_both d i P a b Hu Ha Hb) as (d' & Hd' & _ & Hu' & _).
  exists d'. split; [done|]. eapply upto_weaken; [|exact Hu'].
  intros x y _ _ [H|[[-> ->]|[-> ->]]]; done.
Qed.

Lemma upto_add_right_keep (d : dict) (i : Z) (P : Z → Z → Prop) :
  upto d i P → 0 ≤ i → P i (i + 1) → P (i + 1) i →
  ∃ d', add_right d i = Ok d' ∧ upto d' (i + 1) P.
Proof.
  intros Hu Hi Hab Hba.
  destruct (upto_add_right d i P Hu Hi) as (d' & Hd' & _ & Hu' & _).
  exists d'. split; [done|]. eapply upto_weaken; [|exact Hu'].
  intros x y _ _ [H|[[-> ->]|[-> ->]]]; done.
Qed.

Local Ltac step_both Hu :=
  match goal with
  | |- context [add_both ?d ?a ?b] =>
    let d' := fresh "d" in let H := fresh "Hd" in let Hu' := fresh "Hu" in
    destruct (upto_add_both_keep d _ _ a b Hu) as (d' & H & Hu');
    [try (cbv beta; lia); try done ..|rewrite H; clear H; simpl]
  end.

Local Ltac step_right Hu :=
  match goal with
  | |- context [add_right ?d ?a] =>
    let d' := fresh "d" in let H := fresh "Hd" in let Hu' := fresh "Hu" in
    destruct (upto_add_right_keep d a _ Hu) as (d' & H & Hu');
    [try (cbv beta; lia); try done ..|rewrite H; clear H; simpl]
  end.

Lemma hex2d_row_spec (cols m : Z) (d : dict) (i : Z) :
  1 ≤ cols → cols - 1 ≤ i →
  upto d i (λ x y, x ≠ y) →
  ∃ d' i', hex2d_row cols m (d, i) = Ok (d', i') ∧
           upto d' i' (λ x y, x ≠ y) ∧
           i + cols ≤ i' ∧ (2 ≤ cols → i' = i + cols).
Proof.
  intros Hc Hi Hu. unfold hex2d_row.
  destruct (upto_new_node d i _ Hu) as (Hu1 & _ & _); [lia|].
  pose proof (Z.mod_pos_bound m 2) as Hm.
  destruct (decide (m mod 2 = 1)) as [Hodd|Hodd];
    destruct (decide (m mod 2 = 0)) as [Hev|Hev]; try lia.
  - (* odd row *)
    simpl.
    match goal with |- ∃ d' i', foldM ?body ?l ?s ≫= _ = _ ∧ _ =>
      destruct (foldM_inv
        (λ k st, st.2 = i + 1 + Z.of_nat k ∧ upto st.1 st.2 (λ x y, x ≠ y))
        body l s) as ([d2 j] & -> & Hj & Hu2)
    end.
    { simpl. split; [lia|done]. }
    { intros k x [e j] [_ Hk]%range_lookup [Hj Hu2]. simpl in Hj, Hu2.
      step_both Hu2. step_both Hu0. step_right Hu3.
      eexists; split; [done|]. simpl. split; [lia|done]. }
    rewrite range_length in *. simpl in Hj, Hu2. simpl.
    step_both Hu2.
    exists d0, j. split; [done|]. split; [done|]. lia.
  - (* even row *)
    simpl.
    step_both Hu1. step_right Hu0.
    match goal with |- ∃ d' i', foldM ?body ?l ?s ≫= _ = _ ∧ _ =>
      destruct (foldM_inv
        (λ k st, st.2 = i + 2 + Z.of_nat k ∧ upto st.1 st.2 (λ x y, x ≠ y))
        body l s) as ([d2 j] & -> & Hj & Hu3)
    end.
    { simpl. split; [lia|done]. }
    { intros k x [e j] [_ Hk]%range_lookup [Hj Hu3]. simpl in Hj, Hu3.
      step_both Hu3. step_both Hu4. step_right Hu5.
      eexists; split; [done|]. simpl. split; [lia|done]. }
    rewrite range_length in *. simpl in Hj, Hu3. simpl.
    step_both Hu3. step_both Hu4.
    exists d4, j. split; [done|]. split; [done|]. lia.
Qed.

Lemma hex2d_grid_spec (rows cols : Z) :
  1 ≤ rows → 1 ≤ cols →
  ∃ d i, first_row cols ≫= foldM (hex2d_row cols) (range 1 rows) = Ok (d, i) ∧
         upto d i (λ x y, x ≠ y) ∧
         rows * cols - 1 ≤ i ∧ (2 ≤ cols → i = rows * cols - 1).
Proof.
  intros Hr Hc.
  destruct (first_row_spec cols Hc) as (d0 & -> & Hu0 & _). simpl.
  destruct (foldM_inv
    (λ k st, upto st.1 st.2 (λ x y, x ≠ y) ∧
             (Z.of_nat k + 1) * cols - 1 ≤ st.2 ∧
             (2 ≤ cols → st.2 = (Z.of_nat k + 1) * cols - 1))
    (hex2d_row cols) (range 1 rows) (d0, cols - 1)) as ([d i] & -> & Hu & Hi & Hi').
  { simpl. split; [|lia]. eapply upto_weaken; [|exact Hu0]. simpl. lia. }
  { intros k x [e j] _ (Hu & Hj & Hj'). simpl in Hj, Hj', Hu.
    destruct (hex2d_row_spec cols x e j) as (e' & j' & -> & Hu' & Hle & Heq); [lia|nia|done|].
    eexists; split; [done|]. simpl. split; [done|]. lia. }
  rewrite range_length in *. simpl in Hu, Hi, Hi'.
  replace (Z.of_nat (Z.to_nat (rows - 1))) with (rows - 1) in * by lia.
  exists d, i. split; [done|]. split; [done|]. lia.
Qed.

Lemma list_getitem_range (a b k : Z) :
  - (b - a) ≤ k < b - a →
  list_getitem (range a b) k = Ok (a + (if decide (k < 0) then k + (b - a) else k)).
Proof.
  intros Hk. unfold list_getitem. rewrite range_length.
  replace (Z.of_nat (Z.to_nat (b - a))) with (b - a) by lia.
  destruct (decide (k < 0)).
  - rewrite decide_False by lia.
    rewrite (proj2 (range_lookup a b _ (a + (k + (b - a))))); [done|lia].
  - rewrite decide_False by lia.
    rewrite (proj2 (range_lookup a b _ (a + k))); [done|lia].
Qed.

Lemma enumerate_range_lookup (a b : Z) (k : nat) (p : Z * Z) :
  enumerate (range a b) !! k = Some p →
  p = (Z.of_nat k, a + Z.of_nat k) ∧ Z.of_nat k < b - a.
Proof.
  unfold enumerate.
  intros (x & y & -> & [-> ?]%lookup_seqZ & [-> ?]%range_lookup)%lookup_zip_with_Some.
  split; [f_equal; lia|done].
Qed.

Lemma hex2d_boundary_odd (rows cols : Z) (d : dict) :
  rows mod 2 ≠ 0 →
  hex2d_boundary rows cols d = Raise (Exception (Odd_number_of_rows rows)).
Proof. intros H. unfold hex2d_boundary. by rewrite decide_True. Qed.

Lemma hex2d_boundary_spec (rows cols : Z) (d : dict) (i : Z) :
  1 ≤ rows → 1 ≤ cols → rows mod 2 = 0 → rows * cols - 1 ≤ i →
  upto d i (λ x y, 2 ≤ cols → x ≠ y) →
  ∃ d', hex2d_boundary rows cols d = Ok d' ∧ upto d' i (λ x y, 2 ≤ cols → x ≠ y).
Proof.
  intros Hr Hc Hev Hi Hu. unfold hex2d_boundary.
  rewrite decide_False by (intros ?; done).
  assert (2 ≤ rows) as Hr2.
  { destruct (decide (rows = 1)) as [->|]; [done|lia]. }
  assert (cols ≤ (rows - 1) * cols) as Hrc by nia.
  match goal with |- ∃ d', foldM ?body ?l ?s ≫= _ = _ ∧ _ =>
    destruct (foldM_inv (λ (_ : nat) e, upto e i (λ x y, 2 ≤ cols → x ≠ y))
      body l s) as (d1 & -> & Hu1)
  end.
  { done. }
  { intros k p e [-> Hk]%enumerate_range_lookup Hu1.
    rewrite !list_getitem_range by lia. simpl.
    destruct (decide (Z.of_nat k - 1 < 0)); rewrite decide_False by lia;
      step_both Hu1; step_both Hu0; eauto. }
  simpl.
  step_both Hu1.
  match goal with |- ∃ d', foldM ?body ?l ?s = _ ∧ _ =>
    destruct (foldM_inv (λ (_ : nat) e, upto e i (λ x y, 2 ≤ cols → x ≠ y))
      body l s) as (d2 & -> & Hu2)
  end.
  { done. }
  { intros k m e [-> Hk]%range_lookup Hu2.
    assert (0 ≤ Z.of_nat k * cols) by nia.
    assert ((Z.of_nat k + 2) * cols ≤ rows * cols) by nia.
    step_both Hu2.
    destruct (decide ((1 + Z.of_nat k) mod 2 = 1)); step_both Hu3; eauto. }
  eauto.
Qed.

Lemma hex2d_neighborhood_spec (rows cols : Z) (b : bool) :
  1 ≤ rows → 1 ≤ cols → (b = true → rows mod 2 = 0) →
  ∃ d, hex2d_neighborhood rows cols b = Ok d ∧
       symmetric d ∧
       ids (rows * cols) ⊆ dom d ∧
       (2 ≤ cols → dom d = ids (rows * cols)) ∧
       (2 ≤ cols ∨ b = false → loop_free d).
Proof.
  intros Hr Hc Hb. unfold hex2d_neighborhood.
  destruct (hex2d_grid_spec rows cols Hr Hc) as (d & i & Hd & Hu & Hi & Hi').
  apply bind_Ok in Hd as (st & -> & Hd). simpl. rewrite Hd. simpl.
  assert (∀ e, upto e i (λ x y, 2 ≤ cols → x ≠ y) →
               ids (rows * cols) ⊆ dom e ∧ (2 ≤ cols → dom e = ids (rows * cols)) ∧
               (2 ≤ cols → loop_free e)) as Hfin.
  { intros e He. split; [|split].
    - intros k. rewrite elem_of_ids, (upto_dom e i _ He). lia.
    - intros H2. rewrite (upto_dom_ids _ _ _ He). f_equal. lia.
    - intros H2. eapply upto_loop_free; [exact He|]. cbv beta. lia. }
  destruct b.
  - destruct (hex2d_boundary_spec rows cols d i) as (d' & -> & Hu'); [done|done|auto|done|..].
    { eapply upto_weaken; [|exact Hu]. auto. }
    exists d'. split; [done|]. split; [apply Hu'|].
    destruct (Hfin d' Hu') as (? & ? & ?). split; [done|]. split; [done|].
    intros [?|?]; [auto|done].
  - exists d. split; [done|]. split; [apply Hu|].
    destruct (Hfin d) as (? & ? & ?).
    { eapply upto_weaken; [|exact Hu]. auto. }
    split; [done|]. split; [done|]. intros _.
    eapply upto_loop_free; [exact Hu|]. cbv beta. lia.
Qed.

Lemma hex2d_neighborhood_odd (rows cols : Z) :
  1 ≤ rows → 1 ≤ cols → rows mod 2 ≠ 0 →
  hex2d_neighborhood rows cols true = Raise (Exception (Odd_number_of_rows rows)).
Proof.
  intros Hr Hc Hodd. unfold hex2d_neighborhood.
  destruct (hex2d_grid_spec rows cols Hr Hc) as (d & i & Hd & _).
  apply bind_Ok in Hd as (st & -> & Hd). simpl. rewrite Hd. simpl.
  by apply hex2d_boundary_odd.
Qed.

(** ** Mutations of the class *)

Lemma elem_of_get_neighbors (g : PairwiseNeighborhood) (a b : Z) :
  b ∈ get_neighbors g a ↔ adj (neighborhood g) a b.
Proof.
  unfold get_neighbors, adj. destruct (neighborhood g !! a) as [s|]; [naive_solver|].
  split; [set_solver|]. by intros (? & ? & ?).
Qed.

Lemma symmetric_new_node (d : dict) (k : Z) :
  k ∉ dom d → symmetric d → symmetric (<[k := ∅]> d).
Proof.
  intros Hk Hs a b. destruct (new_node_spec d k Hk) as [_ Hadj]. rewrite !Hadj. apply Hs.
Qed.

Lemma add_node_spec (g : PairwiseNeighborhood) (nid : Z) (meta : pyobj) :
  nid ∉ dom (neighborhood g) →
  add_node g nid meta =
    Ok {| neighborhood := <[nid := ∅]> (neighborhood g);
          node_metadata := if truthy meta then <[nid := meta]> (node_metadata g)
                           else node_metadata g;
          interaction_metadata := interaction_metadata g |}.
Proof.
  intros Hn. unfold add_node. rewrite decide_False by done. by destruct (truthy meta).
Qed.

Lemma add_node_Ok (g g' : PairwiseNeighborhood) (nid : Z) (meta : pyobj) :
  add_node g nid meta = Ok g' → nid ∉ dom (neighborhood g).
Proof. unfold add_node. by case_decide. Qed.

Lemma ensure_node_dom (d : dict) (nid : Z) : dom (ensure_node d nid) = dom d ∪ {[nid]}.
Proof.
  unfold ensure_node. case_decide as H.
  - rewrite dom_insert_L. set_solver.
  - set_solver.
Qed.

Lemma ensure_node_adj (d : dict) (nid : Z) (x y : Z) :
  adj (ensure_node d nid) x y ↔ adj d x y.
Proof.
  unfold ensure_node. case_decide as H; [|done]. by apply new_node_spec.
Qed.

Lemma add_interaction_spec (g : PairwiseNeighborhood) (nid1 nid2 : Z) (meta : pyobj) :
  ∃ d, add_both (ensure_node (ensure_node (neighborhood g) nid1) nid2) nid1 nid2 = Ok d ∧
       plus_edge (neighborhood g) d nid1 nid2 ∧
       dom d = dom (neighborhood g) ∪ {[nid1; nid2]} ∧
       add_interaction g nid1 nid2 meta =
         Ok {| neighborhood := d;
               node_metadata := node_metadata g;
               interaction_metadata :=
                 if truthy meta
                 then <[(nid2, nid1) := meta]> (<[(nid1, nid2) := meta]> (interaction_metadata g))
                 else interaction_metadata g |}.
Proof.
  set (d2 := ensure_node (ensure_node (neighborhood g) nid1) nid2).
  assert (dom d2 = dom (neighborhood g) ∪ {[nid1; nid2]}) as Hdom.
  { unfold d2. rewrite !ensure_node_dom. set_solver. }
  destruct (add_both_spec d2 nid1 nid2) as (d & Hd & Hdd & Hp); [set_solver..|].
  exists d. split; [done|]. split; [|split; [congruence|]].
  { intros x y. rewrite (Hp x y). unfold d2. by rewrite !ensure_node_adj. }
  unfold add_both in Hd. unfold add_interaction, d2, ensure_node in *.
  destruct (decide (nid1 ∉ dom (neighborhood g))) as [H1|H1].
  - rewrite (add_node_spec g nid1 PyNone H1). simpl.
    destruct (decide (nid2 ∉ dom (<[nid1:=∅]> (neighborhood g)))) as [H2|H2].
    + rewrite add_node_spec by done. simpl in *.
      apply bind_Ok in Hd as (d1 & -> & Hd). simpl. rewrite Hd. simpl.
      by destruct (truthy meta).
    + simpl in *. apply bind_Ok in Hd as (d1 & -> & Hd). simpl. rewrite Hd. simpl.
      by destruct (truthy meta).
  - simpl. destruct (decide (nid2 ∉ dom (neighborhood g))) as [H2|H2].
    + rewrite add_node_spec by done. simpl in *.
      apply bind_Ok in Hd as (d1 & -> & Hd). simpl. rewrite Hd. simpl.
      by destruct (truthy meta).
    + simpl in *. apply bind_Ok in Hd as (d1 & -> & Hd). simpl. rewrite Hd. simpl.
      by destruct (truthy meta).
Qed.

Lemma dict_remove_spec (d d' : dict) (k x : Z) :
  dict_remove d k x = Ok d' →
  adj d k x ∧ dom d' = dom d ∧ ∀ a b, adj d' a b ↔ adj d a b ∧ ¬ (a = k ∧ b = x).
Proof.
  unfold dict_remove. destruct (d !! k) as [s|] eqn:Hs; [|done].
  case_decide as Hx; [|done]. intros [= <-]. split; [|split].
  - exists s. done.
  - rewrite dom_insert_L. apply elem_of_dom_2 in Hs. set_solver.
  - intros a b. rewrite adj_insert. unfold adj.
    destruct (decide (a = k)) as [->|]; [|naive_solver].
    rewrite Hs. split.
    + intros [[_ [? ?%not_elem_of_singleton]%elem_of_difference]|[? _]]; [|done].
      split; [eauto|]. intros [_ ?]. done.
    + intros [(s' & [= <-] & Hb) Hne]. left. split; [done|].
      apply elem_of_difference. split; [done|]. rewrite elem_of_singleton. naive_solver.
Qed.

Lemma adj_delete (d : dict) (k a b : Z) : adj (delete k d) a b ↔ a ≠ k ∧ adj d a b.
Proof.
  unfold adj. destruct (decide (a = k)) as [->|Hne].
  - rewrite lookup_delete_eq. naive_solver.
  - rewrite lookup_delete_ne by done. naive_solver.
Qed.

Lemma remove_interaction_spec (g g' : PairwiseNeighborhood) (nid1 nid2 : Z) :
  remove_interaction g nid1 nid2 = Ok g' →
  adj (neighborhood g) nid1 nid2 ∧
  dom (neighborhood g') = dom (neighborhood g) ∧
  (∀ x y, adj (neighborhood g') x y ↔
          adj (neighborhood g) x y ∧ ¬ (x = nid1 ∧ y = nid2) ∧ ¬ (x = nid2 ∧ y = nid1)) ∧
  node_metadata g' = node_metadata g ∧
  interaction_metadata g' = delete (nid2, nid1) (delete (nid1, nid2) (interaction_metadata g)).
Proof.
  unfold remove_interaction. repeat case_decide; try done.
  intros (d1 & H1 & (d2 & H2 & [= <-])%bind_Ok)%bind_Ok. simpl.
  apply dict_remove_spec in H1 as (Ha & Hd1 & Hadj1).
  apply dict_remove_spec in H2 as (_ & Hd2 & Hadj2).
  split; [done|]. split; [congruence|]. split; [|done].
  intros x y. rewrite Hadj2, Hadj1. tauto.
Qed.

Lemma remove_node_fold (nid : Z) (l : list Z) (nb nb' : dict) (im im' : gmap (Z * Z) pyobj) :
  foldM (remove_node_step nid) l (nb, im) = Ok (nb', im') →
  (nid ∉ l) ∧ dom nb' = dom nb ∧
  (∀ a b, adj nb' a b ↔ adj nb a b ∧ ¬ (a ∈ l ∧ b = nid)) ∧
  (∀ o, o ∈ l → im' !! (nid, o) = None ∧ im' !! (o, nid) = None) ∧
  (∀ p, im !! p = None → im' !! p = None).
Proof.
  revert nb im. induction l as [|o l IH]; intros nb im; simpl.
  - intros [= <- <-]. split; [set_solver|]. split; [done|]. split; [|split; [|done]].
    + intros a b. set_solver.
    + intros o Ho. set_solver.
  - intros ([nb1 im1] & H1 & H2)%bind_Ok.
    unfold remove_node_step in H1.
    apply bind_Ok in H1 as (nb2 & Hrm & H1).
    case_decide as Hne; [done|]. injection H1 as <- <-.
    apply dict_remove_spec in Hrm as (_ & Hd & Hadj).
    apply IH in H2 as (Hnl & Hd' & Hadj' & Him & Hmono).
    split; [set_solver|]. split; [congruence|]. split; [|split].
    + intros a b. rewrite Hadj', Hadj. set_solver.
    + intros o' [->|Ho']%elem_of_cons; [|by apply Him].
      split; apply Hmono.
      * destruct (decide ((o, nid) = (nid, o))) as [Heq|Hneq].
        { rewrite Heq. apply lookup_delete_eq. }
        rewrite lookup_delete_ne by done. apply lookup_delete_eq.
      * apply lookup_delete_eq.
    + intros p Hp. apply Hmono.
      rewrite lookup_delete_None. right. rewrite lookup_delete_None. by right.
Qed.

Lemma remove_node_spec (g g' : PairwiseNeighborhood) (nid : Z) :
  remove_node g nid = Ok g' →
  nid ∈ dom (neighborhood g) ∧ (nid ∉ get_neighbors g nid) ∧
  dom (neighborhood g') = dom (neighborhood g) ∖ {[nid]} ∧
  (∀ a b, adj (neighborhood g') a b ↔
          adj (neighborhood g) a b ∧ a ≠ nid ∧ ¬ (a ∈ get_neighbors g nid ∧ b = nid)) ∧
  node_metadata g' = delete nid (node_metadata g) ∧
  (∀ o, o ∈ get_neighbors g nid →
        interaction_metadata g' !! (nid, o) = None ∧
        interaction_metadata g' !! (o, nid) = None) ∧
  (∀ p, interaction_metadata g !! p = None → interaction_metadata g' !! p = None).
Proof.
  unfold remove_node, get_neighbors.
  destruct (neighborhood g !! nid) as [s|] eqn:Hs; [|done].
  intros ([nb im] & Hf & [= <-])%bind_Ok. simpl.
  apply remove_node_fold in Hf as (Hnl & Hd & Hadj & Him & Hmono).
  split; [by apply elem_of_dom_2 in Hs|].
  split; [by rewrite elem_of_elements in Hnl|].
  split; [by rewrite dom_delete_L, Hd|]. split; [|split; [done|split; [|done]]].
  - intros a b. rewrite adj_delete, Hadj. rewrite elem_of_elements. tauto.
  - intros o Ho. apply Him. by apply elem_of_elements.
Qed.

Lemma remove_node_symmetric (g g' : PairwiseNeighborhood) (nid : Z) :
  remove_node g nid = Ok g' → symmetric (neighborhood g) →
  ∀ a b, adj (neighborhood g') a b ↔ adj (neighborhood g) a b ∧ a ≠ nid ∧ b ≠ nid.
Proof.
  intros (_ & _ & _ & Hadj & _)%remove_node_spec Hs a b. rewrite Hadj.
  split; [|tauto]. intros (H & Ha & Hn). split; [done|]. split; [done|].
  intros ->. apply Hn. split; [|done]. by apply elem_of_get_neighbors, Hs.
Qed.

(** ** Which exceptions the generators can raise *)

Lemma Ok_not_Exception {A} (a : A) : not_Exception (Ok a).
Proof. by intros msg. Qed.

Lemma bind_not_Exception {A B} (r : result A) (f : A → result B) :
  not_Exception r → (∀ a, not_Exception (f a)) → not_Exception (r ≫= f).
Proof.
  intros Hr Hf msg. destruct r as [a|e]; simpl; [apply Hf|].
  intros [= ->]. by apply (Hr msg).
Qed.

Lemma foldM_not_Exception {A St} (body : A → St → result St) (l : list A) (s : St) :
  (∀ x s, not_Exception (body x s)) → not_Exception (foldM body l s).
Proof.
  intros Hb. revert s. induction l as [|x l IH]; intros s; simpl.
  - apply Ok_not_Exception.
  - apply bind_not_Exception; [apply Hb|apply IH].
Qed.

Lemma dict_add_not_Exception (d : dict) (k x : Z) : not_Exception (dict_add d k x).
Proof. intros msg. unfold dict_add. by destruct (d !! k). Qed.

Lemma add_both_not_Exception (d : dict) (a b : Z) : not_Exception (add_both d a b).
Proof.
  apply bind_not_Exception; [|intros ?]; apply dict_add_not_Exception.
Qed.

Lemma add_right_not_Exception (d : dict) (i : Z) : not_Exception (add_right d i).
Proof.
  apply bind_not_Exception; [apply dict_add_not_Exception|intros ?; apply Ok_not_Exception].
Qed.

Lemma list_getitem_not_Exception (l : list Z) (k : Z) : not_Exception (list_getitem l k).
Proof.
  intros msg. unfold list_getitem. case_decide; [done|].
  by destruct (l !! _).
Qed.

Local Ltac no_exception :=
  repeat first
    [ apply Ok_not_Exception
    | apply add_both_not_Exception
    | apply add_right_not_Exception
    | apply list_getitem_not_Exception
    | apply bind_not_Exception; [|intros ?]
    | apply foldM_not_Exception; intros ? ?
    | match goal with
      | |- context [let '(_, _) := ?p in _] => destruct p
      | |- context [match ?p with (_, _) => _ end] => destruct p
      end
    | case_decide ].

Lemma first_row_not_Exception (cols : Z) : not_Exception (first_row cols).
Proof. unfold first_row. no_exception. Qed.

Lemma hex2d_row_not_Exception (cols m : Z) (st : dict * Z) :
  not_Exception (hex2d_row cols m st).
Proof. unfold hex2d_row. destruct st. no_exception. Qed.

Lemma hex2d_neighborhood_even (rows cols : Z) (b : bool) :
  rows mod 2 = 0 → not_Exception (hex2d_neighborhood rows cols b).
Proof.
  intros Hev. unfold hex2d_neighborhood.
  apply bind_not_Exception; [apply first_row_not_Exception|intros st].
  apply bind_not_Exception.
  { apply foldM_not_Exception. intros ??. apply hex2d_row_not_Exception. }
  intros [d i]. destruct b; [|apply Ok_not_Exception].
  unfold hex2d_boundary. rewrite decide_False by (intros ?; done). no_exception.
Qed.

(** ** Checking symmetry of a concrete graph *)

Lemma symmetric_arcs (d : dict) :
  symmetric d ↔ set_Forall (λ p, (p.2, p.1) ∈ arcs d) (arcs d).
Proof.
  split.
  - intros Hs [a b] H. simpl. apply elem_of_arcs, Hs, elem_of_arcs, H.
  - intros Hf a b H%elem_of_arcs. apply elem_of_arcs. apply (Hf (a, b) H).
Qed.

Lemma symmetricb_spec (d : dict) : symmetricb d = true → symmetric d.
Proof. intros H%bool_decide_eq_true. by apply symmetric_arcs. Qed.

(** ** Symmetry of the graphs a caller can hold *)

Lemma generated_symmetric (g : PairwiseNeighborhood) :
  generated g → symmetric (neighborhood g).
Proof.
  destruct 1 as [dflt Np b g HN Hg|dflt rows cols b g Hr Hc Hg|dflt rows cols b g Hr Hc Hg].
  - destruct (linear_neighborhood_spec Np b HN) as (d & Hd & Hu & _).
    unfold linear_to_pairwise_neighborhood in Hg. rewrite Hd in Hg.
    injection Hg as <-. apply Hu.
  - destruct (rect2d_von_neumann_neighborhood_spec rows cols b Hr Hc) as (d & Hd & _ & Hs & _).
    unfold rect2d_to_pairwise_von_neumann_neighborhood in Hg. rewrite Hd in Hg.
    by injection Hg as <-.
  - unfold hex2d_to_pairwise_neighborhood in Hg.
    destruct (decide (b = true ∧ rows mod 2 ≠ 0)) as [[-> Hodd]|Hev].
    { by rewrite hex2d_neighborhood_odd in Hg. }
    destruct (hex2d_neighborhood_spec rows cols b Hr Hc) as (d & Hd & Hs & _).
    { intros ->. destruct (decide (rows mod 2 = 0)); [done|]. exfalso. by apply Hev. }
    rewrite Hd in Hg. by injection Hg as <-.
Qed.

Lemma evolved_symmetric (g : PairwiseNeighborhood) :
  evolved g → symmetric (neighborhood g).
Proof.
  induction 1 as [g Hg|g g' nid meta _ IH Hg|g g' nid meta _ IH Hg
                 |g g' nid1 nid2 meta _ IH Hg|g g' nid1 nid2 meta _ IH Hg
                 |g g' nid1 nid2 _ IH Hg|g g' nid _ IH Hg].
  - by apply generated_symmetric.
  - pose proof (add_node_Ok _ _ _ _ Hg) as Hn.
    rewrite (add_node_spec _ _ _ Hn) in Hg. injection Hg as <-. simpl.
    by apply symmetric_new_node.
  - unfold add_node_metadata in Hg. case_decide; [done|]. by injection Hg as <-.
  - destruct (add_interaction_spec g nid1 nid2 meta) as (d & _ & Hp & _ & Heq).
    rewrite Heq in Hg. injection Hg as <-. simpl. by eapply plus_edge_symmetric.
  - unfold add_interaction_metadata in Hg. repeat case_decide; try done.
    by injection Hg as <-.
  - apply remove_interaction_spec in Hg as (_ & _ & Hadj & _).
    intros a b. rewrite !Hadj. intros (H & ? & ?). split; [by apply IH|tauto].
  - intros a b. rewrite !(remove_node_symmetric _ _ _ Hg IH).
    intros (H & ? & ?). split; [by apply IH|tauto].
Qed.

(** ** C1: the symmetry invariant *)

(** X21.  In every graph returned by the linear, rectangular or hexagonal
    generator on valid parameters, and in every graph obtained from one by
    calls of [add_node], [add_interaction], [remove_interaction] and
    [remove_node] (and of the two metadata setters) that returned,
    [b] is a neighbor of [a] exactly when [a] is a neighbor of [b]. *)
Theorem symmetry_invariant (g : PairwiseNeighborhood) :
  evolved g → ∀ a b, b ∈ get_neighbors g a ↔ a ∈ get_neighbors g b.
Proof.
  intros Hs%evolved_symmetric a b. rewrite !elem_of_get_neighbors.
  split; apply Hs.
Qed.

Lemma ring3_evolved_evolved : evolved ring3_evolved.
Proof.
  eapply (evolved_add_interaction _ _ 0 7 (PyInt 5)).
  - eapply (evolved_remove_node _ _ 1).
    + apply evolved_generated. eapply (generated_linear fresh_defaults 3 true); [lia|].
      vm_compute. reflexivity.
    + vm_compute. reflexivity.
  - vm_compute. reflexivity.
Defined.

Lemma symmetry_invariant_witness :
  evolved ring3_evolved ∧
  ∀ a b, b ∈ get_neighbors ring3_evolved a ↔ a ∈ get_neighbors ring3_evolved b.
Proof.
  split; [exact ring3_evolved_evolved|].
  apply (symmetry_invariant ring3_evolved). exact ring3_evolved_evolved.
Defined.

(** [remove_node_in_place] and [remove_node] are the same method: visiting
    the neighbors in the order of [elements], the call returns in the one
    exactly when it returns in the other, with the same object, and
    raises the same exception otherwise. *)
Lemma remove_node_loop_fold (nid : Z) (l : list Z) (self : PairwiseNeighborhood) :
  foldM (remove_node_step nid) l (neighborhood self, interaction_metadata self)
  = match remove_node_loop nid l self with
    | (self', None) => Ok (neighborhood self', interaction_metadata self')
    | (_, Some e) => Raise e
    end
  ∧ node_metadata (remove_node_loop nid l self).1 = node_metadata self.
Proof.
  revert self. induction l as [|o l IH]; intros self; [done|].
  simpl. destruct (dict_remove (neighborhood self) o nid) as [nb|e]; [|done].
  simpl. destruct (decide (o = nid)) as [->|Hne]; [done|].
  destruct (IH (with_interaction_metadata (with_neighborhood self nb)
                  (delete (o, nid) (delete (nid, o) (interaction_metadata self)))))
    as [Hfold Hnm].
  split; [exact Hfold|exact Hnm].
Qed.

Lemma remove_node_in_place_elements (self : PairwiseNeighborhood) (nid : Z) :
  remove_node self nid
  = match remove_node_in_place (elements (get_neighbors self nid)) self nid with
    | (self', None) => Ok self'
    | (_, Some e) => Raise e
    end.
Proof.
  unfold remove_node, remove_node_in_place, get_neighbors.
  destruct (neighborhood self !! nid) as [s|]; [|done].
  destruct (remove_node_loop_fold nid (elements s) self) as [-> Hnm].
  destruct (remove_node_loop nid (elements s) self) as [self' [e|]]; [done|].
  simpl in *. by rewrite Hnm.
Qed.

(** C1 at [rows = 1], [cols = 2] with boundary adjustment, followed by
    [remove_node(1)]: the generator returns the graph [{0: {0, 1}, 1: {0,
    1}}], which is symmetric and has the node 1.  The call [remove_node(1)]
    visits the neighbors 0 and 1 of node 1: it takes 1 out of the neighbor
    set of node 0, then takes 1 out of the set it is iterating over, and
    raises [RuntimeError].  The caller's object is then [{0: {0}, 1:
    {0}}]: 0 is a neighbor of 1 and 1 is no neighbor of 0. *)
Theorem symmetry_lost_by_remove_node :
  rect2d_to_pairwise_von_neumann_neighborhood fresh_defaults 1 2 true = Ok row2_wrapped ∧
  symmetric (neighborhood row2_wrapped) ∧
  1 ∈ dom (neighborhood row2_wrapped) ∧
  get_neighbors row2_wrapped 1 = {[0; 1]} ∧
  remove_node_in_place [0; 1] row2_wrapped 1 = (row2_half_removed, Some RuntimeError) ∧
  0 ∈ get_neighbors row2_half_removed 1 ∧
  (1 ∉ get_neighbors row2_half_removed 0) ∧
  ¬ symmetric (neighborhood row2_half_removed).
Proof.
  split; [vm_compute; reflexivity|].
  split; [apply symmetricb_spec; vm_compute; reflexivity|].
  split; [apply (bool_decide_unpack _); vm_compute; exact I|].
  split; [vm_compute; reflexivity|].
  split; [vm_compute; reflexivity|].
  assert (0 ∈ get_neighbors row2_half_removed 1) as H01.
  { apply (bool_decide_unpack _). vm_compute. exact I. }
  assert (1 ∉ get_neighbors row2_half_removed 0) as H10.
  { apply (bool_decide_unpack _). vm_compute. exact I. }
  split; [exact H01|]. split; [exact H10|].
  intros Hs. apply H10. rewrite elem_of_get_neighbors. apply Hs.
  by rewrite <- elem_of_get_neighbors.
Qed.

(** ** C2: removal cascade *)

Lemma remove_node_fold_total (nid : Z) (l : list Z) (nb : dict) (im : gmap (Z * Z) pyobj) :
  NoDup l → nid ∉ l → (∀ o, o ∈ l → adj nb o nid) →
  ∃ st, foldM (remove_node_step nid) l (nb, im) = Ok st.
Proof.
  revert nb im. induction l as [|o l IH]; intros nb im Hnd Hnl Hadj; simpl; [eauto|].
  apply list.NoDup_cons in Hnd as [Hol Hnd].
  destruct (Hadj o) as (s & Hs & Hin); [set_solver|].
  unfold remove_node_step at 1, dict_remove. rewrite Hs.
  rewrite decide_True by done. simpl. rewrite decide_False by set_solver. simpl.
  apply IH; [done|set_solver|].
  intros o' Ho'. rewrite adj_insert. destruct (decide (o' = o)) as [->|]; [done|].
  right. split; [done|]. apply Hadj. set_solver.
Qed.

(** [remove_node] returns on every node of a symmetric graph that is not
    its own neighbor. *)
Lemma remove_node_total (g : PairwiseNeighborhood) (x : Z) :
  symmetric (neighborhood g) → x ∈ dom (neighborhood g) → x ∉ get_neighbors g x →
  ∃ g', remove_node g x = Ok g'.
Proof.
  intros Hs [s Hx]%elem_of_dom Hloop. unfold remove_node, get_neighbors in *.
  rewrite Hx in *.
  destruct (remove_node_fold_total x (elements s) (neighborhood g) (interaction_metadata g))
    as ([nb im] & ->).
  - apply NoDup_elements.
  - by rewrite elem_of_elements.
  - intros o Ho%elem_of_elements. apply Hs. by exists s.
  - simpl. eauto.
Qed.

(** C2, as the code has it.  On a symmetric graph, a call [remove_node(x)]
    returns whenever [x] is a node that is not its own neighbor, and after
    it returned [x] is no node, [x] is in no neighbor set, [x] has no node
    metadata, and no edge metadata is left under [(x, y)] or [(y, x)] for
    any [y] that was a neighbor of [x]. *)
Theorem removal_cascade (g : PairwiseNeighborhood) (x : Z) :
  symmetric (neighborhood g) →
  (x ∈ dom (neighborhood g) → x ∉ get_neighbors g x → ∃ g', remove_node g x = Ok g') ∧
  ∀ g', remove_node g x = Ok g' →
    (x ∉ dom (neighborhood g')) ∧
    (∀ y, x ∉ get_neighbors g' y) ∧
    node_metadata g' !! x = None ∧
    get_node_metadata g' x = PyNone ∧
    (∀ y, y ∈ get_neighbors g x →
          interaction_metadata g' !! (x, y) = None ∧
          interaction_metadata g' !! (y, x) = None).
Proof.
  intros Hs. split; [by apply remove_node_total|].
  intros g' Hrm. pose proof (remove_node_symmetric g g' x Hrm Hs) as Hadj.
  apply remove_node_spec in Hrm as (_ & _ & Hd & _ & Hnm & Him & _).
  split; [rewrite Hd; set_solver|]. split; [|split; [|split; [|done]]].
  - intros y. rewrite elem_of_get_neighbors, Hadj. tauto.
  - rewrite Hnm. apply lookup_delete_eq.
  - unfold get_node_metadata. rewrite Hnm. by rewrite lookup_delete_eq.
Qed.

Lemma removal_cascade_witness :
  symmetric (neighborhood path3_meta) ∧
  ∃ g', remove_node path3_meta 0 = Ok g' ∧
        (0 ∉ dom (neighborhood g')) ∧
        (∀ y, 0 ∉ get_neighbors g' y) ∧
        node_metadata g' !! 0 = None ∧
        interaction_metadata g' !! (0, 1) = None ∧
        interaction_metadata g' !! (1, 0) = None.
Proof.
  assert (symmetric (neighborhood path3_meta)) as Hs.
  { apply symmetricb_spec. vm_compute. reflexivity. }
  split; [exact Hs|].
  destruct (removal_cascade path3_meta 0 Hs) as [Htot Hprop].
  destruct Htot as [g' Hg'].
  { apply (bool_decide_unpack _). vm_compute. exact I. }
  { apply (bool_decide_unpack _). vm_compute. exact I. }
  exists g'. split; [exact Hg'|].
  destruct (Hprop g' Hg') as (H1 & H2 & H3 & _ & H5).
  split; [exact H1|]. split; [exact H2|]. split; [exact H3|].
  apply (H5 1). apply (bool_decide_unpack _). vm_compute. exact I.
Defined.

(** Edge metadata stored by [add_interaction_metadata] for a pair of
    nodes that are not adjacent survives the removal of either node:
    [linear(3)], then [add_interaction_metadata(0, 2, 7)], then
    [remove_node(0)]. *)
Lemma removal_cascade_orphan_metadata :
  ∃ g1 g2 g3,
    linear_to_pairwise_neighborhood fresh_defaults 3 false = Ok g1 ∧
    add_interaction_metadata g1 0 2 (PyInt 7) = Ok g2 ∧
    remove_node g2 0 = Ok g3 ∧
    interaction_metadata g3 !! (0, 2) = Some (PyInt 7) ∧
    ¬ no_metadata_mentions g3 0.
Proof.
  eexists _, _, _.
  split; [vm_compute; reflexivity|].
  split; [vm_compute; reflexivity|].
  split; [vm_compute; reflexivity|].
  split; [vm_compute; reflexivity|].
  intros H. destruct (H 0 2) as [Hne _]; [|done].
  vm_compute. eauto.
Qed.

(** ** C3: edge count of the rectangular grid *)

(** C3, as the code has it.  For [rows ≥ 1] and [cols ≥ 1] the
    rectangular generator without boundary adjustment returns a graph with
    exactly [rows*(cols-1) + cols*(rows-1)] undirected edges.  With
    boundary adjustment, and [rows ≥ 2] and [cols ≥ 2], it returns a graph
    with [rows*cols] vertical edges ([cols] when [rows = 2]) and
    [rows*cols] horizontal edges ([rows] when [cols = 2]); that is
    [rows*cols*2] edges when [rows ≥ 3] and [cols ≥ 3]. *)
Theorem rect2d_edge_count (dflt : init_defaults) (rows cols : Z) :
  1 ≤ rows → 1 ≤ cols →
  (∃ g, rect2d_to_pairwise_von_neumann_neighborhood dflt rows cols false = Ok g ∧
        Z.of_nat (edge_count (neighborhood g)) = rows * (cols - 1) + cols * (rows - 1)) ∧
  (2 ≤ rows → 2 ≤ cols →
   ∃ g, rect2d_to_pairwise_von_neumann_neighborhood dflt rows cols true = Ok g ∧
        Z.of_nat (edge_count (neighborhood g)) =
          (if decide (rows = 2) then cols else rows * cols)
          + (if decide (cols = 2) then rows else rows * cols)) ∧
  (3 ≤ rows → 3 ≤ cols →
   ∃ g, rect2d_to_pairwise_von_neumann_neighborhood dflt rows cols true = Ok g ∧
        Z.of_nat (edge_count (neighborhood g)) = rows * cols * 2).
Proof.
  intros Hr Hc. unfold rect2d_to_pairwise_von_neumann_neighborhood. split; [|split].
  - destruct (rect2d_von_neumann_neighborhood_spec rows cols false Hr Hc)
      as (d & -> & _ & _ & Hf & _).
    eexists; split; [done|]. simpl. by apply Hf.
  - intros H2 H2'.
    destruct (rect2d_von_neumann_neighborhood_spec rows cols true Hr Hc)
      as (d & -> & _ & _ & _ & Ht).
    eexists; split; [done|]. simpl. by apply Ht.
  - intros H3 H3'.
    destruct (rect2d_von_neumann_neighborhood_spec rows cols true Hr Hc)
      as (d & -> & _ & _ & _ & Ht).
    eexists; split; [done|]. simpl. destruct Ht as [_ ->]; [done|lia..|].
    rewrite !decide_False by lia. lia.
Qed.

Lemma rect2d_edge_count_witness :
  1 ≤ 3 ∧ 1 ≤ 4 ∧
  (∃ g, rect2d_to_pairwise_von_neumann_neighborhood fresh_defaults 3 4 false = Ok g ∧
        Z.of_nat (edge_count (neighborhood g)) = 3 * (4 - 1) + 4 * (3 - 1)) ∧
  (∃ g, rect2d_to_pairwise_von_neumann_neighborhood fresh_defaults 3 4 true = Ok g ∧
        Z.of_nat (edge_count (neighborhood g)) = 3 * 4 + 3 * 4) ∧
  (∃ g, rect2d_to_pairwise_von_neumann_neighborhood fresh_defaults 3 4 true = Ok g ∧
        Z.of_nat (edge_count (neighborhood g)) = 3 * 4 * 2).
Proof.
  split; [lia|]. split; [lia|].
  destruct (rect2d_edge_count fresh_defaults 3 4) as (H1 & H2 & H3); [lia|lia|].
  split; [exact H1|]. split; [apply H2; lia|apply H3; lia].
Defined.

(** With two rows and two columns every wrap edge is already a grid edge:
    the wrapped 2×2 grid has 4 edges, not 8. *)
Lemma rect2d_edge_count_2x2_wrapped :
  ∃ g, rect2d_to_pairwise_von_neumann_neighborhood fresh_defaults 2 2 true = Ok g ∧
       edge_count (neighborhood g) = 4%nat ∧
       Z.of_nat (edge_count (neighborhood g)) ≠ 2 * 2 * 2.
Proof.
  eexists. split; [vm_compute; reflexivity|]. split; [vm_compute; reflexivity|].
  vm_compute. discriminate.
Qed.

(** ** C4: node identifiers of the grid generators *)

(** C4 at [rows = 3], [cols = 1]: the hexagonal generator returns a graph
    on the four nodes 0, 1, 2, 3, one more than [rows*cols]. *)
Theorem hex2d_single_column_nodes (dflt : init_defaults) :
  ∃ g, hex2d_to_pairwise_neighborhood dflt 3 1 false = Ok g ∧
       dom (neighborhood g) = ids 4 ∧
       dom (neighborhood g) ≠ ids (3 * 1).
Proof.
  eexists. split; [vm_compute; reflexivity|]. split; [vm_compute; reflexivity|].
  intros H. assert (3 ∈ ids (3 * 1)) as Hin.
  { rewrite <- H. apply (bool_decide_unpack _). vm_compute. exact I. }
  apply elem_of_ids in Hin. lia.
Qed.

(** The rectangular generator is row-major complete for all valid
    parameters, and so is the hexagonal one with at least two columns. *)
Lemma rect2d_nodes (dflt : init_defaults) (rows cols : Z) (b : bool) :
  1 ≤ rows → 1 ≤ cols →
  ∃ g, rect2d_to_pairwise_von_neumann_neighborhood dflt rows cols b = Ok g ∧
       dom (neighborhood g) = ids (rows * cols).
Proof.
  intros Hr Hc. unfold rect2d_to_pairwise_von_neumann_neighborhood.
  destruct (rect2d_von_neumann_neighborhood_spec rows cols b Hr Hc) as (d & -> & Hd & _).
  eexists; split; [done|]. done.
Qed.

Lemma hex2d_nodes (dflt : init_defaults) (rows cols : Z) (b : bool) :
  1 ≤ rows → 2 ≤ cols → (b = true → rows mod 2 = 0) →
  ∃ g, hex2d_to_pairwise_neighborhood dflt rows cols b = Ok g ∧
       dom (neighborhood g) = ids (rows * cols).
Proof.
  intros Hr Hc Hb. unfold hex2d_to_pairwise_neighborhood.
  destruct (hex2d_neighborhood_spec rows cols b) as (d & -> & _ & _ & Hd & _); [lia..|done|].
  eexists; split; [done|]. simpl. apply Hd. lia.
Qed.

(** ** C5: self-loops *)

(** C5 at [rows = 1], [cols = 1] with boundary adjustment: the rectangular
    generator returns the graph in which node 0 is its own neighbor. *)
Theorem rect2d_single_cell_self_loop (dflt : init_defaults) :
  ∃ g, rect2d_to_pairwise_von_neumann_neighborhood dflt 1 1 true = Ok g ∧
       neighborhood g = {[0 := {[0]}]} ∧
       0 ∈ get_neighbors g 0.
Proof.
  eexists. split; [vm_compute; reflexivity|]. split; [vm_compute; reflexivity|].
  apply (bool_decide_unpack _). vm_compute. exact I.
Qed.

(** The hexagonal generator does the same with one column. *)
Lemma hex2d_single_column_self_loop (dflt : init_defaults) :
  ∃ g, hex2d_to_pairwise_neighborhood dflt 2 1 true = Ok g ∧
       0 ∈ get_neighbors g 0.
Proof.
  eexists. split; [vm_compute; reflexivity|].
  apply (bool_decide_unpack _). vm_compute. exact I.
Qed.

(** The linear generator, whose single-node case is special-cased, never
    returns a self-loop; nor do the grid generators without boundary
    adjustment, or with it when there are at least two rows and columns. *)
Lemma linear_loop_free (dflt : init_defaults) (Np : Z) (b : bool) :
  1 ≤ Np →
  ∃ g, linear_to_pairwise_neighborhood dflt Np b = Ok g ∧ loop_free (neighborhood g).
Proof.
  intros HN. unfold linear_to_pairwise_neighborhood.
  destruct (linear_neighborhood_spec Np b HN) as (d & -> & Hu & _).
  eexists; split; [done|]. simpl. eapply upto_loop_free; [exact Hu|]. cbv beta. lia.
Qed.

Lemma rect2d_loop_free (dflt : init_defaults) (rows cols : Z) (b : bool) :
  1 ≤ rows → 1 ≤ cols → (b = true → 2 ≤ rows ∧ 2 ≤ cols) →
  ∃ g, rect2d_to_pairwise_von_neumann_neighborhood dflt rows cols b = Ok g ∧
       loop_free (neighborhood g).
Proof.
  intros Hr Hc Hb. unfold rect2d_to_pairwise_von_neumann_neighborhood.
  destruct (rect2d_von_neumann_neighborhood_spec rows cols b Hr Hc)
    as (d & -> & _ & _ & Hf & Ht).
  eexists; split; [done|]. simpl. destruct b.
  - destruct Hb as [? ?]; [done|]. by apply Ht.
  - by apply Hf.
Qed.

Lemma hex2d_loop_free (dflt : init_defaults) (rows cols : Z) (b : bool) :
  1 ≤ rows → 1 ≤ cols → (b = true → rows mod 2 = 0 ∧ 2 ≤ cols) →
  ∃ g, hex2d_to_pairwise_neighborhood dflt rows cols b = Ok g ∧
       loop_free (neighborhood g).
Proof.
  intros Hr Hc Hb. unfold hex2d_to_pairwise_neighborhood.
  destruct (hex2d_neighborhood_spec rows cols b Hr Hc) as (d & -> & _ & _ & _ & Hl).
  { intros H. by apply Hb. }
  eexists; split; [done|]. simpl. apply Hl.
  destruct b; [left; by apply Hb|by right].
Qed.

(** ** C6: the unimplemented generators *)

(** C6 on the code: each of the three stubs returns to its caller, and
    the value it returns is a [NotImplementedError] object; none raises. *)
Theorem stubs_return (rows cols Np : Z) (b : bool) :
  rect2d_to_pairwise_moore_neighborhood rows cols b = Ok NotImplementedError_instance ∧
  rect3d_to_pairwise_neighborhood Np b = Ok NotImplementedError_instance ∧
  hex3d_to_pairwise_neighborhood Np b = Ok NotImplementedError_instance ∧
  ∀ e, rect2d_to_pairwise_moore_neighborhood rows cols b ≠ Raise e ∧
       rect3d_to_pairwise_neighborhood Np b ≠ Raise e ∧
       hex3d_to_pairwise_neighborhood Np b ≠ Raise e.
Proof. repeat split; done. Qed.

(** ** C7: the parity gate of the hexagonal generator *)

(** C7.  With boundary adjustment and an odd [rows ≥ 1] (and [cols ≥ 1])
    the hexagonal generator raises the odd-number-of-rows exception and
    returns no graph.  With an even [rows] it never raises that (or any
    other explicit) exception, whatever [cols] and the flag; for
    [rows ≥ 1] and [cols ≥ 1] it then returns a graph. *)
Theorem hex2d_parity_gate (dflt : init_defaults) (rows cols : Z) :
  (1 ≤ rows → 1 ≤ cols → rows mod 2 ≠ 0 →
   hex2d_to_pairwise_neighborhood dflt rows cols true
   = Raise (Exception (Odd_number_of_rows rows))) ∧
  (rows mod 2 = 0 →
   ∀ b msg, hex2d_to_pairwise_neighborhood dflt rows cols b ≠ Raise (Exception msg)) ∧
  (1 ≤ rows → 1 ≤ cols → rows mod 2 = 0 →
   ∃ g, hex2d_to_pairwise_neighborhood dflt rows cols true = Ok g).
Proof.
  unfold hex2d_to_pairwise_neighborhood. split; [|split].
  - intros Hr Hc Hodd. by rewrite hex2d_neighborhood_odd.
  - intros Hev b msg.
    apply bind_not_Exception; [by apply hex2d_neighborhood_even|].
    intros d. apply Ok_not_Exception.
  - intros Hr Hc Hev.
    destruct (hex2d_neighborhood_spec rows cols true Hr Hc) as (d & -> & _); [done|].
    simpl. eauto.
Qed.

Lemma hex2d_parity_gate_witness :
  (1 ≤ 3 ∧ 1 ≤ 4 ∧ 3 mod 2 ≠ 0 ∧
   hex2d_to_pairwise_neighborhood fresh_defaults 3 4 true
   = Raise (Exception (Odd_number_of_rows 3))) ∧
  (1 ≤ 4 ∧ 1 ≤ 4 ∧ 4 mod 2 = 0 ∧
   (∀ b msg, hex2d_to_pairwise_neighborhood fresh_defaults 4 4 b ≠ Raise (Exception msg)) ∧
   ∃ g, hex2d_to_pairwise_neighborhood fresh_defaults 4 4 true = Ok g).
Proof.
  split.
  - split; [lia|]. split; [lia|]. split; [vm_compute; discriminate|].
    apply (proj1 (hex2d_parity_gate fresh_defaults 3 4)); [lia|lia|vm_compute; discriminate].
  - split; [lia|]. split; [lia|]. split; [reflexivity|]. split.
    + apply (proj1 (proj2 (hex2d_parity_gate fresh_defaults 4 4))). reflexivity.
    + apply (proj2 (proj2 (hex2d_parity_gate fresh_defaults 4 4))); [lia|lia|reflexivity].
Defined.

(** ** C8: the linear generator *)

(** C8, as the code has it.  For [Np ≥ 1] the linear generator returns a
    graph on exactly the [Np] nodes [0..Np-1]; it has [Np-1] undirected
    edges without boundary adjustment, [Np] with it when [Np ≥ 3], one
    with it when [Np = 2], and none when [Np = 1]; for [Np = 5] with
    boundary adjustment it is the ring [ring5]. *)
Theorem linear_counts (dflt : init_defaults) (Np : Z) (b : bool) :
  1 ≤ Np →
  ∃ g, linear_to_pairwise_neighborhood dflt Np b = Ok g ∧
       dom (neighborhood g) = ids Np ∧
       size (dom (neighborhood g)) = Z.to_nat Np ∧
       (b = false → Z.of_nat (edge_count (neighborhood g)) = Np - 1) ∧
       (b = true → 3 ≤ Np → Z.of_nat (edge_count (neighborhood g)) = Np) ∧
       (b = true → Np = 2 → edge_count (neighborhood g) = 1%nat) ∧
       (Np = 1 → edge_count (neighborhood g) = 0%nat) ∧
       (b = true → Np = 5 → neighborhood g = ring5).
Proof.
  intros HN. unfold linear_to_pairwise_neighborhood.
  destruct (linear_neighborhood_spec Np b HN) as (d & Hd & Hu & Hn).
  rewrite Hd. simpl. eexists; split; [done|]. simpl.
  assert (dom d = ids Np) as Hdom.
  { rewrite (upto_dom_ids _ _ _ Hu). f_equal. lia. }
  split; [done|]. split; [by rewrite Hdom, size_ids|].
  split; [|split; [|split; [|split]]].
  - intros ->. simpl in Hn. done.
  - intros -> H3. by rewrite bool_decide_eq_true_2 in Hn.
  - intros -> ->. simpl in Hn. lia.
  - intros ->. rewrite bool_decide_eq_false_2, andb_false_r in Hn by lia. lia.
  - intros -> ->. assert (Ok d = Ok ring5) as Heq; [|by injection Heq].
    rewrite <- Hd. vm_compute. reflexivity.
Qed.

Lemma linear_counts_witness :
  1 ≤ 5 ∧
  ∃ g, linear_to_pairwise_neighborhood fresh_defaults 5 true = Ok g ∧
       dom (neighborhood g) = ids 5 ∧
       Z.of_nat (edge_count (neighborhood g)) = 5 ∧
       neighborhood g = ring5.
Proof.
  split; [lia|].
  destruct (linear_counts fresh_defaults 5 true) as (g & Hg & Hd & _ & _ & Hc & _ & _ & Hr);
    [lia|].
  exists g. split; [exact Hg|]. split; [exact Hd|].
  split; [apply Hc; [reflexivity|lia]|]. apply Hr; reflexivity.
Defined.

(** With two nodes the wrap edge is the edge between 0 and 1 that the
    chain already has: one edge, not two. *)
Lemma linear_two_nodes_wrapped :
  ∃ g, linear_to_pairwise_neighborhood fresh_defaults 2 true = Ok g ∧
       neighborhood g = list_to_map [(0, {[1]}); (1, {[0]})] ∧
       Z.of_nat (edge_count (neighborhood g)) ≠ 2.
Proof.
  eexists. split; [vm_compute; reflexivity|]. split; [vm_compute; reflexivity|].
  vm_compute. discriminate.
Qed.

(** ** C9: the hexagonal 4×4 scenario *)

(** C9, as the code has it.  In the 4×4 hexagonal graph without boundary
    adjustment the neighbors of node 5 are 1 (top-left, [5 - cols]),
    2 (top-right), 4 (left) and 6 (right), and also 9 and 10, for which
    node 5 is the top-right and the top-left neighbor in the row below. *)
Theorem hex2d_4x4_node5 (dflt : init_defaults) :
  ∃ g, hex2d_to_pairwise_neighborhood dflt 4 4 false = Ok g ∧
       get_neighbors g 5 = {[1; 2; 4; 6; 9; 10]}.
Proof.
  eexists. split; [vm_compute; reflexivity|]. vm_compute. reflexivity.
Qed.

(** The neighbor set of node 5 is not [{1, 2, 4, 6}]: it holds 9. *)
Lemma hex2d_4x4_node5_not_four :
  ∃ g, hex2d_to_pairwise_neighborhood fresh_defaults 4 4 false = Ok g ∧
       9 ∈ get_neighbors g 5 ∧
       get_neighbors g 5 ≠ {[1; 2; 4; 6]}.
Proof.
  eexists. split; [vm_compute; reflexivity|].
  split.
  - apply (bool_decide_unpack _). vm_compute. exact I.
  - intros H. assert ((9 : Z) ∈ ({[1; 2; 4; 6]} : gset Z)) as H9.
    { rewrite <- H. apply (bool_decide_unpack _). vm_compute. exact I. }
    set_solver.
Qed.

(** ** C10: falsy metadata *)

(** C10, as the code has it.  Called with a falsy [meta], [add_node] (on
    an identifier that is not yet a node) and [add_interaction] return
    and store nothing: both metadata dicts are as they were, so the lookup
    gives what it gave before the call, which is [None] for an entry that
    was absent before; [add_node_metadata] and [add_interaction_metadata]
    (on existing nodes) store any [meta], falsy or not, and the lookup
    gives it back. *)
Theorem falsy_metadata_dropped (g : PairwiseNeighborhood) (nid nid1 nid2 : Z) (meta : pyobj) :
  (truthy meta = false → nid ∉ dom (neighborhood g) →
   ∃ g', add_node g nid meta = Ok g' ∧
         node_metadata g' = node_metadata g ∧
         interaction_metadata g' = interaction_metadata g ∧
         get_node_metadata g' nid = get_node_metadata g nid ∧
         (node_metadata g !! nid = None → get_node_metadata g' nid = PyNone)) ∧
  (truthy meta = false →
   ∃ g', add_interaction g nid1 nid2 meta = Ok g' ∧
         node_metadata g' = node_metadata g ∧
         interaction_metadata g' = interaction_metadata g ∧
         get_interaction_metadata g' nid1 nid2 = get_interaction_metadata g nid1 nid2 ∧
         get_interaction_metadata g' nid2 nid1 = get_interaction_metadata g nid2 nid1 ∧
         (interaction_metadata g !! (nid1, nid2) = None →
          get_interaction_metadata g' nid1 nid2 = PyNone)) ∧
  (nid ∈ dom (neighborhood g) →
   ∃ g', add_node_metadata g nid meta = Ok g' ∧
         node_metadata g' !! nid = Some meta ∧
         get_node_metadata g' nid = meta) ∧
  (nid1 ∈ dom (neighborhood g) → nid2 ∈ dom (neighborhood g) →
   ∃ g', add_interaction_metadata g nid1 nid2 meta = Ok g' ∧
         interaction_metadata g' !! (nid1, nid2) = Some meta ∧
         interaction_metadata g' !! (nid2, nid1) = Some meta ∧
         get_interaction_metadata g' nid1 nid2 = meta ∧
         get_interaction_metadata g' nid2 nid1 = meta).
Proof.
  split; [|split; [|split]].
  - intros Hf Hn. rewrite (add_node_spec g nid meta Hn), Hf.
    eexists; split; [done|]. simpl. split; [done|]. split; [done|]. split; [done|].
    intros Hnone. unfold get_node_metadata. simpl. by rewrite Hnone.
  - intros Hf. destruct (add_interaction_spec g nid1 nid2 meta) as (d & _ & _ & _ & ->).
    rewrite Hf. eexists; split; [done|]. simpl. split; [done|]. split; [done|].
    split; [done|]. split; [done|].
    intros Hnone. unfold get_interaction_metadata. simpl. by rewrite Hnone.
  - intros Hin. unfold add_node_metadata. rewrite decide_False by (intros ?; done).
    eexists; split; [done|]. unfold get_node_metadata. simpl.
    by rewrite lookup_insert_eq.
  - intros H1 H2. unfold add_interaction_metadata.
    rewrite !decide_False by (intros ?; done).
    eexists; split; [done|]. unfold get_interaction_metadata. simpl.
    assert (<[(nid2, nid1) := meta]> (<[(nid1, nid2) := meta]> (interaction_metadata g))
              !! (nid1, nid2) = Some meta) as Hl.
    { destruct (decide ((nid2, nid1) = (nid1, nid2))) as [->|Hne].
      - apply lookup_insert_eq.
      - rewrite lookup_insert_ne by done. apply lookup_insert_eq. }
    rewrite Hl, lookup_insert_eq. done.
Qed.

Lemma falsy_metadata_dropped_witness :
  truthy (PyInt 0) = false ∧ (9 ∉ dom (neighborhood path3_meta)) ∧
  2 ∈ dom (neighborhood path3_meta) ∧ 0 ∈ dom (neighborhood path3_meta) ∧
  (∃ g', add_node path3_meta 9 (PyInt 0) = Ok g' ∧ get_node_metadata g' 9 = PyNone) ∧
  (∃ g', add_interaction path3_meta 0 2 (PyInt 0) = Ok g' ∧
         get_interaction_metadata g' 0 2 = PyNone) ∧
  (∃ g', add_node_metadata path3_meta 2 (PyInt 0) = Ok g' ∧
         get_node_metadata g' 2 = PyInt 0) ∧
  (∃ g', add_interaction_metadata path3_meta 0 2 (PyInt 0) = Ok g' ∧
         get_interaction_metadata g' 0 2 = PyInt 0 ∧
         get_interaction_metadata g' 2 0 = PyInt 0).
Proof.
  assert (9 ∉ dom (neighborhood path3_meta)) as H9.
  { apply (bool_decide_unpack _). vm_compute. exact I. }
  assert (2 ∈ dom (neighborhood path3_meta)) as H2.
  { apply (bool_decide_unpack _). vm_compute. exact I. }
  assert (0 ∈ dom (neighborhood path3_meta)) as H0.
  { apply (bool_decide_unpack _). vm_compute. exact I. }
  split; [reflexivity|]. split; [exact H9|]. split; [exact H2|]. split; [exact H0|].
  split; [|split; [|split]].
  - destruct (falsy_metadata_dropped path3_meta 9 0 2 (PyInt 0)) as (Ha & _).
    destruct (Ha eq_refl H9) as (g' & Hg' & _ & _ & _ & Hget).
    exists g'. split; [exact Hg'|]. apply Hget. vm_compute. reflexivity.
  - destruct (falsy_metadata_dropped path3_meta 9 0 2 (PyInt 0)) as (_ & Ha & _).
    destruct (Ha eq_refl) as (g' & Hg' & _ & _ & _ & _ & Hget).
    exists g'. split; [exact Hg'|]. apply Hget. vm_compute. reflexivity.
  - destruct (falsy_metadata_dropped path3_meta 2 0 2 (PyInt 0)) as (_ & _ & Ha & _).
    destruct (Ha H2) as (g' & Hg' & _ & Hget).
    exists g'. split; [exact Hg'|exact Hget].
  - destruct (falsy_metadata_dropped path3_meta 2 0 2 (PyInt 0)) as (_ & _ & _ & Ha).
    destruct (Ha H0 H2) as (g' & Hg' & _ & _ & Hget & Hget').
    exists g'. split; [exact Hg'|]. split; [exact Hget|exact Hget'].
Defined.

(** A falsy [meta] on an edge that has metadata already: the call stores
    nothing, and the lookup after it gives the old value, not [None]:
    [linear(2)], then [add_interaction(0, 1, 4)], then
    [add_interaction(0, 1, 0)]. *)
Lemma falsy_metadata_old_entry_read :
  ∃ g1 g2 g3,
    linear_to_pairwise_neighborhood fresh_defaults 2 false = Ok g1 ∧
    add_interaction g1 0 1 (PyInt 4) = Ok g2 ∧
    truthy (PyInt 0) = false ∧
    add_interaction g2 0 1 (PyInt 0) = Ok g3 ∧
    get_interaction_metadata g3 0 1 = PyInt 4 ∧
    get_interaction_metadata g3 0 1 ≠ PyNone.
Proof.
  eexists _, _, _.
  split; [vm_compute; reflexivity|].
  split; [vm_compute; reflexivity|].
  split; [reflexivity|].
  split; [vm_compute; reflexivity|].
  split; [vm_compute; reflexivity|].
  vm_compute. discriminate.
Qed.

(** * Further properties of the class *)

(** ** Dicts are determined by their nodes and neighbor relation *)

Lemma dict_ext (d d' : dict) :
  dom d = dom d' → (∀ a b, adj d a b ↔ adj d' a b) → d = d'.
Proof.
  intros Hdom Hadj. apply map_eq. intros k.
  destruct (d !! k) as [s|] eqn:Hs; destruct (d' !! k) as [s'|] eqn:Hs'.
  - f_equal. apply set_eq. intros b. split; intros Hb.
    + destruct (proj1 (Hadj k b)) as (t & Ht & Hin); [by exists s|]. congruence.
    + destruct (proj2 (Hadj k b)) as (t & Ht & Hin); [by exists s'|]. congruence.
  - apply elem_of_dom_2 in Hs. apply not_elem_of_dom in Hs'. congruence.
  - apply elem_of_dom_2 in Hs'. apply not_elem_of_dom in Hs. congruence.
  - done.
Qed.

Lemma dict_remove_total (d : dict) (k x : Z) :
  adj d k x → ∃ d', dict_remove d k x = Ok d'.
Proof.
  intros (s & Hs & Hx). unfold dict_remove. rewrite Hs, decide_True by done. eauto.
Qed.

Lemma insert_pair_lookup (im : gmap (Z * Z) pyobj) (a b : Z) (meta : pyobj) (p : Z * Z) :
  <[(b, a) := meta]> (<[(a, b) := meta]> im) !! p =
  if decide (p = (a, b) ∨ p = (b, a)) then Some meta else im !! p.
Proof.
  rewrite !lookup_insert. repeat case_decide; naive_solver.
Qed.

Lemma delete_pair_lookup (im : gmap (Z * Z) pyobj) (a b : Z) (p : Z * Z) :
  delete (b, a) (delete (a, b) im) !! p =
  if decide (p = (a, b) ∨ p = (b, a)) then None else im !! p.
Proof.
  rewrite !lookup_delete. repeat case_decide; naive_solver.
Qed.

(** ** add_interaction *)


(** X2.  Adding an edge a second time, with the same metadata, changes
    nothing: the second call returns the graph it was given. *)
Theorem add_interaction_idempotent (g g1 : PairwiseNeighborhood) (nid1 nid2 : Z) (meta : pyobj) :
  add_interaction g nid1 nid2 meta = Ok g1 →
  add_interaction g1 nid1 nid2 meta = Ok g1.
Proof.
  intros H1.
  destruct (add_interaction_spec g nid1 nid2 meta) as (d & _ & Hp & Hd & Heq).
  rewrite Heq in H1. injection H1 as <-.
  match goal with |- add_interaction ?g1 _ _ _ = _ =>
    destruct (add_interaction_spec g1 nid1 nid2 meta) as (d2 & _ & Hp2 & Hd2 & ->)
  end.
  simpl in *. f_equal.
  assert (d2 = d) as ->.
  { apply dict_ext.
    - rewrite Hd2, Hd. set_solver.
    - intros x y. unfold plus_edge in *. rewrite Hp2, Hp. tauto. }
  f_equal. destruct (truthy meta); [|done].
  apply map_eq. intros p. rewrite !insert_pair_lookup. by case_decide.
Qed.

Lemma add_interaction_idempotent_witness :
  add_interaction path3_meta 0 2 (PyInt 8) =
    Ok {| neighborhood := list_to_map [(0, {[1; 2]}); (1, {[0; 2]}); (2, {[0; 1]})];
          node_metadata := {[0 := PyInt 3]};
          interaction_metadata :=
            list_to_map [((0, 1), PyInt 4); ((1, 0), PyInt 4);
                         ((0, 2), PyInt 8); ((2, 0), PyInt 8)] |} ∧
  add_interaction
    {| neighborhood := list_to_map [(0, {[1; 2]}); (1, {[0; 2]}); (2, {[0; 1]})];
       node_metadata := {[0 := PyInt 3]};
       interaction_metadata :=
         list_to_map [((0, 1), PyInt 4); ((1, 0), PyInt 4);
                      ((0, 2), PyInt 8); ((2, 0), PyInt 8)] |} 0 2 (PyInt 8) =
    Ok {| neighborhood := list_to_map [(0, {[1; 2]}); (1, {[0; 2]}); (2, {[0; 1]})];
          node_metadata := {[0 := PyInt 3]};
          interaction_metadata :=
            list_to_map [((0, 1), PyInt 4); ((1, 0), PyInt 4);
                         ((0, 2), PyInt 8); ((2, 0), PyInt 8)] |}.
Proof.
  assert (add_interaction path3_meta 0 2 (PyInt 8) =
    Ok {| neighborhood := list_to_map [(0, {[1; 2]}); (1, {[0; 2]}); (2, {[0; 1]})];
          node_metadata := {[0 := PyInt 3]};
          interaction_metadata :=
            list_to_map [((0, 1), PyInt 4); ((1, 0), PyInt 4);
                         ((0, 2), PyInt 8); ((2, 0), PyInt 8)] |}) as H.
  { vm_compute. reflexivity. }
  split; [exact H|]. exact (add_interaction_idempotent _ _ 0 2 (PyInt 8) H).
Defined.

(** X3.  On a symmetric graph [add_interaction] adds one undirected edge
    when the endpoints were not neighbors, and none when they were. *)
Theorem add_interaction_edge_count (g g' : PairwiseNeighborhood) (nid1 nid2 : Z) (meta : pyobj) :
  symmetric (neighborhood g) →
  add_interaction g nid1 nid2 meta = Ok g' →
  (nid2 ∉ get_neighbors g nid1 →
   edge_count (neighborhood g') = S (edge_count (neighborhood g))) ∧
  (nid2 ∈ get_neighbors g nid1 →
   edge_count (neighborhood g') = edge_count (neighborhood g)).
Proof.
  intros Hs H.
  destruct (add_interaction_spec g nid1 nid2 meta) as (d & _ & Hp & _ & Heq).
  rewrite Heq in H. injection H as <-. simpl.
  rewrite elem_of_get_neighbors. split; intros Hn.
  - eapply edge_count_plus; [done|done|]. intros H. by apply Hn, Hs.
  - eapply edge_count_present; [done|done|]. by apply Hs.
Qed.

Lemma add_interaction_edge_count_witness :
  symmetric (neighborhood path3_meta) ∧
  ∃ g1 g2, add_interaction path3_meta 0 2 PyNone = Ok g1 ∧
           edge_count (neighborhood g1) = S (edge_count (neighborhood path3_meta)) ∧
           add_interaction path3_meta 0 1 PyNone = Ok g2 ∧
           edge_count (neighborhood g2) = edge_count (neighborhood path3_meta).
Proof.
  assert (symmetric (neighborhood path3_meta)) as Hs.
  { apply symmetricb_spec. vm_compute. reflexivity. }
  split; [exact Hs|].
  destruct (add_interaction_spec path3_meta 0 2 PyNone) as (d1 & _ & _ & _ & H1).
  destruct (add_interaction_spec path3_meta 0 1 PyNone) as (d2 & _ & _ & _ & H2).
  eexists _, _. split; [exact H1|]. split.
  - apply (proj1 (add_interaction_edge_count _ _ 0 2 PyNone Hs H1)).
    apply (bool_decide_unpack _). vm_compute. exact I.
  - split; [exact H2|].
    apply (proj2 (add_interaction_edge_count _ _ 0 1 PyNone Hs H2)).
    apply (bool_decide_unpack _). vm_compute. exact I.
Defined.

(** ** remove_interaction *)

(** X4.  [remove_interaction(a, b)] returns exactly when [a] and [b] are
    distinct and each is in the other's neighbor set.  In particular it
    raises on [a = b], even when [a] is its own neighbor: the second
    [remove] then finds the element gone. *)
Theorem remove_interaction_returns_iff (g : PairwiseNeighborhood) (nid1 nid2 : Z) :
  (∃ g', remove_interaction g nid1 nid2 = Ok g') ↔
  nid2 ∈ get_neighbors g nid1 ∧ nid1 ∈ get_neighbors g nid2 ∧ nid1 ≠ nid2.
Proof.
  rewrite !elem_of_get_neighbors. split.
  - intros [g' H]. unfold remove_interaction in H. repeat case_decide; try done.
    apply bind_Ok in H as (d1 & Hr1 & (d2 & Hr2 & _)%bind_Ok).
    apply dict_remove_spec in Hr1 as (Ha & _ & Hadj1).
    apply dict_remove_spec in Hr2 as (Hb & _ & _).
    apply Hadj1 in Hb as [Hb Hne]. split; [done|]. split; [done|].
    intros ->. by apply Hne.
  - intros (Ha & Hb & Hne). unfold remove_interaction.
    rewrite decide_False by (intros Hn; apply Hn; by apply adj_dom in Ha).
    rewrite decide_False by (intros Hn; apply Hn; by apply adj_dom in Hb).
    destruct (dict_remove_total _ _ _ Ha) as (d1 & H1). rewrite H1. simpl.
    pose proof (dict_remove_spec _ _ _ _ H1) as (_ & _ & Hadj1).
    destruct (dict_remove_total d1 nid2 nid1) as (d2 & ->).
    { apply Hadj1. split; [done|]. intros [-> _]. done. }
    simpl. eauto.
Qed.

(** X5.  A call [remove_interaction(a, b)] that returned removed the edge
    in both directions and nothing else: the nodes and all other neighbor
    pairs are as before, there is one undirected edge less, the metadata
    under [(a, b)] and [(b, a)] is gone and every other metadata entry,
    and all node metadata, is as before. *)
Theorem remove_interaction_effect (g g' : PairwiseNeighborhood) (nid1 nid2 : Z) :
  remove_interaction g nid1 nid2 = Ok g' →
  dom (neighborhood g') = dom (neighborhood g) ∧
  (∀ x y, y ∈ get_neighbors g' x ↔
          y ∈ get_neighbors g x ∧ ¬ (x = nid1 ∧ y = nid2) ∧ ¬ (x = nid2 ∧ y = nid1)) ∧
  S (edge_count (neighborhood g')) = edge_count (neighborhood g) ∧
  node_metadata g' = node_metadata g ∧
  get_interaction_metadata g' nid1 nid2 = PyNone ∧
  get_interaction_metadata g' nid2 nid1 = PyNone ∧
  (∀ a b, (a, b) ≠ (nid1, nid2) → (a, b) ≠ (nid2, nid1) →
          interaction_metadata g' !! (a, b) = interaction_metadata g !! (a, b)).
Proof.
  intros H.
  assert (∃ g'', remove_interaction g nid1 nid2 = Ok g'') as Hex by eauto.
  apply remove_interaction_returns_iff in Hex as (Ha & Hb & Hne).
  rewrite !elem_of_get_neighbors in Ha, Hb.
  apply remove_interaction_spec in H as (_ & Hd & Hadj & Hnm & Him).
  split; [done|]. split; [|split; [|split; [done|]]].
  - intros x y. rewrite !elem_of_get_neighbors. apply Hadj.
  - symmetry. apply (edge_count_plus _ _ nid1 nid2).
    + intros x y. rewrite Hadj.
      destruct (decide (x = nid1 ∧ y = nid2)) as [[-> ->]|]; [tauto|].
      destruct (decide (x = nid2 ∧ y = nid1)) as [[-> ->]|]; tauto.
    + rewrite Hadj. tauto.
    + rewrite Hadj. tauto.
  - unfold get_interaction_metadata. rewrite Him, !delete_pair_lookup.
    rewrite !decide_True by auto. split; [done|]. split; [done|].
    intros a b Hab Hba. rewrite delete_pair_lookup, decide_False; [done|]. naive_solver.
Qed.

Lemma remove_interaction_effect_witness :
  ∃ g', remove_interaction path3_meta 0 1 = Ok g' ∧
        dom (neighborhood g') = dom (neighborhood path3_meta) ∧
        S (edge_count (neighborhood g')) = edge_count (neighborhood path3_meta) ∧
        get_interaction_metadata g' 0 1 = PyNone ∧
        get_interaction_metadata g' 1 0 = PyNone.
Proof.
  assert (∃ g', remove_interaction path3_meta 0 1 = Ok g') as [g' H].
  { eexists. vm_compute. reflexivity. }
  exists g'. split; [exact H|].
  destruct (remove_interaction_effect _ _ 0 1 H) as (H1 & _ & H3 & _ & H5 & H6 & _).
  split; [exact H1|]. split; [exact H3|]. split; [exact H5|exact H6].
Defined.

(** ** Round trips *)





(** ** remove_node *)

(** X8.  On a symmetric graph [remove_node(x)] returns exactly when [x]
    is a node that is not its own neighbor; on a missing node, and on a
    node with a self-loop, it raises. *)
Theorem remove_node_returns_iff (g : PairwiseNeighborhood) (x : Z) :
  symmetric (neighborhood g) →
  ((∃ g', remove_node g x = Ok g') ↔ x ∈ dom (neighborhood g) ∧ x ∉ get_neighbors g x).
Proof.
  intros Hs. split.
  - intros [g' (H1 & H2 & _)%remove_node_spec]. done.
  - intros [H1 H2]. by apply remove_node_total.
Qed.

Lemma remove_node_returns_iff_witness :
  symmetric (neighborhood path3_meta) ∧
  ((∃ g', remove_node path3_meta 1 = Ok g') ↔
   1 ∈ dom (neighborhood path3_meta) ∧ 1 ∉ get_neighbors path3_meta 1).
Proof.
  assert (symmetric (neighborhood path3_meta)) as Hs.
  { apply symmetricb_spec. vm_compute. reflexivity. }
  split; [exact Hs|]. exact (remove_node_returns_iff path3_meta 1 Hs).
Defined.

Lemma size_set_map_inj (f : Z → Z * Z) (X : gset Z) :
  Inj (=) (=) f → size (set_map f X : gset (Z * Z)) = size X.
Proof.
  intros Hf. unfold set_map. rewrite size_list_to_set.
  - by rewrite length_fmap.
  - apply NoDup_fmap_2; [done|apply NoDup_elements].
Qed.

(** X9.  On a symmetric graph a call [remove_node(x)] that returned left
    exactly the neighbor pairs that do not involve [x], removed [x] from
    the nodes and nothing else, and removed as many undirected edges as
    [x] had neighbors. *)
Theorem remove_node_effect (g g' : PairwiseNeighborhood) (x : Z) :
  symmetric (neighborhood g) →
  remove_node g x = Ok g' →
  dom (neighborhood g') = dom (neighborhood g) ∖ {[x]} ∧
  (∀ a b, b ∈ get_neighbors g' a ↔ b ∈ get_neighbors g a ∧ a ≠ x ∧ b ≠ x) ∧
  (edge_count (neighborhood g') + size (get_neighbors g x))%nat = edge_count (neighborhood g).
Proof.
  intros Hs H. pose proof (remove_node_symmetric g g' x H Hs) as Hadj.
  apply remove_node_spec in H as (_ & Hloop & Hd & _).
  split; [done|]. split.
  { intros a b. rewrite !elem_of_get_neighbors. apply Hadj. }
  set (f := λ y : Z, (Z.min x y, Z.max x y)).
  assert (Inj (=) (=) f) as Hf.
  { intros y y' [= H1 H2]. lia. }
  unfold edge_count.
  assert (edges (neighborhood g) =
          edges (neighborhood g') ∪ set_map f (get_neighbors g x)) as ->.
  { apply set_eq. intros [a b].
    rewrite elem_of_union, elem_of_map, !elem_of_edges, Hadj. split.
    - intros [Hle Hab].
      destruct (decide (a = x)) as [->|Ha].
      { right. exists b. split; [unfold f; f_equal; lia|]. by apply elem_of_get_neighbors. }
      destruct (decide (b = x)) as [->|Hb].
      { right. exists a. split; [unfold f; f_equal; lia|]. by apply elem_of_get_neighbors, Hs. }
      left. done.
    - intros [[Hle [Hab _]]|(y & [= -> ->] & Hy%elem_of_get_neighbors)]; [done|].
      split; [lia|]. destruct (decide (x ≤ y)).
      + rewrite Z.min_l, Z.max_r by lia. done.
      + rewrite Z.min_r, Z.max_l by lia. by apply Hs. }
  rewrite size_union, size_set_map_inj; [done..|].
  intros [a b]. rewrite elem_of_map, elem_of_edges, Hadj.
  intros [_ (_ & Ha & Hb)] (y & [= -> ->] & _). lia.
Qed.

Lemma remove_node_effect_witness :
  symmetric (neighborhood path3_meta) ∧
  ∃ g', remove_node path3_meta 1 = Ok g' ∧
        dom (neighborhood g') = dom (neighborhood path3_meta) ∖ {[1]} ∧
        (edge_count (neighborhood g') + size (get_neighbors path3_meta 1))%nat
        = edge_count (neighborhood path3_meta).
Proof.
  assert (symmetric (neighborhood path3_meta)) as Hs.
  { apply symmetricb_spec. vm_compute. reflexivity. }
  split; [exact Hs|].
  assert (∃ g', remove_node path3_meta 1 = Ok g') as [g' H].
  { eexists. vm_compute. reflexivity. }
  exists g'. split; [exact H|].
  destruct (remove_node_effect _ _ 1 Hs H) as (H1 & _ & H3).
  split; [exact H1|exact H3].
Defined.

Lemma remove_node_fold_lookup (nid : Z) (l : list Z) (nb nb' : dict)
    (im im' : gmap (Z * Z) pyobj) :
  foldM (remove_node_step nid) l (nb, im) = Ok (nb', im') →
  ∀ a b, im' !! (a, b) =
         if decide ((a = nid ∧ b ∈ l) ∨ (b = nid ∧ a ∈ l)) then None else im !! (a, b).
Proof.
  revert nb im. induction l as [|o l IH]; intros nb im; simpl.
  - intros [= <- <-] a b. rewrite decide_False; [done|]. set_solver.
  - intros ([nb1 im1] & H1 & H2)%bind_Ok.
    unfold remove_node_step in H1.
    apply bind_Ok in H1 as (nb2 & Hrm & H1).
    case_decide as Hne; [done|]. injection H1 as <- <-.
    intros a b. rewrite (IH _ _ H2 a b).
    destruct (decide ((a = nid ∧ b ∈ l) ∨ (b = nid ∧ a ∈ l))) as [Hl|Hl].
    + rewrite decide_True; [done|]. set_solver.
    + rewrite delete_pair_lookup.
      destruct (decide ((a, b) = (nid, o) ∨ (a, b) = (o, nid))) as [Ho|Ho].
      * rewrite decide_True; [done|]. destruct Ho as [[= -> ->]|[= -> ->]]; set_solver.
      * rewrite decide_False; [done|]. intros [[-> [->|?]%elem_of_cons]|[-> [->|?]%elem_of_cons]];
          [apply Ho; by left|apply Hl; by left|apply Ho; by right|apply Hl; by right].
Qed.

Lemma remove_node_metadata_lookup (g g' : PairwiseNeighborhood) (x : Z) :
  remove_node g x = Ok g' →
  ∀ a b, interaction_metadata g' !! (a, b) =
         if decide ((a = x ∧ b ∈ get_neighbors g x) ∨ (b = x ∧ a ∈ get_neighbors g x))
         then None else interaction_metadata g !! (a, b).
Proof.
  unfold remove_node, get_neighbors.
  destruct (neighborhood g !! x) as [s|] eqn:Hs; [|done].
  intros ([nb im] & Hf & [= <-])%bind_Ok a b. simpl.
  rewrite (remove_node_fold_lookup _ _ _ _ _ _ Hf a b).
  repeat case_decide; try done; exfalso; rewrite !elem_of_elements in *; tauto.
Qed.

(** ** What every call keeps *)

Lemma call_symmetric (g g' : PairwiseNeighborhood) :
  call g g' → symmetric (neighborhood g) → symmetric (neighborhood g').
Proof.
  intros Hc IH.
  destruct Hc as [g g' nid meta Hg|g g' nid meta Hg|g g' nid1 nid2 meta Hg
                 |g g' nid1 nid2 meta Hg|g g' nid1 nid2 Hg|g g' nid Hg].
  - pose proof (add_node_Ok _ _ _ _ Hg) as Hn.
    rewrite (add_node_spec _ _ _ Hn) in Hg. injection Hg as <-. simpl.
    by apply symmetric_new_node.
  - unfold add_node_metadata in Hg. case_decide; [done|]. by injection Hg as <-.
  - destruct (add_interaction_spec g nid1 nid2 meta) as (d & _ & Hp & _ & Heq).
    rewrite Heq in Hg. injection Hg as <-. simpl. by eapply plus_edge_symmetric.
  - unfold add_interaction_metadata in Hg. repeat case_decide; try done.
    by injection Hg as <-.
  - apply remove_interaction_spec in Hg as (_ & _ & Hadj & _).
    intros a b. rewrite !Hadj. intros (H & ? & ?). split; [by apply IH|tauto].
  - intros a b. rewrite !(remove_node_symmetric _ _ _ Hg IH).
    intros (H & ? & ?). split; [by apply IH|tauto].
Qed.

Lemma call_mirrored (g g' : PairwiseNeighborhood) :
  call g g' → mirrored g → mirrored g'.
Proof.
  intros Hc Hm.
  destruct Hc as [g g' nid meta Hg|g g' nid meta Hg|g g' nid1 nid2 meta Hg
                 |g g' nid1 nid2 meta Hg|g g' nid1 nid2 Hg|g g' nid Hg].
  - pose proof (add_node_Ok _ _ _ _ Hg) as Hn.
    rewrite (add_node_spec _ _ _ Hn) in Hg. by injection Hg as <-.
  - unfold add_node_metadata in Hg. case_decide; [done|]. by injection Hg as <-.
  - destruct (add_interaction_spec g nid1 nid2 meta) as (d & _ & _ & _ & Heq).
    rewrite Heq in Hg. injection Hg as <-. intros a b. simpl.
    destruct (truthy meta); [|apply Hm]. rewrite !insert_pair_lookup.
    repeat case_decide; try done; try apply Hm; naive_solver.
  - unfold add_interaction_metadata in Hg. repeat case_decide; try done.
    injection Hg as <-. intros a b. simpl. rewrite !insert_pair_lookup.
    repeat case_decide; try done; try apply Hm; naive_solver.
  - apply remove_interaction_spec in Hg as (_ & _ & _ & _ & Him).
    intros a b. rewrite Him, !delete_pair_lookup.
    repeat case_decide; try done; try apply Hm; naive_solver.
  - intros a b. rewrite !(remove_node_metadata_lookup _ _ _ Hg).
    repeat case_decide; try done; try apply Hm; tauto.
Qed.

(** X10.  Metadata mirroring is kept by every call: if edge metadata
    read the same in both directions before a sequence of calls, it does
    so after it. *)
Theorem mirrored_kept (g g' : PairwiseNeighborhood) :
  rtc call g g' → mirrored g → mirrored g'.
Proof.
  induction 1 as [|g g1 g2 Hc _ IH]; [done|].
  intros Hm. by apply IH, (call_mirrored g).
Qed.

Lemma built_graph_calls : rtc call empty_graph built_graph.
Proof.
  eapply rtc_l; [eapply (call_add_interaction _ _ 0 1 (PyInt 2)); vm_compute; reflexivity|].
  eapply rtc_l; [eapply (call_add_interaction _ _ 1 2 (PyInt 3)); vm_compute; reflexivity|].
  eapply rtc_l; [eapply (call_remove_node _ _ 2); vm_compute; reflexivity|].
  apply rtc_refl.
Defined.

Lemma mirrored_kept_witness :
  rtc call empty_graph built_graph ∧ mirrored empty_graph ∧ mirrored built_graph.
Proof.
  assert (mirrored empty_graph) as Hm by (intros a b; reflexivity).
  split; [exact built_graph_calls|]. split; [exact Hm|].
  exact (mirrored_kept _ _ built_graph_calls Hm).
Defined.

Lemma call_node_metadata_on_nodes (g g' : PairwiseNeighborhood) :
  call g g' → node_metadata_on_nodes g → node_metadata_on_nodes g'.
Proof.
  unfold node_metadata_on_nodes. intros Hc Hm.
  destruct Hc as [g g' nid meta Hg|g g' nid meta Hg|g g' nid1 nid2 meta Hg
                 |g g' nid1 nid2 meta Hg|g g' nid1 nid2 Hg|g g' nid Hg].
  - pose proof (add_node_Ok _ _ _ _ Hg) as Hn.
    rewrite (add_node_spec _ _ _ Hn) in Hg. injection Hg as <-. simpl.
    destruct (truthy meta); rewrite ?dom_insert_L; set_solver.
  - unfold add_node_metadata in Hg. case_decide as Hin; [done|]. injection Hg as <-.
    simpl. rewrite dom_insert_L. set_solver.
  - destruct (add_interaction_spec g nid1 nid2 meta) as (d & _ & _ & Hd & Heq).
    rewrite Heq in Hg. injection Hg as <-. simpl. rewrite Hd. set_solver.
  - unfold add_interaction_metadata in Hg. repeat case_decide; try done.
    by injection Hg as <-.
  - apply remove_interaction_spec in Hg as (_ & Hd & _ & Hnm & _). by rewrite Hd, Hnm.
  - apply remove_node_spec in Hg as (_ & _ & Hd & _ & Hnm & _).
    rewrite Hd, Hnm, dom_delete_L. set_solver.
Qed.

(** X11.  Node metadata stays on nodes: if every identifier with node
    metadata was a node before a sequence of calls, the same holds after
    it. *)
Theorem node_metadata_on_nodes_kept (g g' : PairwiseNeighborhood) :
  rtc call g g' → node_metadata_on_nodes g → node_metadata_on_nodes g'.
Proof.
  induction 1 as [|g g1 g2 Hc _ IH]; [done|].
  intros Hm. by apply IH, (call_node_metadata_on_nodes g).
Qed.

Lemma path3_meta_calls : rtc call path3_meta path3_meta_later.
Proof.
  eapply rtc_l; [eapply (call_add_node _ _ 5 (PyInt 6)); vm_compute; reflexivity|].
  eapply rtc_l; [eapply (call_add_node_metadata _ _ 1 (PyInt 0)); vm_compute; reflexivity|].
  eapply rtc_l; [eapply (call_remove_node _ _ 0); vm_compute; reflexivity|].
  apply rtc_refl.
Defined.

Lemma node_metadata_on_nodes_kept_witness :
  rtc call path3_meta path3_meta_later ∧
  node_metadata path3_meta = {[0 := PyInt 3]} ∧
  node_metadata_on_nodes path3_meta ∧
  node_metadata path3_meta_later !! 1 = Some (PyInt 0) ∧
  node_metadata path3_meta_later !! 5 = Some (PyInt 6) ∧
  node_metadata_on_nodes path3_meta_later.
Proof.
  assert (node_metadata_on_nodes path3_meta) as Hm.
  { unfold node_metadata_on_nodes. apply (bool_decide_unpack _). vm_compute. exact I. }
  split; [exact path3_meta_calls|]. split; [reflexivity|]. split; [exact Hm|].
  split; [vm_compute; reflexivity|]. split; [vm_compute; reflexivity|].
  exact (node_metadata_on_nodes_kept _ _ path3_meta_calls Hm).
Defined.

Lemma edge_call_call (g g' : PairwiseNeighborhood) : edge_call g g' → call g g'.
Proof.
  destruct 1; [eapply call_add_node|eapply call_add_node_metadata|eapply call_add_interaction
              |eapply call_remove_interaction|eapply call_remove_node]; done.
Qed.

Lemma edge_call_metadata_on_edges (g g' : PairwiseNeighborhood) :
  edge_call g g' → symmetric (neighborhood g) → metadata_on_edges g → metadata_on_edges g'.
Proof.
  unfold metadata_on_edges. intros Hc Hs Hm.
  destruct Hc as [g g' nid meta Hg|g g' nid meta Hg|g g' nid1 nid2 meta Hg
                 |g g' nid1 nid2 Hg|g g' nid Hg].
  - pose proof (add_node_Ok _ _ _ _ Hg) as Hn.
    rewrite (add_node_spec _ _ _ Hn) in Hg. injection Hg as <-. simpl.
    intros a b Hab. apply new_node_spec; [done|]. by apply Hm.
  - unfold add_node_metadata in Hg. case_decide; [done|]. by injection Hg as <-.
  - destruct (add_interaction_spec g nid1 nid2 meta) as (d & _ & Hp & _ & Heq).
    rewrite Heq in Hg. injection Hg as <-. simpl. intros a b Hab. apply Hp.
    destruct (truthy meta); [|left; by apply Hm].
    rewrite insert_pair_lookup in Hab. case_decide as Hk; [|left; by apply Hm].
    right. destruct Hk as [[= -> ->]|[= -> ->]]; tauto.
  - apply remove_interaction_spec in Hg as (_ & _ & Hadj & _ & Him).
    intros a b. rewrite Him, delete_pair_lookup, Hadj.
    case_decide as Hk; [by intros [? ?]|]. intros Hab. split; [by apply Hm|].
    split; intros [-> ->]; apply Hk; auto.
  - intros a b. rewrite (remove_node_metadata_lookup _ _ _ Hg), (remove_node_symmetric _ _ _ Hg Hs).
    case_decide as Hk; [by intros [? ?]|]. intros Hab. apply Hm in Hab.
    split; [done|]. split; intros ->; apply Hk.
    + left. split; [done|]. by apply elem_of_get_neighbors.
    + right. split; [done|]. by apply elem_of_get_neighbors, Hs.
Qed.

(** X12.  As long as [add_interaction_metadata] is not called, edge
    metadata stays on edges: on a symmetric graph in which every pair with
    edge metadata is a pair of neighbors, the same holds after any
    sequence of the other calls. *)
Theorem metadata_on_edges_kept (g g' : PairwiseNeighborhood) :
  rtc edge_call g g' → symmetric (neighborhood g) → metadata_on_edges g →
  symmetric (neighborhood g') ∧ metadata_on_edges g'.
Proof.
  induction 1 as [|g g1 g2 Hc _ IH]; [done|].
  intros Hs Hm. apply IH.
  - apply (call_symmetric g); [by apply edge_call_call|done].
  - by apply (edge_call_metadata_on_edges g).
Qed.

Lemma built_graph_edge_calls : rtc edge_call empty_graph built_graph.
Proof.
  eapply rtc_l; [eapply (edge_call_add_interaction _ _ 0 1 (PyInt 2)); vm_compute; reflexivity|].
  eapply rtc_l; [eapply (edge_call_add_interaction _ _ 1 2 (PyInt 3)); vm_compute; reflexivity|].
  eapply rtc_l; [eapply (edge_call_remove_node _ _ 2); vm_compute; reflexivity|].
  apply rtc_refl.
Defined.

Lemma empty_graph_no_arcs (a b : Z) : ¬ adj (neighborhood empty_graph) a b.
Proof. intros (s & Hs & _). simpl in Hs. by rewrite lookup_empty in Hs. Qed.

Lemma metadata_on_edges_kept_witness :
  rtc edge_call empty_graph built_graph ∧
  symmetric (neighborhood empty_graph) ∧ metadata_on_edges empty_graph ∧
  symmetric (neighborhood built_graph) ∧ metadata_on_edges built_graph.
Proof.
  assert (symmetric (neighborhood empty_graph)) as Hs.
  { intros a b H. by apply empty_graph_no_arcs in H. }
  assert (metadata_on_edges empty_graph) as Hm.
  { intros a b [v Hv]. simpl in Hv. by rewrite lookup_empty in Hv. }
  split; [exact built_graph_edge_calls|]. split; [exact Hs|]. split; [exact Hm|].
  exact (metadata_on_edges_kept _ _ built_graph_edge_calls Hs Hm).
Defined.

(** X13.  On a symmetric graph whose edge metadata sits on edges, a call
    [remove_node(x)] that returned leaves no edge metadata that mentions
    [x] in either position, and the metadata that is left still sits on
    edges. *)
Theorem remove_node_full_cascade (g g' : PairwiseNeighborhood) (x : Z) :
  symmetric (neighborhood g) → metadata_on_edges g →
  remove_node g x = Ok g' →
  no_metadata_mentions g' x ∧ metadata_on_edges g'.
Proof.
  intros Hs Hm Hg. split.
  - intros a b. rewrite (remove_node_metadata_lookup _ _ _ Hg).
    case_decide as Hk; [by intros [? ?]|]. intros Hab. apply Hm in Hab.
    split; intros ->; apply Hk.
    + left. split; [done|]. by apply elem_of_get_neighbors.
    + right. split; [done|]. by apply elem_of_get_neighbors, Hs.
  - apply (edge_call_metadata_on_edges g); [|done..]. by eapply edge_call_remove_node.
Qed.

Lemma remove_node_full_cascade_witness :
  symmetric (neighborhood path3_meta) ∧ metadata_on_edges path3_meta ∧
  ∃ g', remove_node path3_meta 1 = Ok g' ∧ no_metadata_mentions g' 1.
Proof.
  assert (symmetric (neighborhood path3_meta)) as Hs.
  { apply symmetricb_spec. vm_compute. reflexivity. }
  assert (metadata_on_edges path3_meta) as Hm.
  { intros a b [v Hv]. apply elem_of_arcs.
    change (interaction_metadata path3_meta)
      with (list_to_map [((0, 1), PyInt 4); ((1, 0), PyInt 4)] : gmap (Z * Z) pyobj) in Hv.
    apply elem_of_list_to_map_2 in Hv.
    repeat (apply elem_of_cons in Hv as [[= -> -> ->]|Hv];
            [apply (bool_decide_unpack _); vm_compute; exact I|]).
    by apply elem_of_nil in Hv. }
  split; [exact Hs|]. split; [exact Hm|].
  assert (∃ g', remove_node path3_meta 1 = Ok g') as [g' H].
  { eexists. vm_compute. reflexivity. }
  exists g'. split; [exact H|].
  exact (proj1 (remove_node_full_cascade _ _ 1 Hs Hm H)).
Defined.

(** X14.  No dangling neighbors: in every graph a caller can get from a
    generator by calls that returned, a node's neighbors are nodes, and
    only nodes have neighbors. *)
Theorem neighbors_are_nodes (g : PairwiseNeighborhood) :
  evolved g →
  ∀ a b, b ∈ get_neighbors g a → a ∈ dom (neighborhood g) ∧ b ∈ dom (neighborhood g).
Proof.
  intros Hs%evolved_symmetric a b Hab%elem_of_get_neighbors. split.
  - by apply adj_dom in Hab.
  - by apply Hs, adj_dom in Hab.
Qed.

Lemma neighbors_are_nodes_witness :
  evolved ring3_evolved ∧
  ∀ a b, b ∈ get_neighbors ring3_evolved a →
         a ∈ dom (neighborhood ring3_evolved) ∧ b ∈ dom (neighborhood ring3_evolved).
Proof.
  split; [exact ring3_evolved_evolved|].
  exact (neighbors_are_nodes ring3_evolved ring3_evolved_evolved).
Defined.

(** X15.  A truthy [meta] is stored: [add_node] attaches it to the new
    node, and [add_interaction] stores it under both orders of the pair,
    replacing what was there, also when the edge existed already. *)
Theorem truthy_metadata_stored (g : PairwiseNeighborhood) (nid nid1 nid2 : Z) (meta : pyobj) :
  truthy meta = true →
  (nid ∉ dom (neighborhood g) →
   ∃ g', add_node g nid meta = Ok g' ∧ get_node_metadata g' nid = meta ∧
         interaction_metadata g' = interaction_metadata g) ∧
  (∃ g', add_interaction g nid1 nid2 meta = Ok g' ∧
         get_interaction_metadata g' nid1 nid2 = meta ∧
         get_interaction_metadata g' nid2 nid1 = meta ∧
         ∀ a b, (a, b) ≠ (nid1, nid2) → (a, b) ≠ (nid2, nid1) →
                get_interaction_metadata g' a b = get_interaction_metadata g a b).
Proof.
  intros Ht. split.
  - intros Hn. rewrite (add_node_spec g nid meta Hn), Ht.
    eexists; split; [done|]. unfold get_node_metadata. simpl.
    by rewrite lookup_insert_eq.
  - destruct (add_interaction_spec g nid1 nid2 meta) as (d & _ & _ & _ & ->).
    rewrite Ht. eexists; split; [done|]. unfold get_interaction_metadata. simpl.
    rewrite !insert_pair_lookup, !decide_True by auto. split; [done|]. split; [done|].
    intros a b Hab Hba. rewrite insert_pair_lookup, decide_False; [done|]. naive_solver.
Qed.

Lemma truthy_metadata_stored_witness :
  truthy (PyInt 6) = true ∧ (9 ∉ dom (neighborhood path3_meta)) ∧
  (∃ g', add_node path3_meta 9 (PyInt 6) = Ok g' ∧ get_node_metadata g' 9 = PyInt 6) ∧
  (∃ g', add_interaction path3_meta 0 1 (PyInt 6) = Ok g' ∧
         get_interaction_metadata g' 0 1 = PyInt 6 ∧
         get_interaction_metadata g' 1 0 = PyInt 6).
Proof.
  assert (9 ∉ dom (neighborhood path3_meta)) as H9.
  { apply (bool_decide_unpack _). vm_compute. exact I. }
  split; [reflexivity|]. split; [exact H9|].
  destruct (truthy_metadata_stored path3_meta 9 0 1 (PyInt 6) eq_refl) as [Ha Hb].
  split.
  - destruct (Ha H9) as (g' & Hg' & Hget & _). exists g'. split; [exact Hg'|exact Hget].
  - destruct Hb as (g' & Hg' & H1 & H2 & _). exists g'.
    split; [exact Hg'|]. split; [exact H1|exact H2].
Defined.

(** * Further properties of the generators *)

(** ** Building a graph arc by arc *)

Lemma exactly_iff (d : dict) (i : Z) (E F : Z → Z → Prop) :
  (∀ a b, E a b ↔ F a b) → exactly d i E → exactly d i F.
Proof.
  intros HEF [Hd Ha]. split; [done|]. intros a b. by rewrite Ha.
Qed.

Lemma exactly_init : exactly (<[0 := ∅]> ∅) 0 (λ _ _, False).
Proof.
  split.
  - intros k. rewrite dom_insert_L, dom_empty_L. set_solver by lia.
  - intros a b. split; [|done]. rewrite adj_insert.
    intros [[_ ?]|[_ (s & Hs & _)]]; [set_solver|]. by rewrite lookup_empty in Hs.
Qed.

Lemma exactly_add_both (d : dict) (i : Z) (E : Z → Z → Prop) (a b : Z) :
  exactly d i E → 0 ≤ a ≤ i → 0 ≤ b ≤ i →
  ∃ d', add_both d a b = Ok d' ∧
        exactly d' i (λ x y, E x y ∨ (x = a ∧ y = b) ∨ (x = b ∧ y = a)).
Proof.
  intros [Hd Ha] Hai Hbi.
  destruct (add_both_spec d a b) as (d' & Hd' & Hdom & Hplus); [by apply Hd..|].
  exists d'. split; [done|]. split.
  - intros k. rewrite Hdom. apply Hd.
  - intros x y. rewrite (Hplus x y), Ha. done.
Qed.

Lemma exactly_add_right (d : dict) (i : Z) (E : Z → Z → Prop) :
  exactly d i E → 0 ≤ i →
  ∃ d', add_right d i = Ok d' ∧
        exactly d' (i + 1) (λ x y, E x y ∨ (x = i ∧ y = i + 1) ∨ (x = i + 1 ∧ y = i)).
Proof.
  intros [Hd Ha] Hi.
  destruct (add_right_spec d i) as (d' & Hd' & Hdom & Hplus);
    [apply Hd; lia|rewrite Hd; lia|].
  exists d'. split; [done|]. split.
  - intros k. rewrite Hdom, elem_of_union, elem_of_singleton, Hd. lia.
  - intros x y. rewrite (Hplus x y), Ha. done.
Qed.

Lemma exactly_new_node (d : dict) (i : Z) (E : Z → Z → Prop) :
  exactly d i E → 0 ≤ i → exactly (<[i + 1 := ∅]> d) (i + 1) E.
Proof.
  intros [Hd Ha] Hi.
  destruct (new_node_spec d (i + 1)) as [Hdom Hadj]; [rewrite Hd; lia|].
  split.
  - intros k. rewrite Hdom, elem_of_union, elem_of_singleton, Hd. lia.
  - intros x y. by rewrite Hadj.
Qed.

(** ** The linear generator, exactly *)

Lemma linear_neighborhood_exactly (Np : Z) (b : bool) :
  1 ≤ Np →
  ∃ d, linear_neighborhood Np b = Ok d ∧
       exactly d (Np - 1)
         (λ x y, 0 ≤ x < Np ∧ 0 ≤ y < Np ∧
                 (Z.abs (x - y) = 1 ∨ (b = true ∧ x ≠ y ∧ Z.abs (x - y) = Np - 1))).
Proof.
  intros HN. unfold linear_neighborhood. case_decide as H1.
  { subst Np. eexists; split; [done|]. eapply exactly_iff; [|exact exactly_init].
    intros x y. simpl. lia. }
  destruct (foldM_inv
    (λ k d, exactly d (Z.of_nat k) (path_arc (Z.of_nat k + 1)))
    (λ nid neighborhood, add_right neighborhood nid)
    (range 0 (Np - 1)) (<[0 := ∅]> ∅)) as (d & -> & Hex).
  { eapply exactly_iff; [|exact exactly_init]. intros x y. unfold path_arc. simpl. lia. }
  { intros k x s [-> Hk]%range_lookup Hex.
    destruct (exactly_add_right s (Z.of_nat k) _ Hex) as (s' & Hs' & Hex'); [lia|].
    exists s'. rewrite Z.add_0_l. split; [done|].
    rewrite Nat2Z.inj_succ. unfold Z.succ.
    eapply exactly_iff; [|exact Hex']. intros x y. unfold path_arc. simpl. lia. }
  rewrite range_length in *. simpl.
  replace (Z.of_nat (Z.to_nat (Np - 1 - 0))) with (Np - 1) in * by lia.
  destruct b; simpl.
  - destruct (exactly_add_both d (Np - 1) _ 0 (Np - 1) Hex) as (d' & -> & Hex'); [lia..|].
    exists d'. split; [done|].
    eapply exactly_iff; [|exact Hex']. intros x y. unfold path_arc. simpl. lia.
  - exists d. split; [done|].
    eapply exactly_iff; [|exact Hex]. intros x y. unfold path_arc. simpl. lia.
Qed.

(** X16.  The linear generator builds exactly the chain, or the ring: for
    [Np ≥ 1], [y] is a neighbor of [x] precisely when both are in
    [0..Np-1] and they differ by one, or, with boundary adjustment, they
    are the two distinct ends [0] and [Np-1].  In the ring ([Np ≥ 2]) the
    neighbors of [x] are [x+1] and [x-1] modulo [Np]. *)
Theorem linear_adjacency (dflt : init_defaults) (Np : Z) (b : bool) :
  1 ≤ Np →
  ∃ g, linear_to_pairwise_neighborhood dflt Np b = Ok g ∧
       (∀ x y, y ∈ get_neighbors g x ↔
               0 ≤ x < Np ∧ 0 ≤ y < Np ∧
               (Z.abs (x - y) = 1 ∨ (b = true ∧ x ≠ y ∧ Z.abs (x - y) = Np - 1))) ∧
       (b = true → 2 ≤ Np →
        ∀ x, 0 ≤ x < Np → get_neighbors g x = {[(x + 1) mod Np; (x - 1) mod Np]}).
Proof.
  intros HN. unfold linear_to_pairwise_neighborhood.
  destruct (linear_neighborhood_exactly Np b HN) as (d & -> & Hex).
  eexists; split; [done|]. simpl.
  assert (∀ x y, y ∈ get_neighbors (PairwiseNeighborhood_init dflt d) x ↔
               0 ≤ x < Np ∧ 0 ≤ y < Np ∧
               (Z.abs (x - y) = 1 ∨ (b = true ∧ x ≠ y ∧ Z.abs (x - y) = Np - 1))) as Hadj.
  { intros x y. rewrite elem_of_get_neighbors. simpl. apply (exactly_adj _ _ _ Hex). }
  split; [done|]. intros -> H2 x Hx. apply set_eq. intros y.
  rewrite Hadj, elem_of_union, !elem_of_singleton.
  destruct (decide (x = Np - 1)) as [->|Hlast].
  - replace (Np - 1 + 1) with Np by lia. rewrite Z_mod_same_full.
    rewrite (Z.mod_small (Np - 1 - 1)) by lia. lia.
  - rewrite (Z.mod_small (x + 1)) by lia.
    destruct (decide (x = 0)) as [->|Hfirst].
    + replace (0 - 1) with (- (1)) by lia.
      rewrite Z_mod_nz_opp_full by (rewrite Z.mod_small; lia).
      rewrite (Z.mod_small 1) by lia. lia.
    + rewrite (Z.mod_small (x - 1)) by lia. lia.
Qed.

Lemma linear_adjacency_witness :
  1 ≤ 5 ∧
  ∃ g, linear_to_pairwise_neighborhood fresh_defaults 5 true = Ok g ∧
       (∀ x y, y ∈ get_neighbors g x ↔
               0 ≤ x < 5 ∧ 0 ≤ y < 5 ∧
               (Z.abs (x - y) = 1 ∨ (true = true ∧ x ≠ y ∧ Z.abs (x - y) = 5 - 1))) ∧
       get_neighbors g 4 = {[(4 + 1) mod 5; (4 - 1) mod 5]}.
Proof.
  split; [lia|].
  destruct (linear_adjacency fresh_defaults 5 true) as (g & Hg & Hadj & Hring); [lia|].
  exists g. split; [exact Hg|]. split; [exact Hadj|].
  apply Hring; [reflexivity|lia|lia].
Defined.

Lemma range_empty (a b : Z) : b ≤ a → range a b = [].
Proof.
  intros H. unfold range. apply length_zero_iff_nil. rewrite length_seqZ. lia.
Qed.

(** X17.  A node count below one is not rejected: for [Np ≤ 0] the linear
    generator without boundary adjustment returns the graph with the
    single node 0, and with boundary adjustment it raises [KeyError] for
    the missing node [Np - 1]. *)
Theorem linear_nonpositive (dflt : init_defaults) (Np : Z) :
  Np ≤ 0 →
  linear_to_pairwise_neighborhood dflt Np false
    = Ok (PairwiseNeighborhood_init dflt {[0 := ∅]}) ∧
  linear_to_pairwise_neighborhood dflt Np true = Raise (KeyError (Np - 1)).
Proof.
  intros HN. unfold linear_to_pairwise_neighborhood, linear_neighborhood.
  rewrite range_empty by lia.
  split; rewrite decide_False by lia; simpl; [done|].
  unfold add_both, dict_add. rewrite lookup_insert_eq. simpl.
  rewrite lookup_insert_ne by lia. rewrite lookup_insert_ne by lia.
  by rewrite lookup_empty.
Qed.

Lemma linear_nonpositive_witness :
  0 ≤ 0 ∧
  linear_to_pairwise_neighborhood fresh_defaults 0 false
    = Ok (PairwiseNeighborhood_init fresh_defaults {[0 := ∅]}) ∧
  linear_to_pairwise_neighborhood fresh_defaults 0 true = Raise (KeyError (0 - 1)).
Proof.
  split; [lia|]. apply (linear_nonpositive fresh_defaults 0). lia.
Defined.

(** ** The rectangular generator, exactly *)

Lemma mod_row (cols q k : Z) : 0 ≤ k < cols → (q * cols + k) mod cols = k.
Proof. intros Hk. rewrite Z.add_comm, Z_mod_plus_full. by apply Z.mod_small. Qed.

Lemma coords_unique (cols r c r' c' : Z) :
  0 ≤ c < cols → 0 ≤ c' < cols → r * cols + c = r' * cols + c' → r = r' ∧ c = c'.
Proof.
  intros Hc Hc' H. assert (r = r') as -> by nia. split; [done|lia].
Qed.

Lemma grid_arc_right (cols t j x y : Z) :
  0 ≤ j → (j + 1) mod cols ≠ 0 →
  grid_arc cols t j x y ∨ (x = j ∧ y = j + 1) ∨ (x = j + 1 ∧ y = j)
  ↔ grid_arc cols t (j + 1) x y.
Proof.
  intros Hj Hm. unfold grid_arc. split.
  - intros [H|[[-> ->]|[-> ->]]]; lia.
  - lia.
Qed.

Lemma grid_arc_top (cols t i x y : Z) :
  1 ≤ cols → cols ≤ t →
  grid_arc cols t i x y ∨ (x = t ∧ y = t - cols) ∨ (x = t - cols ∧ y = t)
  ↔ grid_arc cols (t + 1) i x y.
Proof. intros Hc Ht. unfold grid_arc. lia. Qed.

Lemma grid_arc_new_row (cols t i x y : Z) :
  (i + 1) mod cols = 0 →
  grid_arc cols t i x y ↔ grid_arc cols t (i + 1) x y.
Proof.
  intros Hm. unfold grid_arc. split; [lia|].
  intros (Hx & Hy & [H|[H|[[-> [Hle Hne]]|[-> [Hle Hne]]]]]); [lia|lia|..].
  - destruct (decide (x + 1 = i + 1)) as [Heq|]; [rewrite Heq in Hne; done|lia].
  - destruct (decide (y + 1 = i + 1)) as [Heq|]; [rewrite Heq in Hne; done|lia].
Qed.

Lemma first_row_exactly (cols : Z) :
  1 ≤ cols →
  ∃ d, first_row cols = Ok (d, cols - 1) ∧
       exactly d (cols - 1) (grid_arc cols cols (cols - 1)).
Proof.
  intros Hc. unfold first_row.
  match goal with |- ∃ d, foldM ?body ?l ?s = _ ∧ _ =>
    destruct (foldM_inv
      (λ k st, st.2 = Z.of_nat k ∧ exactly st.1 (Z.of_nat k) (grid_arc cols 0 (Z.of_nat k)))
      body l s) as ([d i] & -> & Hi & Hex)
  end.
  { simpl. split; [done|]. eapply exactly_iff; [|exact exactly_init].
    intros x y. unfold grid_arc. simpl. lia. }
  { intros k v [d i] [-> Hk]%range_lookup (Hi & Hex). simpl in Hi, Hex. subst i.
    destruct (exactly_add_right d (Z.of_nat k) _ Hex) as (d' & -> & Hex'); [lia|].
    simpl. eexists; split; [done|]. simpl. split; [lia|].
    rewrite Nat2Z.inj_succ. unfold Z.succ.
    eapply exactly_iff; [|exact Hex']. intros x y. apply grid_arc_right; [lia|].
    rewrite Z.mod_small; lia. }
  rewrite range_length in *. simpl in Hi, Hex.
  replace (Z.of_nat (Z.to_nat (cols - 1 - 0))) with (cols - 1) in * by lia.
  subst i. exists d. split; [done|].
  eapply exactly_iff; [|exact Hex]. intros x y. unfold grid_arc. lia.
Qed.

Lemma rect2d_row_exactly (cols m : Z) (d : dict) (i q0 : Z) :
  1 ≤ cols → 1 ≤ q0 → i + 1 = q0 * cols →
  exactly d i (grid_arc cols (i + 1) i) →
  ∃ d', rect2d_row cols m (d, i) = Ok (d', i + cols) ∧
        exactly d' (i + cols) (grid_arc cols (i + cols + 1) (i + cols)).
Proof.
  intros Hc Hq0 Hi0 Hex. unfold rect2d_row.
  assert (cols - 1 ≤ i) as Hi by nia.
  pose proof (exactly_new_node d i _ Hex) as Hex1.
  match goal with |- ∃ d', foldM ?body ?l ?s ≫= _ = _ ∧ _ =>
    destruct (foldM_inv
      (λ k st, st.2 = i + 1 + Z.of_nat k ∧ exactly st.1 st.2 (grid_arc cols st.2 st.2))
      body l s) as ([d2 j] & -> & Hj & Hex2)
  end.
  { simpl. split; [lia|]. eapply exactly_iff; [|apply Hex1; lia].
    intros x y. apply grid_arc_new_row. rewrite Hi0. apply Z.mod_mul. lia. }
  { intros k v [e j] [_ Hk]%range_lookup (Hj & Hex2). simpl in Hj, Hex2.
    destruct (exactly_add_both e j _ j (j - cols) Hex2) as (e1 & -> & Hex3); [lia..|].
    simpl.
    destruct (exactly_add_right e1 j _ Hex3) as (e2 & -> & Hex4); [lia|].
    simpl. eexists; split; [done|]. simpl. split; [lia|].
    eapply exactly_iff; [|exact Hex4]. intros x y. cbv beta.
    rewrite grid_arc_top by lia. apply grid_arc_right; [lia|].
    replace (j + 1) with (q0 * cols + (Z.of_nat k + 1)) by lia.
    rewrite mod_row; lia. }
  rewrite range_length in *. simpl in Hj, Hex2. simpl.
  replace (Z.of_nat (Z.to_nat (cols - 1 - 0))) with (cols - 1) in * by lia.
  destruct (exactly_add_both d2 j _ j (j - cols) Hex2) as (d3 & -> & Hex3); [lia..|].
  simpl. replace (i + cols) with j by lia.
  eexists; split; [done|].
  eapply exactly_iff; [|exact Hex3]. intros x y. cbv beta. apply grid_arc_top; lia.
Qed.

Lemma rect2d_grid_exactly (rows cols : Z) :
  1 ≤ rows → 1 ≤ cols →
  ∃ d i, first_row cols ≫= foldM (rect2d_row cols) (range 1 rows) = Ok (d, i) ∧
         exactly d (rows * cols - 1) (grid_arc cols (rows * cols) (rows * cols - 1)).
Proof.
  intros Hr Hc.
  destruct (first_row_exactly cols Hc) as (d0 & -> & Hex0). simpl.
  destruct (foldM_inv
    (λ k st, st.2 = (Z.of_nat k + 1) * cols - 1 ∧
             exactly st.1 st.2 (grid_arc cols (st.2 + 1) st.2))
    (rect2d_row cols) (range 1 rows) (d0, cols - 1)) as ([d i] & -> & Hi & Hex).
  { simpl. split; [lia|]. eapply exactly_iff; [|exact Hex0].
    intros x y. by replace (cols - 1 + 1) with cols by lia. }
  { intros k x [e j] _ (Hj & Hex). simpl in Hj, Hex.
    destruct (rect2d_row_exactly cols x e j (Z.of_nat k + 1))
      as (e' & -> & Hex'); [lia|lia|lia|done|].
    eexists; split; [done|]. simpl. split; [lia|done]. }
  rewrite range_length in *. simpl in Hi, Hex.
  replace (Z.of_nat (Z.to_nat (rows - 1))) with (rows - 1) in * by lia.
  exists d, i. split; [done|].
  replace (rows * cols - 1) with i by lia.
  by replace (rows * cols) with (i + 1) by lia.
Qed.

Lemma wrap_vertical_succ (rows cols k x y : Z) :
  0 ≤ k →
  wrap_vertical rows cols (k + 1) x y ↔
  wrap_vertical rows cols k x y ∨
  (x = k ∧ y = (rows - 1) * cols + k) ∨ (x = (rows - 1) * cols + k ∧ y = k).
Proof.
  intros Hk. unfold wrap_vertical. split.
  - intros (j & Hj & H). destruct (decide (j = k)) as [->|]; [tauto|].
    left. exists j. split; [lia|done].
  - intros [(j & Hj & H)|H]; [exists j; split; [lia|done]|].
    exists k. split; [lia|tauto].
Qed.

Lemma wrap_side_succ (cols k x y : Z) :
  0 ≤ k →
  wrap_side cols (k + 1) x y ↔
  wrap_side cols k x y ∨
  (x = k * cols ∧ y = k * cols + (cols - 1)) ∨ (x = k * cols + (cols - 1) ∧ y = k * cols).
Proof.
  intros Hk. unfold wrap_side. split.
  - intros (j & Hj & H). destruct (decide (j = k)) as [->|]; [tauto|].
    left. exists j. split; [lia|done].
  - intros [(j & Hj & H)|H]; [exists j; split; [lia|done]|].
    exists k. split; [lia|tauto].
Qed.

Lemma rect2d_boundary_exactly (rows cols : Z) (d : dict) (E : Z → Z → Prop) :
  1 ≤ rows → 1 ≤ cols →
  exactly d (rows * cols - 1) E →
  ∃ d', rect2d_boundary rows cols d = Ok d' ∧
        exactly d' (rows * cols - 1)
          (λ x y, E x y ∨ wrap_vertical rows cols cols x y ∨ wrap_side cols rows x y).
Proof.
  intros Hr Hc Hex. unfold rect2d_boundary.
  assert (cols ≤ rows * cols) as Hrc by nia.
  set (n := rows * cols - 1) in *.
  match goal with |- ∃ d', foldM ?body ?l ?s ≫= _ = _ ∧ _ =>
    destruct (foldM_inv
      (λ k e, exactly e n (λ x y, E x y ∨ wrap_vertical rows cols (Z.of_nat k) x y))
      body l s) as (d1 & -> & Hex1)
  end.
  { eapply exactly_iff; [|exact Hex]. intros x y. split; [tauto|].
    intros [H|(j & Hj & _)]; [done|lia]. }
  { intros k p e [-> [Hk _]]%zip_range_lookup Hex1.
    destruct (exactly_add_both e n _ (0 + Z.of_nat k) ((rows - 1) * cols + Z.of_nat k) Hex1)
      as (e' & -> & Hex2); [lia..|].
    eexists; split; [done|]. rewrite Nat2Z.inj_succ. unfold Z.succ.
    eapply exactly_iff; [|exact Hex2]. intros x y. cbv beta.
    rewrite wrap_vertical_succ by lia. rewrite Z.add_0_l. tauto. }
  simpl.
  assert (length (zip (range 0 cols) (range ((rows - 1) * cols) (rows * cols))) = Z.to_nat cols)
    as Hlen.
  { rewrite length_zip_with, !range_length. lia. }
  rewrite Hlen in *. clear Hlen.
  replace (Z.of_nat (Z.to_nat cols)) with cols in Hex1 by lia.
  match goal with |- ∃ d', foldM ?body ?l ?s = _ ∧ _ =>
    destruct (foldM_inv
      (λ k e, exactly e n (λ x y, E x y ∨ wrap_vertical rows cols cols x y
                                  ∨ wrap_side cols (Z.of_nat k) x y))
      body l s) as (d2 & -> & Hex2)
  end.
  { eapply exactly_iff; [|exact Hex1]. intros x y. split; [tauto|].
    intros [H|[H|(j & Hj & _)]]; [tauto|tauto|lia]. }
  { intros k m e [-> Hk]%range_lookup Hex2.
    assert (0 ≤ Z.of_nat k * cols) by nia.
    assert ((Z.of_nat k + 1) * cols ≤ rows * cols) by nia.
    destruct (exactly_add_both e n _ ((0 + Z.of_nat k) * cols)
                ((0 + Z.of_nat k) * cols + (cols - 1)) Hex2)
      as (e' & -> & Hex3); [lia..|].
    eexists; split; [done|]. rewrite Nat2Z.inj_succ. unfold Z.succ.
    eapply exactly_iff; [|exact Hex3]. intros x y. cbv beta.
    rewrite wrap_side_succ by lia. rewrite Z.add_0_l. tauto. }
  rewrite range_length in *.
  replace (Z.of_nat (Z.to_nat (rows - 0))) with rows in Hex2 by lia.
  eauto.
Qed.

Lemma grid_arc_coords (rows cols r c r' c' : Z) :
  0 ≤ r < rows → 0 ≤ c < cols → 0 ≤ r' < rows → 0 ≤ c' < cols →
  grid_arc cols (rows * cols) (rows * cols - 1) (r * cols + c) (r' * cols + c')
  ↔ von_neumann r c r' c'.
Proof.
  intros Hr Hc Hr' Hc'. unfold grid_arc, von_neumann.
  rewrite !mod_row by done.
  assert (0 ≤ r * cols ∧ r * cols + cols ≤ rows * cols) as [Hx0 Hx1] by nia.
  assert (0 ≤ r' * cols ∧ r' * cols + cols ≤ rows * cols) as [Hy0 Hy1] by nia.
  split.
  - intros (_ & _ & [[H _]|[[H _]|[[H [_ Hne]]|[H [_ Hne]]]]]).
    + destruct (coords_unique cols r' c' (r + 1) c) as [-> ->]; [done..|lia|lia].
    + destruct (coords_unique cols r c (r' + 1) c') as [-> ->]; [done..|lia|lia].
    + destruct (decide (c + 1 < cols)).
      * destruct (coords_unique cols r' c' r (c + 1)) as [-> ->]; [done|lia|lia|lia].
      * destruct (coords_unique cols r' c' (r + 1) 0) as [_ ->]; [done|lia|lia|done].
    + destruct (decide (c' + 1 < cols)).
      * destruct (coords_unique cols r c r' (c' + 1)) as [-> ->]; [done|lia|lia|lia].
      * destruct (coords_unique cols r c (r' + 1) 0) as [_ ->]; [done|lia|lia|done].
  - intros [[-> Hcc]|[-> Hrr]].
    + split; [lia|]. split; [lia|]. right. right. lia.
    + split; [lia|]. split; [lia|].
      destruct (decide (r' = r + 1)) as [->|]; [left; lia|].
      right. left. assert (r = r' + 1) as -> by lia. lia.
Qed.

Lemma wrap_vertical_coords (rows cols r c r' c' : Z) :
  0 ≤ r < rows → 0 ≤ c < cols → 0 ≤ r' < rows → 0 ≤ c' < cols →
  wrap_vertical rows cols cols (r * cols + c) (r' * cols + c')
  ↔ c = c' ∧ ((r = 0 ∧ r' = rows - 1) ∨ (r' = 0 ∧ r = rows - 1)).
Proof.
  intros Hr Hc Hr' Hc'. unfold wrap_vertical. split.
  - intros (j & Hj & [[H1 H2]|[H1 H2]]).
    + destruct (coords_unique cols r c 0 j) as [-> ->]; [done..|lia|].
      destruct (coords_unique cols r' c' (rows - 1) j) as [-> ->]; [done..|]. tauto.
    + destruct (coords_unique cols r' c' 0 j) as [-> ->]; [done..|lia|].
      destruct (coords_unique cols r c (rows - 1) j) as [-> ->]; [done..|]. tauto.
  - intros [-> [[-> ->]|[-> ->]]]; exists c'; (split; [done|]); [left|right]; lia.
Qed.

Lemma wrap_side_coords (rows cols r c r' c' : Z) :
  0 ≤ r < rows → 0 ≤ c < cols → 0 ≤ r' < rows → 0 ≤ c' < cols →
  wrap_side cols rows (r * cols + c) (r' * cols + c')
  ↔ r = r' ∧ ((c = 0 ∧ c' = cols - 1) ∨ (c' = 0 ∧ c = cols - 1)).
Proof.
  intros Hr Hc Hr' Hc'. unfold wrap_side. split.
  - intros (m & Hm & [[H1 H2]|[H1 H2]]).
    + destruct (coords_unique cols r c m 0) as [-> ->]; [done|lia|lia|].
      destruct (coords_unique cols r' c' m (cols - 1)) as [-> ->]; [done|lia|lia|]. tauto.
    + destruct (coords_unique cols r' c' m 0) as [-> ->]; [done|lia|lia|].
      destruct (coords_unique cols r c m (cols - 1)) as [-> ->]; [done|lia|lia|]. tauto.
  - intros [-> [[-> ->]|[-> ->]]]; exists r'; (split; [done|]); [left|right]; lia.
Qed.

(** X18.  The rectangular generator builds exactly the 4-neighbor grid on
    row-major identifiers, and with boundary adjustment exactly that grid
    wrapped to a torus: all neighbors lie in [0..rows*cols-1], and node
    [r'*cols + c'] is a neighbor of node [r*cols + c] precisely when the
    two positions are adjacent in a row or in a column, or (wrapped) are
    the two ends of the same column or of the same row. *)
Theorem rect2d_adjacency (dflt : init_defaults) (rows cols : Z) (b : bool) :
  1 ≤ rows → 1 ≤ cols →
  ∃ g, rect2d_to_pairwise_von_neumann_neighborhood dflt rows cols b = Ok g ∧
       (∀ x y, y ∈ get_neighbors g x → 0 ≤ x < rows * cols ∧ 0 ≤ y < rows * cols) ∧
       ∀ r c r' c', 0 ≤ r < rows → 0 ≤ c < cols → 0 ≤ r' < rows → 0 ≤ c' < cols →
         (r' * cols + c' ∈ get_neighbors g (r * cols + c) ↔
          if b then von_neumann_torus rows cols r c r' c' else von_neumann r c r' c').
Proof.
  intros Hr Hc.
  unfold rect2d_to_pairwise_von_neumann_neighborhood, rect2d_von_neumann_neighborhood.
  destruct (rect2d_grid_exactly rows cols Hr Hc) as (d & i & Hd & Hex).
  destruct (rect2d_von_neumann_neighborhood_spec rows cols b Hr Hc) as (d0 & Hd0 & _ & Hs & _).
  unfold rect2d_von_neumann_neighborhood in Hd0.
  apply bind_Ok in Hd as (st & Hst & Hd). rewrite Hst in *. simpl in *.
  rewrite Hd in *. simpl in *.
  assert (∀ e E, exactly e (rows * cols - 1) E → symmetric e →
                 ∀ x y, adj e x y → 0 ≤ x < rows * cols ∧ 0 ≤ y < rows * cols) as Hrange.
  { intros e E He Hse x y Hxy. split.
    - apply adj_dom in Hxy. apply (exactly_dom _ _ _ He) in Hxy. lia.
    - apply Hse, adj_dom in Hxy. apply (exactly_dom _ _ _ He) in Hxy. lia. }
  destruct b.
  - destruct (rect2d_boundary_exactly rows cols d _ Hr Hc Hex) as (d' & Hd' & Hex').
    rewrite Hd' in *. injection Hd0 as <-. simpl.
    eexists; split; [done|]. split.
    + intros x y Hxy%elem_of_get_neighbors. by eapply Hrange.
    + intros r c r' c' Hr1 Hc1 Hr2 Hc2. rewrite elem_of_get_neighbors. simpl.
      rewrite (exactly_adj _ _ _ Hex'). unfold von_neumann_torus.
      by rewrite grid_arc_coords, wrap_vertical_coords, wrap_side_coords.
  - injection Hd0 as <-. eexists; split; [done|]. split.
    + intros x y Hxy%elem_of_get_neighbors. by eapply Hrange.
    + intros r c r' c' Hr1 Hc1 Hr2 Hc2. rewrite elem_of_get_neighbors. simpl.
      rewrite (exactly_adj _ _ _ Hex). by apply grid_arc_coords.
Qed.

Lemma rect2d_adjacency_witness :
  1 ≤ 3 ∧ 1 ≤ 4 ∧
  ∃ g, rect2d_to_pairwise_von_neumann_neighborhood fresh_defaults 3 4 true = Ok g ∧
       (2 * 4 + 1 ∈ get_neighbors g (0 * 4 + 1) ↔ von_neumann_torus 3 4 0 1 2 1).
Proof.
  split; [lia|]. split; [lia|].
  destruct (rect2d_adjacency fresh_defaults 3 4 true) as (g & Hg & _ & Hadj); [lia|lia|].
  exists g. split; [exact Hg|]. apply (Hadj 0 1 2 1); lia.
Defined.

(** ** The hexagonal generator, exactly *)

Lemma hex_up_at (cols m k y : Z) :
  1 ≤ cols → 1 ≤ m → 0 ≤ k < cols →
  hex_up cols (m * cols + k) y ↔
  (m mod 2 = 1 ∧ (y = m * cols + k - cols ∨ (y = m * cols + k - cols + 1 ∧ k ≠ cols - 1))) ∨
  (m mod 2 = 0 ∧ (y = m * cols + k - cols ∨ (y = m * cols + k - cols - 1 ∧ k ≠ 0))).
Proof.
  intros Hc Hm Hk. unfold hex_up.
  rewrite Z.div_add_l, Z.div_small, Z.add_0_r, mod_row by lia.
  assert (cols ≤ m * cols + k) by nia. tauto.
Qed.

Lemma hex_arc_right (cols t j x y : Z) :
  0 ≤ j → (j + 1) mod cols ≠ 0 →
  hex_arc cols t j x y ∨ (x = j ∧ y = j + 1) ∨ (x = j + 1 ∧ y = j)
  ↔ hex_arc cols t (j + 1) x y.
Proof.
  intros Hj Hm. unfold hex_arc. split.
  - intros [(Hx & Hy & [H|[H|[H|H]]])|[[-> ->]|[-> ->]]].
    + split; [done|]. split; [done|]. by left.
    + split; [done|]. split; [done|]. right. by left.
    + split; [done|]. split; [done|]. right. right. left. lia.
    + split; [done|]. split; [done|]. right. right. right. lia.
    + split; [lia|]. split; [lia|]. right. right. left. done.
    + split; [lia|]. split; [lia|]. right. right. right. done.
  - intros (Hx & Hy & [H|[H|[H|H]]]).
    + left. split; [done|]. split; [done|]. by left.
    + left. split; [done|]. split; [done|]. right. by left.
    + destruct (decide (y = j + 1)) as [->|]; [right; left; lia|].
      left. split; [done|]. split; [done|]. right. right. left. lia.
    + destruct (decide (x = j + 1)) as [->|]; [right; right; lia|].
      left. split; [done|]. split; [done|]. right. right. right. lia.
Qed.

Lemma hex_arc_new_row (cols t i x y : Z) :
  (i + 1) mod cols = 0 →
  hex_arc cols t i x y ↔ hex_arc cols t (i + 1) x y.
Proof.
  intros Hm. unfold hex_arc. split.
  - intros (Hx & Hy & [H|[H|[H|H]]]); (split; [done|]); (split; [done|]).
    + by left.
    + right. by left.
    + right. right. left. lia.
    + right. right. right. lia.
  - intros (Hx & Hy & [H|[H|[[-> [Hle Hne]]|[-> [Hle Hne]]]]]);
      (split; [done|]); (split; [done|]).
    + by left.
    + right. by left.
    + right. right. left.
      destruct (decide (x + 1 = i + 1)) as [Heq|]; [rewrite Heq in Hne; done|lia].
    + right. right. right.
      destruct (decide (y + 1 = i + 1)) as [Heq|]; [rewrite Heq in Hne; done|lia].
Qed.

(** Node [t] receives its upward arcs, to the nodes in [U]. *)
Lemma hex_arc_ups (cols t i x y : Z) (U : Z → Prop) :
  0 ≤ t → (∀ u, hex_up cols t u ↔ U u) → (∀ u, U u → 0 ≤ u) →
  hex_arc cols t i x y ∨ (x = t ∧ U y) ∨ (y = t ∧ U x)
  ↔ hex_arc cols (t + 1) i x y.
Proof.
  intros Ht HU Hpos. unfold hex_arc. split.
  - intros [(Hx & Hy & [[H Hlt]|[[H Hlt]|[H|H]]])|[[-> Hu]|[-> Hu]]].
    + split; [done|]. split; [done|]. left. split; [done|lia].
    + split; [done|]. split; [done|]. right. left. split; [done|lia].
    + split; [done|]. split; [done|]. right. right. by left.
    + split; [done|]. split; [done|]. right. right. by right.
    + split; [done|]. split; [by apply Hpos|]. left. split; [by apply HU|lia].
    + split; [by apply Hpos|]. split; [done|]. right. left. split; [by apply HU|lia].
  - intros (Hx & Hy & [[H Hlt]|[[H Hlt]|[H|H]]]).
    + destruct (decide (x = t)) as [->|]; [right; left; split; [done|by apply HU]|].
      left. split; [done|]. split; [done|]. left. split; [done|lia].
    + destruct (decide (y = t)) as [->|]; [right; right; split; [done|by apply HU]|].
      left. split; [done|]. split; [done|]. right. left. split; [done|lia].
    + left. split; [done|]. split; [done|]. right. right. by left.
    + left. split; [done|]. split; [done|]. right. right. by right.
Qed.

(** The same, with the arcs in the form the code adds them: one upward
    arc, or two. *)
Lemma hex_arc_up1 (cols t i a x y : Z) :
  0 ≤ t → 0 ≤ a → (∀ u, hex_up cols t u ↔ u = a) →
  hex_arc cols t i x y ∨ (x = t ∧ y = a) ∨ (x = a ∧ y = t)
  ↔ hex_arc cols (t + 1) i x y.
Proof.
  intros Ht Ha HU.
  rewrite <- (hex_arc_ups cols t i x y (λ u, u = a)); [|done|done|by intros u ->].
  split; intros [H|[[? ?]|[? ?]]]; auto.
Qed.

Lemma hex_arc_up2 (cols t i a b x y : Z) :
  0 ≤ t → 0 ≤ a → 0 ≤ b → (∀ u, hex_up cols t u ↔ u = a ∨ u = b) →
  (hex_arc cols t i x y ∨ (x = t ∧ y = a) ∨ (x = a ∧ y = t))
  ∨ (x = t ∧ y = b) ∨ (x = b ∧ y = t)
  ↔ hex_arc cols (t + 1) i x y.
Proof.
  intros Ht Ha Hb HU.
  rewrite <- (hex_arc_ups cols t i x y (λ u, u = a ∨ u = b));
    [|done|done|by intros u [->| ->]].
  split.
  - intros [[H|[[? ?]|[? ?]]]|[[? ?]|[? ?]]]; auto.
  - intros [H|[[? [?|?]]|[? [?|?]]]]; auto 6.
Qed.

Lemma hex2d_row_exactly (cols m : Z) (d : dict) (i : Z) :
  2 ≤ cols → 1 ≤ m → i + 1 = m * cols →
  exactly d i (hex_arc cols (i + 1) i) →
  ∃ d', hex2d_row cols m (d, i) = Ok (d', i + cols) ∧
        exactly d' (i + cols) (hex_arc cols (i + cols + 1) (i + cols)).
Proof.
  intros Hc Hm Hi0 Hex. unfold hex2d_row.
  assert (cols - 1 ≤ i) as Hi by nia.
  assert (exactly (<[i + 1 := ∅]> d) (i + 1) (hex_arc cols (i + 1) (i + 1))) as Hex1.
  { eapply exactly_iff; [|apply (exactly_new_node d i _ Hex); lia].
    intros x y. apply hex_arc_new_row. rewrite Hi0. apply Z.mod_mul. lia. }
  assert (∀ k u, 0 ≤ k < cols → hex_up cols (i + 1 + k) u ↔
    (m mod 2 = 1 ∧ (u = i + 1 + k - cols ∨ (u = i + 1 + k - cols + 1 ∧ k ≠ cols - 1))) ∨
    (m mod 2 = 0 ∧ (u = i + 1 + k - cols ∨ (u = i + 1 + k - cols - 1 ∧ k ≠ 0)))) as Hup.
  { intros k u Hk. rewrite Hi0. by apply hex_up_at; [lia|..]. }
  assert (∀ k, 0 ≤ k → k + 1 < cols → (i + 1 + k + 1) mod cols ≠ 0) as Hmod.
  { intros k Hk0 Hk. replace (i + 1 + k + 1) with (m * cols + (k + 1)) by lia.
    rewrite mod_row; lia. }
  pose proof (Z.mod_pos_bound m 2) as Hm2.
  destruct (decide (m mod 2 = 1)) as [Hodd|Hodd];
    destruct (decide (m mod 2 = 0)) as [Hev|Hev]; try lia.
  - (* odd row *)
    simpl.
    match goal with |- ∃ d', foldM ?body ?l ?s ≫= _ = _ ∧ _ =>
      destruct (foldM_inv
        (λ k st, st.2 = i + 1 + Z.of_nat k ∧ exactly st.1 st.2 (hex_arc cols st.2 st.2))
        body l s) as ([d2 j] & -> & Hj & Hex2)
    end.
    { simpl. split; [lia|done]. }
    { intros k v [e j] [_ Hk]%range_lookup [Hj Hex2]. simpl in Hj, Hex2.
      destruct (exactly_add_both e j _ j (j - cols) Hex2) as (e1 & -> & Hex3); [lia..|].
      simpl.
      destruct (exactly_add_both e1 j _ j (j - cols + 1) Hex3) as (e2 & -> & Hex4); [lia..|].
      simpl.
      destruct (exactly_add_right e2 j _ Hex4) as (e3 & -> & Hex5); [lia|].
      simpl. eexists; split; [done|]. simpl. split; [lia|].
      eapply exactly_iff; [|exact Hex5]. intros x y. cbv beta.
      rewrite hex_arc_up2; [|lia|lia|lia|].
      - apply hex_arc_right; [lia|]. subst j. apply Hmod; lia.
      - intros u. subst j. rewrite Hup by lia. lia. }
    rewrite range_length in *. simpl in Hj, Hex2. simpl.
    replace (Z.of_nat (Z.to_nat (cols - 1 - 0))) with (cols - 1) in * by lia.
    destruct (exactly_add_both d2 j _ j (j - cols) Hex2) as (d3 & -> & Hex3); [lia..|].
    simpl. replace (i + cols) with j by lia. eexists; split; [done|].
    eapply exactly_iff; [|exact Hex3]. intros x y. cbv beta.
    apply hex_arc_up1; [lia|lia|].
    intros u. subst j. rewrite Hup by lia. lia.
  - (* even row *)
    simpl.
    destruct (exactly_add_both _ (i + 1) _ (i + 1) (i + 1 - (cols + 1) + 1) Hex1)
      as (e1 & -> & Hex2); [lia..|].
    simpl.
    destruct (exactly_add_right e1 (i + 1) _ Hex2) as (e2 & -> & Hex3); [lia|].
    simpl.
    assert (exactly e2 (i + 1 + 1) (hex_arc cols (i + 1 + 1) (i + 1 + 1))) as Hex4.
    { eapply exactly_iff; [|exact Hex3]. intros x y. cbv beta.
      rewrite hex_arc_up1; [|lia|lia|].
      - apply hex_arc_right; [lia|]. specialize (Hmod 0). rewrite Z.add_0_r in Hmod.
        apply Hmod; lia.
      - intros u. specialize (Hup 0 u). rewrite Z.add_0_r in Hup. rewrite Hup by lia. lia. }
    match goal with |- ∃ d', foldM ?body ?l ?s ≫= _ = _ ∧ _ =>
      destruct (foldM_inv
        (λ k st, st.2 = i + 2 + Z.of_nat k ∧ exactly st.1 st.2 (hex_arc cols st.2 st.2))
        body l s) as ([d2 j] & -> & Hj & Hex5)
    end.
    { simpl. split; [lia|done]. }
    { intros k v [e j] [_ Hk]%range_lookup [Hj Hex5]. simpl in Hj, Hex5.
      destruct (exactly_add_both e j _ j (j - (cols + 1)) Hex5) as (e3 & -> & Hex6); [lia..|].
      simpl.
      destruct (exactly_add_both e3 j _ j (j - (cols + 1) + 1) Hex6)
        as (e4 & -> & Hex7); [lia..|].
      simpl.
      destruct (exactly_add_right e4 j _ Hex7) as (e5 & -> & Hex8); [lia|].
      simpl. eexists; split; [done|]. simpl. split; [lia|].
      eapply exactly_iff; [|exact Hex8]. intros x y. cbv beta.
      rewrite hex_arc_up2; [|lia|lia|lia|].
      - apply hex_arc_right; [lia|].
        replace j with (i + 1 + (Z.of_nat k + 1)) by lia. apply Hmod; lia.
      - intros u. replace j with (i + 1 + (Z.of_nat k + 1)) by lia.
        rewrite Hup by lia. lia. }
    rewrite range_length in *. simpl in Hj, Hex5. simpl.
    replace (Z.of_nat (Z.to_nat (cols - 1 - 1))) with (cols - 2) in * by lia.
    destruct (exactly_add_both d2 j _ j (j - (cols + 1)) Hex5) as (d3 & -> & Hex6); [lia..|].
    simpl.
    destruct (exactly_add_both d3 j _ j (j - (cols + 1) + 1) Hex6) as (d4 & -> & Hex7); [lia..|].
    simpl. replace (i + cols) with j by lia. eexists; split; [done|].
    eapply exactly_iff; [|exact Hex7]. intros x y. cbv beta.
    apply hex_arc_up2; [lia|lia|lia|].
    intros u. replace j with (i + 1 + (cols - 1)) by lia. rewrite Hup by lia. lia.
Qed.

Lemma hex2d_grid_exactly (rows cols : Z) :
  1 ≤ rows → 2 ≤ cols →
  ∃ d i, first_row cols ≫= foldM (hex2d_row cols) (range 1 rows) = Ok (d, i) ∧
         exactly d (rows * cols - 1) (hex_arc cols (rows * cols) (rows * cols - 1)).
Proof.
  intros Hr Hc.
  destruct (first_row_exactly cols) as (d0 & -> & Hex0); [lia|]. simpl.
  destruct (foldM_inv
    (λ k st, st.2 = (Z.of_nat k + 1) * cols - 1 ∧
             exactly st.1 st.2 (hex_arc cols (st.2 + 1) st.2))
    (hex2d_row cols) (range 1 rows) (d0, cols - 1)) as ([d i] & -> & Hi & Hex).
  { simpl. split; [lia|]. eapply exactly_iff; [|exact Hex0].
    intros x y. unfold grid_arc, hex_arc. split.
    - intros (Hx & Hy & [H|[H|[H|H]]]); [lia|lia|..]; (split; [done|]); (split; [done|]).
      + right. right. left. lia.
      + right. right. right. lia.
    - intros (Hx & Hy & [[[Hle _] Hlt]|[[[Hle _] Hlt]|[H|H]]]); [lia|lia|..];
        (split; [done|]); (split; [done|]).
      + right. right. left. lia.
      + right. right. right. lia. }
  { intros k v [e j] [-> Hk]%range_lookup (Hj & Hex). simpl in Hj, Hex.
    destruct (hex2d_row_exactly cols (1 + Z.of_nat k) e j)
      as (e' & -> & Hex'); [lia|lia|lia|done|].
    eexists; split; [done|]. simpl. split; [lia|done]. }
  rewrite range_length in *. simpl in Hi, Hex.
  replace (Z.of_nat (Z.to_nat (rows - 1))) with (rows - 1) in * by lia.
  exists d, i. split; [done|].
  replace (rows * cols - 1) with i by lia.
  by replace (rows * cols) with (i + 1) by lia.
Qed.

Lemma hex_up_coords (cols r c r' c' : Z) :
  1 ≤ cols → 0 ≤ r → 0 ≤ c < cols → 0 ≤ r' → 0 ≤ c' < cols →
  hex_up cols (r * cols + c) (r' * cols + c') ↔ hex_upward r c r' c'.
Proof.
  intros Hcols Hr Hc Hr' Hc'. unfold hex_upward.
  destruct (decide (1 ≤ r)) as [Hr1|Hr0].
  - rewrite hex_up_at by lia. split.
    + intros [[Hp [H|[H Hne]]]|[Hp [H|[H Hne]]]].
      * destruct (coords_unique cols r' c' (r - 1) c) as [-> ->]; [done..|lia|tauto].
      * destruct (coords_unique cols r' c' (r - 1) (c + 1)) as [-> ->]; [done|lia|lia|tauto].
      * destruct (coords_unique cols r' c' (r - 1) c) as [-> ->]; [done..|lia|tauto].
      * destruct (coords_unique cols r' c' (r - 1) (c - 1)) as [-> ->]; [done|lia|lia|tauto].
    + intros [-> [[Hp [-> | ->]]|[Hp [-> | ->]]]].
      * left. split; [done|]. left. lia.
      * left. split; [done|]. right. lia.
      * right. split; [done|]. left. lia.
      * right. split; [done|]. right. lia.
  - assert (r = 0) as -> by lia. split.
    + intros [Hle _]. lia.
    + intros [-> _]. lia.
Qed.

Lemma hex_arc_coords (rows cols r c r' c' : Z) :
  1 ≤ cols → 0 ≤ r < rows → 0 ≤ c < cols → 0 ≤ r' < rows → 0 ≤ c' < cols →
  hex_arc cols (rows * cols) (rows * cols - 1) (r * cols + c) (r' * cols + c')
  ↔ hex_neighbors r c r' c'.
Proof.
  intros Hcols Hr Hc Hr' Hc'. unfold hex_arc, hex_neighbors.
  rewrite !hex_up_coords by lia. rewrite !mod_row by done.
  assert (0 ≤ r * cols ∧ r * cols + cols ≤ rows * cols) as [Hx0 Hx1] by nia.
  assert (0 ≤ r' * cols ∧ r' * cols + cols ≤ rows * cols) as [Hy0 Hy1] by nia.
  split.
  - intros (_ & _ & [[H _]|[[H _]|[[H [_ Hne]]|[H [_ Hne]]]]]); [tauto|tauto|..].
    + left. destruct (decide (c + 1 < cols)).
      * destruct (coords_unique cols r' c' r (c + 1)) as [-> ->]; [done|lia|lia|lia].
      * destruct (coords_unique cols r' c' (r + 1) 0) as [_ ->]; [done|lia|lia|done].
    + left. destruct (decide (c' + 1 < cols)).
      * destruct (coords_unique cols r c r' (c' + 1)) as [-> ->]; [done|lia|lia|lia].
      * destruct (coords_unique cols r c (r' + 1) 0) as [_ ->]; [done|lia|lia|done].
  - intros [[-> Hcc]|[H|H]].
    + split; [lia|]. split; [lia|]. right. right. lia.
    + split; [lia|]. split; [lia|]. left. split; [done|lia].
    + split; [lia|]. split; [lia|]. right. left. split; [done|lia].
Qed.

(** X19.  Without boundary adjustment, and with at least two columns, the
    hexagonal generator builds exactly the offset ("brick-wall") hexagonal
    grid on row-major identifiers: all neighbors lie in
    [0..rows*cols-1], and node [r'*cols + c'] is a neighbor of node
    [r*cols + c] precisely when the positions are adjacent in a row, or
    one is in the row above the other, in the same column or in the
    column to the right (below an odd row) or to the left (below an even
    row). *)
Theorem hex2d_adjacency (dflt : init_defaults) (rows cols : Z) :
  1 ≤ rows → 2 ≤ cols →
  ∃ g, hex2d_to_pairwise_neighborhood dflt rows cols false = Ok g ∧
       (∀ x y, y ∈ get_neighbors g x → 0 ≤ x < rows * cols ∧ 0 ≤ y < rows * cols) ∧
       ∀ r c r' c', 0 ≤ r < rows → 0 ≤ c < cols → 0 ≤ r' < rows → 0 ≤ c' < cols →
         (r' * cols + c' ∈ get_neighbors g (r * cols + c) ↔ hex_neighbors r c r' c').
Proof.
  intros Hr Hc.
  unfold hex2d_to_pairwise_neighborhood, hex2d_neighborhood.
  destruct (hex2d_grid_exactly rows cols Hr Hc) as (d & i & Hd & Hex).
  apply bind_Ok in Hd as (st & -> & Hd). simpl. rewrite Hd. simpl.
  eexists; split; [done|]. split.
  - intros x y Hxy%elem_of_get_neighbors. simpl in Hxy.
    pose proof (proj1 (exactly_adj _ _ _ Hex x y) Hxy) as Harc.
    assert (adj d y x) as Hyx.
    { apply (exactly_adj _ _ _ Hex). unfold hex_arc in *. tauto. }
    apply adj_dom in Hxy, Hyx. apply (exactly_dom _ _ _ Hex) in Hxy, Hyx. lia.
  - intros r c r' c' Hr1 Hc1 Hr2 Hc2. rewrite elem_of_get_neighbors. simpl.
    rewrite (exactly_adj _ _ _ Hex). apply hex_arc_coords; lia.
Qed.

Lemma hex2d_adjacency_witness :
  1 ≤ 4 ∧ 2 ≤ 4 ∧
  ∃ g, hex2d_to_pairwise_neighborhood fresh_defaults 4 4 false = Ok g ∧
       (0 * 4 + 2 ∈ get_neighbors g (1 * 4 + 1) ↔ hex_neighbors 1 1 0 2).
Proof.
  split; [lia|]. split; [lia|].
  destruct (hex2d_adjacency fresh_defaults 4 4) as (g & Hg & _ & Hadj); [lia|lia|].
  exists g. split; [exact Hg|]. apply (Hadj 1 1 0 2); lia.
Defined.

(** ** The hexagonal wrap, exactly *)

Lemma hex_wrap_top_succ (rows cols k x y : Z) :
  0 ≤ k →
  hex_wrap_top rows cols (k + 1) x y ↔
  hex_wrap_top rows cols k x y ∨
  (pair_is x y k ((rows - 1) * cols + (if decide (k = 0) then cols - 1 else k - 1)) ∨
   pair_is x y k ((rows - 1) * cols + k)).
Proof.
  intros Hk. unfold hex_wrap_top. split.
  - intros (j & Hj & H). destruct (decide (j = k)) as [->|]; [by right|].
    left. exists j. split; [lia|done].
  - intros [(j & Hj & H)|H]; [exists j; split; [lia|done]|].
    exists k. split; [lia|done].
Qed.

Lemma hex_wrap_rows_succ (cols k x y : Z) :
  1 ≤ k →
  hex_wrap_rows cols (k + 1) x y ↔
  hex_wrap_rows cols k x y ∨
  (pair_is x y (k * cols) (k * cols + (cols - 1)) ∨
   (k mod 2 = 1 ∧ pair_is x y (k * cols + (cols - 1)) ((k - 1) * cols)) ∨
   (k mod 2 ≠ 1 ∧ pair_is x y (k * cols) (k * cols - 1))).
Proof.
  intros Hk. unfold hex_wrap_rows. split.
  - intros (j & Hj & H). destruct (decide (j = k)) as [->|]; [by right|].
    left. exists j. split; [lia|done].
  - intros [(j & Hj & H)|H]; [exists j; split; [lia|done]|].
    exists k. split; [lia|done].
Qed.

Lemma hex2d_boundary_exactly (rows cols : Z) (d : dict) (E : Z → Z → Prop) :
  1 ≤ rows → 1 ≤ cols → rows mod 2 = 0 →
  exactly d (rows * cols - 1) E →
  ∃ d', hex2d_boundary rows cols d = Ok d' ∧
        exactly d' (rows * cols - 1)
          (λ x y, E x y ∨ hex_wrap_top rows cols cols x y ∨ pair_is x y 0 (cols - 1)
                  ∨ hex_wrap_rows cols rows x y).
Proof.
  intros Hr Hc Hev Hex. unfold hex2d_boundary.
  rewrite decide_False by (intros ?; done).
  assert (2 ≤ rows) as Hr2.
  { destruct (decide (rows = 1)) as [->|]; [done|lia]. }
  assert (cols ≤ (rows - 1) * cols) as Hrc by nia.
  set (n := rows * cols - 1) in *.
  match goal with |- ∃ d', foldM ?body ?l ?s ≫= _ = _ ∧ _ =>
    destruct (foldM_inv
      (λ k e, exactly e n (λ x y, E x y ∨ hex_wrap_top rows cols (Z.of_nat k) x y))
      body l s) as (d1 & -> & Hex1)
  end.
  { eapply exactly_iff; [|exact Hex]. intros x y. split; [tauto|].
    intros [H|(j & Hj & _)]; [done|lia]. }
  { intros k p e [-> Hk]%enumerate_range_lookup Hex1.
    rewrite !list_getitem_range by lia. simpl.
    rewrite (decide_False (P := Z.of_nat k < 0)) by lia.
    assert (∀ t, 0 ≤ t < cols →
      ∃ e2, (add_both e (0 + Z.of_nat k) ((rows - 1) * cols + t) ≫=
             λ e1, add_both e1 (0 + Z.of_nat k) ((rows - 1) * cols + Z.of_nat k)) = Ok e2 ∧
            exactly e2 n
              (λ x y, (E x y ∨ hex_wrap_top rows cols (Z.of_nat k) x y) ∨
                      pair_is x y (Z.of_nat k) ((rows - 1) * cols + t) ∨
                      pair_is x y (Z.of_nat k) ((rows - 1) * cols + Z.of_nat k)))
      as Hstep.
    { intros t Ht.
      destruct (exactly_add_both e n _ (0 + Z.of_nat k) ((rows - 1) * cols + t) Hex1)
        as (e1 & -> & Hex2); [lia..|].
      simpl.
      destruct (exactly_add_both e1 n _ (0 + Z.of_nat k) ((rows - 1) * cols + Z.of_nat k) Hex2)
        as (e2 & -> & Hex3); [lia..|].
      exists e2. split; [done|]. eapply exactly_iff; [|exact Hex3].
      intros x y. cbv beta. unfold pair_is. rewrite !Z.add_0_l. tauto. }
    rewrite Nat2Z.inj_succ. unfold Z.succ.
    destruct (decide (Z.of_nat k - 1 < 0)) as [H0|H0].
    - destruct (Hstep (Z.of_nat k - 1 + (rows * cols - (rows - 1) * cols)))
        as (e2 & -> & Hex3); [lia|].
      exists e2. split; [done|]. eapply exactly_iff; [|exact Hex3].
      intros x y. cbv beta. rewrite hex_wrap_top_succ by lia.
      rewrite decide_True by lia.
      replace ((rows - 1) * cols + (Z.of_nat k - 1 + (rows * cols - (rows - 1) * cols)))
        with ((rows - 1) * cols + (cols - 1)) by lia.
      tauto.
    - destruct (Hstep (Z.of_nat k - 1)) as (e2 & -> & Hex3); [lia|].
      exists e2. split; [done|]. eapply exactly_iff; [|exact Hex3].
      intros x y. cbv beta. rewrite hex_wrap_top_succ by lia.
      rewrite decide_False by lia. tauto. }
  simpl.
  assert (length (enumerate (range 0 cols)) = Z.to_nat cols) as Hlen.
  { unfold enumerate. rewrite length_zip_with, length_seqZ, !range_length. lia. }
  rewrite Hlen in *. clear Hlen.
  replace (Z.of_nat (Z.to_nat cols)) with cols in Hex1 by lia.
  destruct (exactly_add_both d1 n _ 0 (cols - 1) Hex1) as (d2 & -> & Hex2); [lia..|].
  simpl.
  match goal with |- ∃ d', foldM ?body ?l ?s = _ ∧ _ =>
    destruct (foldM_inv
      (λ k e, exactly e n (λ x y, E x y ∨ hex_wrap_top rows cols cols x y
                                  ∨ pair_is x y 0 (cols - 1)
                                  ∨ hex_wrap_rows cols (1 + Z.of_nat k) x y))
      body l s) as (d3 & -> & Hex3)
  end.
  { eapply exactly_iff; [|exact Hex2]. intros x y. cbv beta. unfold pair_is. split; [tauto|].
    intros [H|[H|[H|(j & Hj & _)]]]; [tauto|tauto|tauto|lia]. }
  { intros k m e [-> Hk]%range_lookup Hex3.
    assert (0 ≤ Z.of_nat k * cols) by nia.
    assert ((Z.of_nat k + 2) * cols ≤ rows * cols) by nia.
    destruct (exactly_add_both e n _ ((1 + Z.of_nat k) * cols)
                ((1 + Z.of_nat k) * cols + (cols - 1)) Hex3)
      as (e1 & -> & Hex4); [lia..|].
    simpl.
    assert (∃ e2,
      (if decide ((1 + Z.of_nat k) mod 2 = 1)
       then add_both e1 ((1 + Z.of_nat k) * cols + (cols - 1)) ((1 + Z.of_nat k - 1) * cols)
       else add_both e1 ((1 + Z.of_nat k) * cols) ((1 + Z.of_nat k) * cols - 1)) = Ok e2 ∧
      exactly e2 n (λ x y, E x y ∨ hex_wrap_top rows cols cols x y
                           ∨ pair_is x y 0 (cols - 1)
                           ∨ hex_wrap_rows cols (1 + Z.of_nat (S k)) x y)) as (e2 & He2 & Hex5).
    { replace (1 + Z.of_nat (S k)) with (1 + Z.of_nat k + 1) by lia.
      destruct (decide ((1 + Z.of_nat k) mod 2 = 1)) as [Hodd|Hodd].
      - destruct (exactly_add_both e1 n _ ((1 + Z.of_nat k) * cols + (cols - 1))
                    ((1 + Z.of_nat k - 1) * cols) Hex4) as (e2 & -> & Hex5); [lia..|].
        exists e2. split; [done|]. eapply exactly_iff; [|exact Hex5].
        intros x y. cbv beta. rewrite hex_wrap_rows_succ by lia. unfold pair_is. tauto.
      - destruct (exactly_add_both e1 n _ ((1 + Z.of_nat k) * cols)
                    ((1 + Z.of_nat k) * cols - 1) Hex4) as (e2 & -> & Hex5); [lia..|].
        exists e2. split; [done|]. eapply exactly_iff; [|exact Hex5].
        intros x y. cbv beta. rewrite hex_wrap_rows_succ by lia. unfold pair_is. tauto. }
    exists e2. split; [exact He2|exact Hex5]. }
  rewrite range_length in *.
  replace (1 + Z.of_nat (Z.to_nat (rows - 1))) with rows in Hex3 by lia.
  eauto.
Qed.

Lemma pair_is_coords (cols r c r' c' a b a' b' X Y : Z) :
  0 ≤ c < cols → 0 ≤ c' < cols → 0 ≤ b < cols → 0 ≤ b' < cols →
  X = a * cols + b → Y = a' * cols + b' →
  pair_is (r * cols + c) (r' * cols + c') X Y ↔
  (r = a ∧ c = b ∧ r' = a' ∧ c' = b') ∨ (r = a' ∧ c = b' ∧ r' = a ∧ c' = b).
Proof.
  intros Hc Hc' Hb Hb' -> ->. unfold pair_is. split.
  - intros [[H1 H2]|[H1 H2]].
    + apply coords_unique in H1 as [-> ->]; [|done..].
      apply coords_unique in H2 as [-> ->]; [|done..]. tauto.
    + apply coords_unique in H1 as [-> ->]; [|done..].
      apply coords_unique in H2 as [-> ->]; [|done..]. tauto.
  - intros [(-> & -> & -> & ->)|(-> & -> & -> & ->)]; tauto.
Qed.

Lemma pair_is_sym (x y a b : Z) : pair_is x y a b → pair_is y x a b.
Proof. unfold pair_is. tauto. Qed.

Lemma hex_wrap_arcs_sym (rows cols x y : Z) :
  hex_wrap_top rows cols cols x y ∨ pair_is x y 0 (cols - 1) ∨ hex_wrap_rows cols rows x y →
  hex_wrap_top rows cols cols y x ∨ pair_is y x 0 (cols - 1) ∨ hex_wrap_rows cols rows y x.
Proof.
  intros [(j & Hj & [H|H])|[H|(m & Hm & [H|[[Hp H]|[Hp H]]])]].
  - left. exists j. split; [done|]. left. by apply pair_is_sym.
  - left. exists j. split; [done|]. right. by apply pair_is_sym.
  - right. left. by apply pair_is_sym.
  - right. right. exists m. split; [done|]. left. by apply pair_is_sym.
  - right. right. exists m. split; [done|]. right. left. split; [done|]. by apply pair_is_sym.
  - right. right. exists m. split; [done|]. right. right. split; [done|]. by apply pair_is_sym.
Qed.

Lemma hex_wrap_arcs_of_coords (rows cols r c r' c' : Z) :
  2 ≤ cols → 0 ≤ r < rows → 0 ≤ c < cols → 0 ≤ r' < rows → 0 ≤ c' < cols →
  hex_wrap rows cols r c r' c' →
  hex_wrap_top rows cols cols (r * cols + c) (r' * cols + c')
  ∨ pair_is (r * cols + c) (r' * cols + c') 0 (cols - 1)
  ∨ hex_wrap_rows cols rows (r * cols + c) (r' * cols + c').
Proof.
  intros Hcols Hr Hc Hr' Hc'. unfold hex_wrap, pair_is.
  intros [(-> & -> & [->|[->|[-> ->]]])|[(-> & -> & ->)|[(-> & Hp & -> & ->)|(-> & Hp & -> & ->)]]].
  - left. exists c. split; [done|]. right. left. lia.
  - left. exists c. split; [done|]. left. rewrite decide_False by lia. left. lia.
  - left. exists 0. split; [lia|]. left. rewrite decide_True by done. left. lia.
  - destruct (decide (r' = 0)) as [->|].
    + right. left. left. lia.
    + right. right. exists r'. split; [lia|]. left. left. lia.
  - right. right. exists r. split; [lia|]. right. left. split; [done|]. left. lia.
  - right. right. exists r. split; [lia|]. right. right. split; [lia|]. left. lia.
Qed.

Lemma hex_wrap_arcs_coords (rows cols r c r' c' : Z) :
  2 ≤ cols → 0 ≤ r < rows → 0 ≤ c < cols → 0 ≤ r' < rows → 0 ≤ c' < cols →
  hex_wrap_top rows cols cols (r * cols + c) (r' * cols + c')
  ∨ pair_is (r * cols + c) (r' * cols + c') 0 (cols - 1)
  ∨ hex_wrap_rows cols rows (r * cols + c) (r' * cols + c')
  ↔ hex_wrap rows cols r c r' c' ∨ hex_wrap rows cols r' c' r c.
Proof.
  intros Hcols Hr Hc Hr' Hc'. split.
  - unfold hex_wrap.
    intros [(j & Hj & [H|H])|[H|(m & Hm & [H|[[Hp H]|[Hp H]]])]].
    + destruct (decide (j = 0)) as [->|Hj0].
      * apply (pair_is_coords cols r c r' c' 0 0 (rows - 1) (cols - 1)) in H; [|lia..].
        destruct H as [(-> & -> & -> & ->)|(-> & -> & -> & ->)]; [left|right]; left; lia.
      * apply (pair_is_coords cols r c r' c' 0 j (rows - 1) (j - 1)) in H; [|lia..].
        destruct H as [(-> & -> & -> & ->)|(-> & -> & -> & ->)]; [left|right]; left; lia.
    + apply (pair_is_coords cols r c r' c' 0 j (rows - 1) j) in H; [|lia..].
      destruct H as [(-> & -> & -> & ->)|(-> & -> & -> & ->)]; [left|right]; left; lia.
    + apply (pair_is_coords cols r c r' c' 0 0 0 (cols - 1)) in H; [|lia..].
      destruct H as [(-> & -> & -> & ->)|(-> & -> & -> & ->)]; [left|right]; right; left; lia.
    + apply (pair_is_coords cols r c r' c' m 0 m (cols - 1)) in H; [|lia..].
      destruct H as [(-> & -> & -> & ->)|(-> & -> & -> & ->)]; [left|right]; right; left; lia.
    + apply (pair_is_coords cols r c r' c' m (cols - 1) (m - 1) 0) in H; [|lia..].
      destruct H as [(-> & -> & -> & ->)|(-> & -> & -> & ->)];
        [left|right]; right; right; left; lia.
    + pose proof (Z.mod_pos_bound m 2).
      apply (pair_is_coords cols r c r' c' m 0 (m - 1) (cols - 1)) in H; [|lia..].
      destruct H as [(-> & -> & -> & ->)|(-> & -> & -> & ->)];
        [left|right]; right; right; right; lia.
  - intros [H|H].
    + by apply hex_wrap_arcs_of_coords.
    + apply hex_wrap_arcs_sym. by apply hex_wrap_arcs_of_coords.
Qed.

(** X20.  With boundary adjustment, an even number of rows and at least
    two columns, the hexagonal generator builds exactly the offset
    hexagonal grid wrapped to a torus: besides the grid neighbors, each
    top-row node is joined to the bottom-row nodes of its own column and
    of the column to its left (cyclically), the two ends of every row are
    joined, the last node of an odd row is joined to the first node of
    the row above, and the first node of an even row to the last node of
    the row above. *)
Theorem hex2d_wrapped_adjacency (dflt : init_defaults) (rows cols : Z) :
  1 ≤ rows → 2 ≤ cols → rows mod 2 = 0 →
  ∃ g, hex2d_to_pairwise_neighborhood dflt rows cols true = Ok g ∧
       (∀ x y, y ∈ get_neighbors g x → 0 ≤ x < rows * cols ∧ 0 ≤ y < rows * cols) ∧
       ∀ r c r' c', 0 ≤ r < rows → 0 ≤ c < cols → 0 ≤ r' < rows → 0 ≤ c' < cols →
         (r' * cols + c' ∈ get_neighbors g (r * cols + c) ↔
          hex_neighbors r c r' c' ∨ hex_wrap rows cols r c r' c' ∨ hex_wrap rows cols r' c' r c).
Proof.
  intros Hr Hc Hev.
  destruct (hex2d_neighborhood_spec rows cols true) as (d0 & Hd0 & Hs & _ & Hdom & _);
    [lia|lia|done|].
  unfold hex2d_to_pairwise_neighborhood. rewrite Hd0. simpl.
  unfold hex2d_neighborhood in Hd0.
  destruct (hex2d_grid_exactly rows cols Hr Hc) as (d & i & Hd & Hex).
  apply bind_Ok in Hd as (st & Hst & Hd). rewrite Hst in Hd0. simpl in Hd0.
  rewrite Hd in Hd0. simpl in Hd0.
  destruct (hex2d_boundary_exactly rows cols d
              (hex_arc cols (rows * cols) (rows * cols - 1)) Hr)
    as (d' & Hd' & Hex'); [lia|done|exact Hex|].
  rewrite Hd' in Hd0. injection Hd0 as <-.
  eexists; split; [done|]. split.
  - intros x y Hxy%elem_of_get_neighbors. simpl in Hxy.
    pose proof (Hs _ _ Hxy) as Hyx. apply adj_dom in Hxy, Hyx.
    rewrite Hdom in Hxy, Hyx by lia. apply elem_of_ids in Hxy, Hyx. done.
  - intros r c r' c' Hr1 Hc1 Hr2 Hc2. rewrite elem_of_get_neighbors. simpl.
    rewrite (exactly_adj _ _ _ Hex').
    rewrite hex_arc_coords by lia. by rewrite hex_wrap_arcs_coords by lia.
Qed.

Lemma hex2d_wrapped_adjacency_witness :
  1 ≤ 4 ∧ 2 ≤ 4 ∧ 4 mod 2 = 0 ∧
  ∃ g, hex2d_to_pairwise_neighborhood fresh_defaults 4 4 true = Ok g ∧
       (1 * 4 + 3 ∈ get_neighbors g (0 * 4 + 0) ↔
        hex_neighbors 0 0 1 3 ∨ hex_wrap 4 4 0 0 1 3 ∨ hex_wrap 4 4 1 3 0 0).
Proof.
  split; [lia|]. split; [lia|]. split; [reflexivity|].
  destruct (hex2d_wrapped_adjacency fresh_defaults 4 4) as (g & Hg & _ & Hadj);
    [lia|lia|reflexivity|].
  exists g. split; [exact Hg|]. apply (Hadj 0 0 1 3); lia.
Defined.
